(** * LocalVCS: backup, restore and compare engine

    A shallow embedding of [LocalVCS.py] (classes [BackupThread],
    [RestoreThread], [CompareThread] and the engine-facing methods of
    [BackupRestoreApp]) together with the properties its specification
    states about them.

    Conventions.
    - A path is the list of its components, root first; [os.path.join] is
      list concatenation and [os.path.dirname] drops the last component.
    - A Python dict is a [gmap], a Python [set] a [gset]; iterating a set
      enumerates [elements].
    - Python exceptions are values of [exn]; code that may raise lives in
      the [result] monad, code that also changes the disk in [io]. *)

From Stdlib Require Import ZArith Strings.Byte Ascii String.
From stdpp Require Import gmap strings list fin_maps sets pretty sorting.

#[local] Set Warnings "-clear-no-such-hyp,-abstract-large-number".


(** ** Exceptions and the two monads *)

Inductive exn : Type :=
  | KeyError
  | FileNotFoundError
  | FileExistsError
  | NotADirectoryError
  | IsADirectoryError
  | PermissionError
  | OSError
  | ValueError
  | BadZipFile
  | ShutilError
  | TypeError
  | AttributeError.

Inductive result (A : Type) : Type :=
  | Ok (a : A)
  | Raise (e : exn).
Arguments Ok {A} a.
Arguments Raise {A} e.

#[global] Instance result_ret : MRet result := λ A a, Ok a.
#[global] Instance result_bind : MBind result := λ A B f m,
  match m with
  | Ok a => f a
  | Raise e => Raise e
  end.

#[global] Instance exn_eq_dec : EqDecision exn.
Proof. solve_decision. Defined.

(** ** [hashlib.md5]

    RFC 1321 on a list of bytes; 32-bit words are [Z] with the wrap-around
    written out. *)

Module MD5.
Local Open Scope Z_scope.

Definition mask32 (x : Z) : Z := Z.land x 0xFFFFFFFF.
Definition add32 (x y : Z) : Z := mask32 (x + y).
Definition not32 (x : Z) : Z := Z.lxor x 0xFFFFFFFF.
Definition rotl32 (x c : Z) : Z :=
  mask32 (Z.lor (Z.shiftl x c) (Z.shiftr x (32 - c))).

Definition K : list Z :=
  [0xd76aa478; 0xe8c7b756; 0x242070db; 0xc1bdceee;
   0xf57c0faf; 0x4787c62a; 0xa8304613; 0xfd469501;
   0x698098d8; 0x8b44f7af; 0xffff5bb1; 0x895cd7be;
   0x6b901122; 0xfd987193; 0xa679438e; 0x49b40821;
   0xf61e2562; 0xc040b340; 0x265e5a51; 0xe9b6c7aa;
   0xd62f105d; 0x02441453; 0xd8a1e681; 0xe7d3fbc8;
   0x21e1cde6; 0xc33707d6; 0xf4d50d87; 0x455a14ed;
   0xa9e3e905; 0xfcefa3f8; 0x676f02d9; 0x8d2a4c8a;
   0xfffa3942; 0x8771f681; 0x6d9d6122; 0xfde5380c;
   0xa4beea44; 0x4bdecfa9; 0xf6bb4b60; 0xbebfbc70;
   0x289b7ec6; 0xeaa127fa; 0xd4ef3085; 0x04881d05;
   0xd9d4d039; 0xe6db99e5; 0x1fa27cf8; 0xc4ac5665;
   0xf4292244; 0x432aff97; 0xab9423a7; 0xfc93a039;
   0x655b59c3; 0x8f0ccc92; 0xffeff47d; 0x85845dd1;
   0x6fa87e4f; 0xfe2ce6e0; 0xa3014314; 0x4e0811a1;
   0xf7537e82; 0xbd3af235; 0x2ad7d2bb; 0xeb86d391].

Definition shifts : list Z :=
  [7; 12; 17; 22; 7; 12; 17; 22; 7; 12; 17; 22; 7; 12; 17; 22;
   5; 9; 14; 20; 5; 9; 14; 20; 5; 9; 14; 20; 5; 9; 14; 20;
   4; 11; 16; 23; 4; 11; 16; 23; 4; 11; 16; 23; 4; 11; 16; 23;
   6; 10; 15; 21; 6; 10; 15; 21; 6; 10; 15; 21; 6; 10; 15; 21].

(** The four chaining words. *)
Record state : Type := State { sa : Z; sb : Z; sc : Z; sd : Z }.

Definition init : state :=
  State 0x67452301 0xefcdab89 0x98badcfe 0x10325476.

Definition step (M : list Z) (st : state) (i : nat) : state :=
  let '(State a b c d) := st in
  let '(f, g) :=
    if (i <? 16)%nat then
      (Z.lor (Z.land b c) (Z.land (not32 b) d), i)
    else if (i <? 32)%nat then
      (Z.lor (Z.land d b) (Z.land (not32 d) c), (5 * i + 1) `mod` 16)%nat
    else if (i <? 48)%nat then
      (Z.lxor b (Z.lxor c d), (3 * i + 5) `mod` 16)%nat
    else
      (Z.lxor c (Z.lor b (not32 d)), (7 * i) `mod` 16)%nat in
  let f' := add32 (add32 (add32 f a) (K !!! i)) (M !!! g) in
  State d (add32 b (rotl32 f' (shifts !!! i))) b c.

Definition word_le (bs : list Z) : Z :=
  foldr (λ b acc, b + 256 * acc) 0 bs.

Fixpoint words (n : nat) (bs : list Z) : list Z :=
  match n with
  | O => []
  | S n' => word_le (take 4 bs) :: words n' (drop 4 bs)
  end.

Definition compress (st : state) (block : list Z) : state :=
  let M := words 16 block in
  let '(State a b c d) := foldl (step M) st (seq 0 64) in
  State (add32 (sa st) a) (add32 (sb st) b) (add32 (sc st) c) (add32 (sd st) d).

Fixpoint blocks (n : nat) (st : state) (bs : list Z) : state :=
  match n with
  | O => st
  | S n' => blocks n' (compress st (take 64 bs)) (drop 64 bs)
  end.

Definition le_bytes (n : nat) (x : Z) : list Z :=
  (λ i : nat, Z.land (Z.shiftr x (8 * Z.of_nat i)) 0xFF) <$> seq 0 n.

Definition pad (len : nat) : list Z :=
  let zeros := ((55 + 64 - len `mod` 64) `mod` 64)%nat in
  0x80 :: replicate zeros 0 ++ le_bytes 8 (8 * Z.of_nat len).

Definition digest (msg : list byte) : list Z :=
  let bs := ((λ b, Z.of_N (Byte.to_N b)) <$> msg) ++ pad (length msg) in
  let '(State a b c d) := blocks (length bs / 64) init bs in
  le_bytes 4 a ++ le_bytes 4 b ++ le_bytes 4 c ++ le_bytes 4 d.

Definition hexdigit (x : Z) : ascii :=
  default "0"%char (list_ascii_of_string "0123456789abcdef" !! Z.to_nat x).

Definition hex (bs : list Z) : string :=
  string_of_list_ascii
    (bs ≫= λ b, [hexdigit (Z.shiftr b 4); hexdigit (Z.land b 0xF)]).

(** A [hashlib.md5()] object: [update] feeds bytes, and feeding in
    pieces is feeding the concatenation. *)
Definition t : Type := list byte.
Definition new : t := [].
Definition update (h : t) (chunk : list byte) : t := h ++ chunk.
Definition hexdigest (h : t) : string := hex (digest h).
End MD5.

(** ** [difflib.unified_diff]

    [SequenceMatcher] as CPython implements it (longest matching block,
    then recursion to the left and right of it), its opcodes grouped with
    three lines of context, and the unified format. *)

Module Difflib.
Inductive tag : Type := Replace | Delete | Insert | Equal.
#[global] Instance tag_eq_dec : EqDecision tag.
Proof. solve_decision. Defined.

(** An opcode [(tag, i1, i2, j1, j2)]. *)
Definition opcode : Type := tag * nat * nat * nat * nat.
(** A matching block [(i, j, k)]: [a[i:i+k] == b[j:j+k]]. *)
Definition block : Type := nat * nat * nat.

Section matcher.
(** [SequenceMatcher(None, a, b)]: no junk predicate, [autojunk] on. *)
Context (a b : list string).

Definition nth_line (l : list string) (i : nat) : string := default "" (l !! i).

(** [__chain_b]: the positions of [x] in [b], or nothing when [b] has
    at least 200 lines and [x] fills more than 1% + 1 of them. *)
Definition positions (x : string) : list nat :=
  omap (λ '(j, y), if decide (y = x) then Some j else None)
       (imap (λ j y, (j, y)) b).

Definition b2j (x : string) : list nat :=
  let idxs := positions x in
  let n := length b in
  if bool_decide (200 ≤ n) && bool_decide (n / 100 + 1 < length idxs)
  then [] else idxs.

(** One pass of the inner [for j in b2j.get(a[i], nothing)] loop. *)
Definition scan_row (blo bhi : nat) (acc : gmap nat nat * block) (i : nat)
    : gmap nat nat * block :=
  let '(j2len, best) := acc in
  foldl (λ (st : gmap nat nat * block) (j : nat),
           let '(newj2len, (besti, bestj, bestsize)) := st in
           if bool_decide (j < blo) then st
           else if bool_decide (bhi ≤ j) then st
           else
             let k := match j with
                      | O => 0
                      | S j' => default 0 (j2len !! j')
                      end + 1 in
             (<[j := k]> newj2len,
              if bool_decide (bestsize < k)
              then (i + 1 - k, j + 1 - k, k)
              else (besti, bestj, bestsize)))
        (∅, best) (b2j (nth_line a i)).

Fixpoint extend_back (fuel alo blo : nat) (m : block) : block :=
  let '(besti, bestj, bestsize) := m in
  match fuel with
  | O => m
  | S fuel' =>
      if bool_decide (alo < besti) && bool_decide (blo < bestj)
         && bool_decide (nth_line a (besti - 1) = nth_line b (bestj - 1))
      then extend_back fuel' alo blo (besti - 1, bestj - 1, bestsize + 1)
      else m
  end.

Fixpoint extend_forth (fuel ahi bhi : nat) (m : block) : block :=
  let '(besti, bestj, bestsize) := m in
  match fuel with
  | O => m
  | S fuel' =>
      if bool_decide (besti + bestsize < ahi)
         && bool_decide (bestj + bestsize < bhi)
         && bool_decide (nth_line a (besti + bestsize)
                         = nth_line b (bestj + bestsize))
      then extend_forth fuel' ahi bhi (besti, bestj, bestsize + 1)
      else m
  end.

Definition find_longest_match (alo ahi blo bhi : nat) : block :=
  let '(_, best) :=
    foldl (scan_row blo bhi) (∅, (alo, blo, 0)) (seq alo (ahi - alo)) in
  extend_forth (length a) ahi bhi (extend_back (length a) alo blo best).

(** The work-list loop of [get_matching_blocks]; [queue.pop()] takes
    the entry appended last. *)
Fixpoint match_queue (fuel : nat) (queue : list (nat * nat * nat * nat))
    (matching_blocks : list block) : list block :=
  match fuel, queue with
  | S fuel', (alo, ahi, blo, bhi) :: queue' =>
      let '(i, j, k) := find_longest_match alo ahi blo bhi in
      if bool_decide (k = 0) then match_queue fuel' queue' matching_blocks
      else
        let q1 := if bool_decide (alo < i) && bool_decide (blo < j)
                  then (alo, i, blo, j) :: queue' else queue' in
        let q2 := if bool_decide (i + k < ahi) && bool_decide (j + k < bhi)
                  then (i + k, ahi, j + k, bhi) :: q1 else q1 in
        match_queue fuel' q2 (matching_blocks ++ [(i, j, k)])
  | _, _ => matching_blocks
  end.

Definition block_le (x y : block) : Prop :=
  let '(i1, j1, k1) := x in
  let '(i2, j2, k2) := y in
  i1 < i2 ∨ (i1 = i2 ∧ (j1 < j2 ∨ (j1 = j2 ∧ k1 ≤ k2))).
#[local] Instance block_le_dec : RelDecision block_le.
Proof. intros [[??]?] [[??]?]. simpl. apply _. Defined.

(** Merge runs of adjacent blocks, then append the sentinel. *)
Definition collapse (blocks : list block) : list block :=
  let '(acc, (i1, j1, k1)) :=
    foldl (λ (st : list block * block) (x : block),
             let '(acc, (i1, j1, k1)) := st in
             let '(i2, j2, k2) := x in
             if bool_decide (i1 + k1 = i2) && bool_decide (j1 + k1 = j2)
             then (acc, (i1, j1, k1 + k2))
             else (if bool_decide (k1 = 0) then acc else acc ++ [(i1, j1, k1)],
                   (i2, j2, k2)))
          ([], (0, 0, 0)) blocks in
  (if bool_decide (k1 = 0) then acc else acc ++ [(i1, j1, k1)])
    ++ [(length a, length b, 0)].

Definition get_matching_blocks : list block :=
  collapse (merge_sort block_le
    (match_queue (2 * length a + 2) [(0, length a, 0, length b)] [])).

Definition get_opcodes : list opcode :=
  let '(_, _, answer) :=
    foldl (λ (st : nat * nat * list opcode) (x : block),
             let '(i, j, answer) := st in
             let '(ai, bj, size) := x in
             let answer1 :=
               if bool_decide (i < ai) && bool_decide (j < bj)
               then answer ++ [(Replace, i, ai, j, bj)]
               else if bool_decide (i < ai)
               then answer ++ [(Delete, i, ai, j, bj)]
               else if bool_decide (j < bj)
               then answer ++ [(Insert, i, ai, j, bj)]
               else answer in
             let answer2 :=
               if bool_decide (size = 0) then answer1
               else answer1 ++ [(Equal, ai, ai + size, bj, bj + size)] in
             (ai + size, bj + size, answer2))
          (0, 0, []) get_matching_blocks in
  answer.

Definition is_equal (c : opcode) : bool :=
  let '(t, _, _, _, _) := c in bool_decide (t = Equal).

Definition fix_first (n : nat) (codes : list opcode) : list opcode :=
  match codes with
  | (Equal, i1, i2, j1, j2) :: rest =>
      (Equal, i1 `max` (i2 - n), i2, j1 `max` (j2 - n), j2) :: rest
  | _ => codes
  end.

Definition fix_last (n : nat) (codes : list opcode) : list opcode :=
  match reverse codes with
  | (Equal, i1, i2, j1, j2) :: rest =>
      reverse ((Equal, i1, i2 `min` (i1 + n), j1, j2 `min` (j1 + n)) :: rest)
  | _ => codes
  end.

Definition get_grouped_opcodes (n : nat) : list (list opcode) :=
  let codes := get_opcodes in
  let codes := match codes with [] => [(Equal, 0, 1, 0, 1)] | _ => codes end in
  let codes := fix_last n (fix_first n codes) in
  let '(groups, group) :=
    foldl (λ (st : list (list opcode) * list opcode) (c : opcode),
             let '(groups, group) := st in
             let '(t, i1, i2, j1, j2) := c in
             if bool_decide (t = Equal) && bool_decide (n + n < i2 - i1)
             then (groups ++ [group ++ [(t, i1, i2 `min` (i1 + n),
                                         j1, j2 `min` (j1 + n))]],
                   [(t, i1 `max` (i2 - n), i2, j1 `max` (j2 - n), j2)])
             else (groups, group ++ [c]))
          ([], []) codes in
  match group with
  | [] => groups
  | [c] => if is_equal c then groups else groups ++ [group]
  | _ => groups ++ [group]
  end.
End matcher.

Definition format_range_unified (start stop : nat) : string :=
  let beginning := start + 1 in
  let length := stop - start in
  if bool_decide (length = 1) then pretty beginning
  else pretty (if bool_decide (length = 0) then beginning - 1 else beginning)
         +:+ "," +:+ pretty length.

Definition slice (l : list string) (i1 i2 : nat) : list string :=
  take (i2 - i1) (drop i1 l).

Definition opcode_lines (a b : list string) (c : opcode) : list string :=
  let '(t, i1, i2, j1, j2) := c in
  match t with
  | Equal => (λ line, " " +:+ line) <$> slice a i1 i2
  | Replace => ((λ line, "-" +:+ line) <$> slice a i1 i2)
               ++ ((λ line, "+" +:+ line) <$> slice b j1 j2)
  | Delete => (λ line, "-" +:+ line) <$> slice a i1 i2
  | Insert => (λ line, "+" +:+ line) <$> slice b j1 j2
  end.

Definition group_lines (a b : list string) (lineterm : string)
    (group : list opcode) : list string :=
  match group, reverse group with
  | (_, first1, _, first3, _) :: _, (_, _, last2, _, last4) :: _ =>
      ("@@ -" +:+ format_range_unified first1 last2
         +:+ " +" +:+ format_range_unified first3 last4
         +:+ " @@" +:+ lineterm)
        :: (group ≫= opcode_lines a b)
  | _, _ => []
  end.

(** [difflib.unified_diff(a, b, fromfile, tofile, lineterm=...)] with
    the default [n=3] and no file dates. *)
Definition unified_diff (a b : list string) (fromfile tofile lineterm : string)
    : list string :=
  match get_grouped_opcodes a b 3 with
  | [] => []
  | groups =>
      ("--- " +:+ fromfile +:+ lineterm)
        :: ("+++ " +:+ tofile +:+ lineterm)
        :: (groups ≫= group_lines a b lineterm)
  end.
End Difflib.

(** ** Data model *)

Abbreviation path := (list string).

(** The value stored for a file in [file_hashes]: the hex digest, or
    Python's [None] when hashing the file failed. *)
Abbreviation digest := (option string).

(** The dict dumped to [<backup>_hashes.json]. *)
Record hash_data : Type := HashData {
  backup_name : string;
  created_at : string;
  file_hashes : gmap path digest;
  total_files : nat;
  source_directory : path
}.

(** The dict returned by both comparison methods. *)
Record differences : Type := Differences {
  added : list path;
  removed : list path;
  modified : list path;
  unchanged : list path
}.

(** One member of a zip container: its name (a relative path), the bytes
    it expands to, and whether it reads back intact.  A damaged member
    makes extraction raise [BadZipFile] once its bytes have been written. *)
Record zmember : Type := ZMember {
  zname : path;
  zdata : list byte;
  zvalid : bool
}.

(** What a regular file holds.  Containers written through [zipfile] and
    documents written through [json] are kept in decoded form; any other
    file is its bytes, and opening it as a zip raises [BadZipFile]. *)
Inductive content : Type :=
  | Bytes (data : list byte)
  | Zip (members : list zmember)
  | Json (h : hash_data).

(** A directory entry.  [readable = false] is a file that [open] refuses. *)
Inductive node : Type :=
  | Dir
  | File (c : content) (readable : bool).

(** The disk maps each existing path to its entry; the root directory is
    the entry at [[]], and every entry of a real disk lies in a directory
    that is itself an entry. *)
Abbreviation disk := (gmap path node).

(** What [json.load] returns.  The program reads a loaded document in two
    places only: [get_hash_based_differences] reads the keys of its
    ['file_hashes'], and [get_backup_source_directory] calls
    [.get('source_directory', '')] on it.  A document that is not a
    manifest is therefore known by the exception the first read raises
    ([KeyError] for a dict without the key, [TypeError] for a list,
    [AttributeError] when the value under the key has no keys) and by
    what the second returns (the empty path when it raises). *)
Inductive json_value : Type :=
  | Manifest (h : hash_data)
  | OtherJson (no_file_hashes : exn) (source_dir : path).

(** What the standard library and the file system decide and the program
    never inspects: the byte image of a container or of a JSON document;
    UTF-8 decoding with [errors='ignore']; what [json.load] makes of the
    bytes of a file that [json.dump] did not write ([None] when they are
    not a JSON document); and the two checks of [ZipFile.write] that do
    not depend on the content of the file, that of [ZipInfo.from_file]
    (with the default [strict_timestamps], [ValueError] for a file last
    modified before 1980) and that of the member header (a
    [UnicodeEncodeError], which is a [ValueError], for a name with no
    UTF-8 encoding).  The disk keeps no modification times: the first
    check is a function of the path of the file, fixed for the time of a
    run. *)
Class Codecs : Type := {
  zip_bytes : list zmember → list byte;
  json_bytes : hash_data → list byte;
  utf8_ignore : list byte → string;
  json_loads : list byte → option json_value;
  ZipInfo_from_file : path → result unit;
  FileHeader : path → result unit
}.

#[global] Instance byte_eq_dec : EqDecision byte := Byte.byte_eq_dec.

(** ** The [io] monad: exceptions over a disk *)

Definition io (A : Type) : Type := disk → result A * disk.

#[global] Instance io_ret : MRet io := λ A a s, (Ok a, s).
#[global] Instance io_bind : MBind io := λ A B f m s,
  match m s with
  | (Ok a, s') => f a s'
  | (Raise e, s') => (Raise e, s')
  end.

Definition raise {A} (e : exn) : io A := λ s, (Raise e, s).
Definition get_disk : io disk := λ s, (Ok s, s).
Definition put_disk (s : disk) : io unit := λ _, (Ok (), s).
Definition lift {A} (r : disk → result A) : io A := λ s, (r s, s).

(** [try: body except Exception as e: handler e] *)
Definition try_except {A} (body : io A) (handler : exn → io A) : io A := λ s,
  match body s with
  | (Ok a, s') => (Ok a, s')
  | (Raise e, s') => handler e s'
  end.

Definition when (b : bool) (m : io unit) : io unit :=
  if b then m else mret ().

Fixpoint for_each {A} (l : list A) (body : A → io unit) : io unit :=
  match l with
  | [] => mret ()
  | x :: l' => body x;; for_each l' body
  end.

(** ** [os.path], [os] and [shutil] *)

Definition dirname (p : path) : path := take (length p - 1) p.
Definition basename (p : path) : string := default "" (last p).

Definition os_path_exists (s : disk) (p : path) : bool :=
  match s !! p with Some _ => true | None => false end.

Definition os_path_isdir (s : disk) (p : path) : bool :=
  match s !! p with Some Dir => true | _ => false end.

Definition os_path_isfile (s : disk) (p : path) : bool :=
  match s !! p with Some (File _ _) => true | _ => false end.

(** The error of a system call on a path that does not lead to an entry:
    [NotADirectoryError] when one of the folders on the way is a regular
    file, [FileNotFoundError] otherwise. *)
Definition missing_error (s : disk) (p : path) : exn :=
  if existsb (λ i, os_path_isfile s (take i p)) (seq 0 (length p))
  then NotADirectoryError else FileNotFoundError.

Definition strip_prefix (d p : path) : option path :=
  if decide (d `prefix_of` p) then Some (drop (length d) p) else None.

(** The entries at and below [d], keyed by their path relative to [d]. *)
Definition subtree (s : disk) (d : path) : disk :=
  list_to_map (omap (λ '(p, n), r ← strip_prefix d p; Some (r, n)) (map_to_list s)).

(** A relative tree planted at [d]. *)
Definition graft (d : path) (t : disk) : disk := kmap (app d) t.

Definition remove_tree (p : path) (s : disk) : disk :=
  filter (λ kv, ¬ p `prefix_of` kv.1) s.

Definition move_tree (src dst : path) (s : disk) : disk :=
  graft dst (subtree s src) ∪ remove_tree dst (remove_tree src s).

Definition os_listdir (p : path) : io (list string) := λ s,
  match s !! p with
  | Some Dir =>
      (Ok (omap (λ r, match r with [name] => Some name | _ => None end)
                (elements (dom (subtree s p)))), s)
  | Some (File _ _) => (Raise NotADirectoryError, s)
  | None => (Raise (missing_error s p), s)
  end.

Definition os_mkdir (p : path) : io unit := λ s,
  match s !! p with
  | Some _ => (Raise FileExistsError, s)
  | None =>
      if os_path_isdir s (dirname p) then (Ok (), <[p := Dir]> s)
      else (Raise (missing_error s p), s)
  end.

(** [os.makedirs]: make the parent first when it is missing, then the
    leaf; the recursion is on the reversed path. *)
Fixpoint makedirs_rev (rname : list string) (exist_ok : bool) : io unit :=
  match rname with
  | [] => mret ()
  | _ :: rhead =>
      s ← get_disk;
      when (negb (os_path_exists s (reverse rhead)))
        (try_except (makedirs_rev rhead exist_ok)
           (λ e, if decide (e = FileExistsError) then mret () else raise e))
  end;;
  try_except (os_mkdir (reverse rname))
    (λ e, s ← get_disk;
          if negb exist_ok || negb (os_path_isdir s (reverse rname))
          then raise e else mret ()).

Definition os_makedirs (name : path) (exist_ok : bool) : io unit :=
  makedirs_rev (reverse name) exist_ok.

Definition shutil_rmtree (p : path) : io unit := λ s,
  match s !! p with
  | Some Dir => (Ok (), remove_tree p s)
  | Some (File _ _) => (Raise NotADirectoryError, s)
  | None => (Raise (missing_error s p), s)
  end.

Definition os_remove (p : path) : io unit := λ s,
  match s !! p with
  | Some (File _ _) => (Ok (), delete p s)
  | Some Dir => (Raise IsADirectoryError, s)
  | None => (Raise (missing_error s p), s)
  end.

(** [open(p, 'wb')] followed by writing [c] and closing. *)
Definition write_file (p : path) (c : content) : io unit := λ s,
  match s !! p with
  | Some Dir => (Raise IsADirectoryError, s)
  | Some (File _ r) => (Ok (), <[p := File c r]> s)
  | None =>
      if os_path_isdir s (dirname p) then (Ok (), <[p := File c true]> s)
      else (Raise (missing_error s p), s)
  end.

(** [os.rename] as POSIX has it. *)
Definition os_rename (src dst : path) : io unit := λ s,
  match s !! src with
  | None => (Raise (missing_error s src), s)
  | Some n =>
      if negb (os_path_isdir s (dirname dst)) then (Raise (missing_error s dst), s)
      else if bool_decide (src = dst) then (Ok (), s)
      else if bool_decide (src `prefix_of` dst) then (Raise OSError, s)
      else
        match n, s !! dst with
        | _, None => (Ok (), move_tree src dst s)
        | File _ _, Some (File _ _) => (Ok (), move_tree src dst s)
        | File _ _, Some Dir => (Raise IsADirectoryError, s)
        | Dir, Some (File _ _) => (Raise NotADirectoryError, s)
        | Dir, Some Dir =>
            if bool_decide (dom (subtree s dst) = {[ [] ]})
            then (Ok (), move_tree src dst s)
            else (Raise OSError, s)
        end
  end.

Definition copyable (n : node) : bool :=
  match n with
  | File _ false => false
  | _ => true
  end.

(** [shutil.copytree]: unreadable files are skipped and reported by one
    [shutil.Error] once everything else has been copied. *)
Definition copytree (src dst : path) : io unit :=
  os_makedirs dst false;;
  s ← get_disk;
  let t := subtree s src in
  put_disk (graft dst (filter (λ kv, copyable kv.2) t) ∪ s);;
  if bool_decide (map_Forall (λ _ n, copyable n) t) then mret () else raise ShutilError.

(** [shutil.copy2] of one file. *)
Definition copy2 (src dst : path) : io unit :=
  s ← get_disk;
  match s !! src with
  | Some (File c true) => write_file dst c
  | Some (File _ false) => raise PermissionError
  | Some Dir => raise IsADirectoryError
  | None => raise (missing_error s src)
  end.

Definition shutil_move (src dst : path) : io unit :=
  s ← get_disk;
  if os_path_isdir s dst && bool_decide (src = dst) then os_rename src dst
  else
    real_dst ←
      (if os_path_isdir s dst then
         let real_dst := dst ++ [basename src] in
         if os_path_exists s real_dst then raise ShutilError else mret real_dst
       else mret dst);
    try_except (os_rename src real_dst)
      (λ _,
         if os_path_isdir s src then
           if bool_decide (src `prefix_of` dst) then raise ShutilError
           else copytree src real_dst;; shutil_rmtree src
         else copy2 src real_dst;; os_remove src).

(** ** Reading files *)

Section reading.
Context `{Codecs}.

Definition content_bytes (c : content) : list byte :=
  match c with
  | Bytes data => data
  | Zip members => zip_bytes members
  | Json h => json_bytes h
  end.

(** [open(p, 'rb')]: the bytes the file object will deliver. *)
Definition open_rb (s : disk) (p : path) : result (list byte) :=
  match s !! p with
  | Some (File c true) => Ok (content_bytes c)
  | Some (File _ false) => Raise PermissionError
  | Some Dir => Raise IsADirectoryError
  | None => Raise (missing_error s p)
  end.

Definition os_path_getsize (s : disk) (p : path) : result nat :=
  match s !! p with
  | Some (File c _) => Ok (length (content_bytes c))
  | Some Dir => Ok 0
  | None => Raise (missing_error s p)
  end.

End reading.

(** ** [zipfile] *)

(** [zipfile.ZipFile(p, 'r')]: the members of the container. *)
Definition ZipFile_read (s : disk) (p : path) : result (list zmember) :=
  match s !! p with
  | Some (File (Zip members) true) => Ok members
  | Some (File (Zip _) false) => Raise PermissionError
  | Some (File _ _) => Raise BadZipFile
  | Some Dir => Raise IsADirectoryError
  | None => Raise (missing_error s p)
  end.

Definition extract_member (targetdir : path) (m : zmember) : io unit :=
  let targetpath := targetdir ++ zname m in
  let upperdirs := dirname targetpath in
  s ← get_disk;
  when (negb (os_path_exists s upperdirs)) (os_makedirs upperdirs false);;
  write_file targetpath (Bytes (zdata m));;
  if zvalid m then mret () else raise BadZipFile.

Definition extractall (members : list zmember) (targetdir : path) : io unit :=
  for_each members (extract_member targetdir).

(** ** Strings and paths as the program formats them *)

(** [s.replace(old, new)] for a non-empty [old]: [skip] counts the
    characters of a match that are still to be dropped. *)
Fixpoint replace_from (old new : string) (skip : nat) (s : string) : string :=
  match s with
  | EmptyString => EmptyString
  | String c s' =>
      match skip with
      | S k => replace_from old new k s'
      | O =>
          if String.prefix old s
          then new +:+ replace_from old new (String.length old - 1) s'
          else String c (replace_from old new 0 s')
      end
  end.

Definition str_replace (old new s : string) : string := replace_from old new 0 s.

(** [p.replace(old, new)] on a path: [old] holds no separator, so the
    replacement acts inside each component. *)
Definition path_replace (old new : string) (p : path) : path :=
  str_replace old new <$> p.

Definition path_str (p : path) : string := String.concat "/" p.

(** [line[1:]] *)
Definition str_tail (s : string) : string :=
  match s with
  | EmptyString => EmptyString
  | String _ s' => s'
  end.

Definition startswith (s pre : string) : bool := String.prefix pre s.

Definition endswith (s suf : string) : bool :=
  bool_decide (list_ascii_of_string suf `suffix_of` list_ascii_of_string s).

(** [str.lower] on the ASCII letters. *)
Definition lower_char (c : ascii) : ascii :=
  let n := nat_of_ascii c in
  if bool_decide (65 ≤ n ≤ 90) then ascii_of_nat (n + 32) else c.

Definition str_lower (s : string) : string :=
  string_of_list_ascii (lower_char <$> list_ascii_of_string s).

Definition LF : ascii := ascii_of_nat 10.
Definition CR : ascii := ascii_of_nat 13.

(** Text mode with universal newlines: [\r\n] and a lone [\r] read as
    [\n]. *)
Fixpoint universal_newlines (s : string) : string :=
  match s with
  | EmptyString => EmptyString
  | String c rest =>
      if bool_decide (c = CR) then
        match rest with
        | String c' rest' =>
            if bool_decide (c' = LF) then String LF (universal_newlines rest')
            else String LF (universal_newlines rest)
        | EmptyString => String LF EmptyString
        end
      else String c (universal_newlines rest)
  end.

(** [f.readlines()]: the lines with their newline kept; [cur] is the line
    being read. *)
Fixpoint split_lines (cur : string) (s : string) : list string :=
  match s with
  | EmptyString => if bool_decide (cur = EmptyString) then [] else [cur]
  | String c rest =>
      if bool_decide (c = LF) then (cur +:+ String LF EmptyString) :: split_lines EmptyString rest
      else split_lines (cur +:+ String c EmptyString) rest
  end.

(** ** The program *)

(** The [pyqtSignal] a worker thread emits when it ends. *)
Inductive signal : Type :=
  | backup_completed (backup_path : path)
  | backup_failed (e : exn)
  | restore_completed (source_dir : path)
  | restore_failed (e : exn)
  | compare_completed (d : differences) (source_backup compare_backup : string)
  | compare_failed (e : exn).

(** The [QMessageBox] a GUI method ends with. *)
Inductive message_box : Type :=
  | information (title text : string)
  | critical (title text : string) (e : exn).

Section program.
Context `{Codecs}.

(** The two nested loops [for root, dirs, files in os.walk(top): for file
    in files] with [os.path.relpath(os.path.join(root, file), top)]: the
    relative path of every file below [top]. *)
Definition walk_files (s : disk) (top : path) : list path :=
  omap (λ '(r, n), match r, n with
                   | _ :: _, File _ _ => Some r
                   | _, _ => None
                   end)
       (map_to_list (subtree s top)).

(** *** [BackupThread] *)

(** [for chunk in iter(lambda: f.read(size), b""): hash_md5.update(chunk)];
    [f] is what is left to read. *)
Fixpoint read_chunks (size fuel : nat) (f : list byte) (hash_md5 : MD5.t) : MD5.t :=
  match fuel with
  | O => hash_md5
  | S fuel' =>
      let chunk := take size f in
      if bool_decide (chunk = []) then hash_md5
      else read_chunks size fuel' (drop size f) (MD5.update hash_md5 chunk)
  end.

Definition calculate_file_hash (s : disk) (file_path : path) : digest :=
  match open_rb s file_path with
  | Ok f => Some (MD5.hexdigest (read_chunks 4096 (S (length f)) f MD5.new))
  | Raise _ => None
  end.

(** "Calculate file hashes before creating zip" *)
Definition hash_files (s : disk) (source_dir : path) : gmap path digest :=
  foldl (λ file_hashes rel_path,
           <[rel_path := calculate_file_hash s (source_dir ++ rel_path)]> file_hashes)
        ∅ (walk_files s source_dir).

(** [zipf.write(file_path, arcname)]: the member it adds.  The file is
    examined by [ZipInfo.from_file], then opened, then the header of the
    member is written, then the data; a call that raises adds nothing. *)
Definition zipf_write (s : disk) (file_path arcname : path) : result zmember :=
  ZipInfo_from_file file_path;;
  data ← open_rb s file_path;
  FileHeader arcname;;
  mret (ZMember arcname data true).

(** The calls [zipf.write(file_path, arcname)], up to the first that
    raises. *)
Fixpoint zip_write_all (s : disk) (source_dir : path) (files : list path)
    (members : list zmember) : list zmember * option exn :=
  match files with
  | [] => (members, None)
  | arcname :: rest =>
      match zipf_write s (source_dir ++ arcname) arcname with
      | Ok m => zip_write_all s source_dir rest (members ++ [m])
      | Raise e => (members, Some e)
      end
  end.

(** "Create zip file": the [with zipfile.ZipFile(backup_path, 'w', ...)]
    block.  Opening creates the file; leaving the block, also by an
    exception, closes the container with the members written so far. *)
Definition create_zip (backup_path source_dir : path) : io unit :=
  write_file backup_path (Zip []);;
  s ← get_disk;
  let '(members, err) := zip_write_all s source_dir (walk_files s source_dir) [] in
  write_file backup_path (Zip members);;
  match err with
  | Some e => raise e
  | None => mret ()
  end.

Definition BackupThread_body (timestamp isoformat : string)
    (source_dir target_dir : path) : io path :=
  let backup_name := "BACKUP_" +:+ timestamp in
  let backup_path := target_dir ++ [backup_name +:+ ".zip"] in
  s ← get_disk;
  let file_hashes := hash_files s source_dir in
  create_zip backup_path source_dir;;
  let hash_file_path := path_replace ".zip" "_hashes.json" backup_path in
  let hash_data :=
    HashData backup_name isoformat file_hashes (size file_hashes) source_dir in
  write_file hash_file_path (Json hash_data);;
  mret backup_path.

(** [BackupThread.run]; [timestamp] and [isoformat] are what the two
    calls of [datetime.datetime.now()] format to. *)
Definition BackupThread_run (timestamp isoformat : string)
    (source_dir target_dir : path) (s : disk) : signal * disk :=
  match BackupThread_body timestamp isoformat source_dir target_dir s with
  | (Ok backup_path, s') => (backup_completed backup_path, s')
  | (Raise e, s') => (backup_failed e, s')
  end.

(** *** [RestoreThread] *)

Definition restore_temp_dir (backup_path : path) : path :=
  dirname backup_path ++ ["temp_restore"].

(** "Create temporary directory for extraction" and "Extract backup" *)
Definition restore_extract (backup_path : path) : io unit :=
  let temp_dir := restore_temp_dir backup_path in
  s ← get_disk;
  when (os_path_exists s temp_dir) (shutil_rmtree temp_dir);;
  os_makedirs temp_dir false;;
  zipf ← lift (λ s, ZipFile_read s backup_path);
  extractall zipf temp_dir.

(** "Remove existing source directory contents" *)
Definition restore_remove_existing (source_dir : path) : io unit :=
  s ← get_disk;
  when (os_path_exists s source_dir) (shutil_rmtree source_dir).

(** "Move extracted contents to source directory" *)
Definition restore_move_extracted (temp_dir source_dir : path) : io unit :=
  extracted_items ← os_listdir temp_dir;
  s ← get_disk;
  if bool_decide (length extracted_items = 1)
     && os_path_isdir s (temp_dir ++ [default "" (head extracted_items)])
  then shutil_move (temp_dir ++ [default "" (head extracted_items)]) source_dir
  else
    os_makedirs source_dir true;;
    for_each extracted_items (λ item, shutil_move (temp_dir ++ [item]) source_dir).

Definition RestoreThread_body (backup_path source_dir : path) : io unit :=
  restore_extract backup_path;;
  restore_remove_existing source_dir;;
  restore_move_extracted (restore_temp_dir backup_path) source_dir;;
  shutil_rmtree (restore_temp_dir backup_path).

Definition RestoreThread_run (backup_path source_dir : path) (s : disk)
    : signal * disk :=
  match RestoreThread_body backup_path source_dir s with
  | (Ok _, s') => (restore_completed source_dir, s')
  | (Raise e, s') => (restore_failed e, s')
  end.

(** *** [CompareThread] *)

(** [d[key]] on a Python dict. *)
Definition getitem {V} (d : gmap path V) (key : path) : result V :=
  match d !! key with
  | Some v => Ok v
  | None => Raise KeyError
  end.

(** The loop [for file in common_files] with its two appends. *)
Fixpoint classify_by_hash (source_hashes compare_hashes : hash_data)
    (common_files : list path) (d : differences) : result differences :=
  match common_files with
  | [] => Ok d
  | file :: rest =>
      source_hash ← getitem (file_hashes source_hashes) file;
      compare_hash ← getitem (file_hashes compare_hashes) file;
      if bool_decide (source_hash ≠ compare_hash)
      then classify_by_hash source_hashes compare_hashes rest
             (Differences (added d) (removed d) (modified d ++ [file]) (unchanged d))
      else classify_by_hash source_hashes compare_hashes rest
             (Differences (added d) (removed d) (modified d) (unchanged d ++ [file]))
  end.

(** [list(s)] of a Python set lists its elements in an order the language
    does not fix; here it is [elements], one order for each set.  What is
    said below of the order of [added], [removed], [modified] and
    [unchanged] therefore holds of the code only up to a permutation of
    each list. *)
Definition get_hash_based_differences
    (source_hashes compare_hashes : hash_data) : result differences :=
  let source_files : gset path := dom (file_hashes source_hashes) in
  let compare_files : gset path := dom (file_hashes compare_hashes) in
  let d := Differences (elements (compare_files ∖ source_files))
                       (elements (source_files ∖ compare_files)) [] [] in
  let common_files := source_files ∩ compare_files in
  classify_by_hash source_hashes compare_hashes (elements common_files) d.


(** [while True: chunk1 = f1.read(size); chunk2 = f2.read(size); ...] *)
Fixpoint compare_chunks (size fuel : nat) (f1 f2 : list byte) : bool :=
  match fuel with
  | O => false
  | S fuel' =>
      let chunk1 := take size f1 in
      let chunk2 := take size f2 in
      if bool_decide (chunk1 ≠ chunk2) then true
      else if bool_decide (chunk1 = []) then false
      else compare_chunks size fuel' (drop size f1) (drop size f2)
  end.

Definition files_differ (s : disk) (file1_path file2_path : path) : bool :=
  match
    size1 ← os_path_getsize s file1_path;
    size2 ← os_path_getsize s file2_path;
    if bool_decide (size1 ≠ size2) then mret true
    else
      f1 ← open_rb s file1_path;
      f2 ← open_rb s file2_path;
      mret (compare_chunks 8192 (S (length f1)) f1 f2)
  with
  | Ok b => b
  | Raise _ => true
  end.

Definition get_directory_differences (s : disk) (dir1 dir2 : path) : differences :=
  let files1 : gset path := list_to_set (walk_files s dir1) in
  let files2 : gset path := list_to_set (walk_files s dir2) in
  let common_files := files1 ∩ files2 in
  foldl (λ d file,
           if files_differ s (dir1 ++ file) (dir2 ++ file)
           then Differences (added d) (removed d) (modified d ++ [file]) (unchanged d)
           else Differences (added d) (removed d) (modified d) (unchanged d ++ [file]))
        (Differences (elements (files2 ∖ files1)) (elements (files1 ∖ files2)) [] [])
        (elements common_files).

(** "Clean up any existing temp directories" *)
Definition fresh_temp_dirs (temp_dirs : list path) : io unit :=
  for_each temp_dirs (λ temp_dir,
    s ← get_disk;
    when (os_path_exists s temp_dir) (shutil_rmtree temp_dir);;
    os_makedirs temp_dir false).

(** "Clean up on error" *)
Definition cleanup_temp_dirs (temp_dirs : list path) : io unit :=
  for_each temp_dirs (λ temp_dir,
    s ← get_disk;
    when (os_path_exists s temp_dir) (shutil_rmtree temp_dir)).

Definition compare_backups_legacy (target_dir source_path compare_path : path)
    : io differences :=
  let temp_source := target_dir ++ ["temp_compare_source"] in
  let temp_compare := target_dir ++ ["temp_compare_target"] in
  try_except
    (fresh_temp_dirs [temp_source; temp_compare];;
     zipf ← lift (λ s, ZipFile_read s source_path);
     extractall zipf temp_source;;
     zipf ← lift (λ s, ZipFile_read s compare_path);
     extractall zipf temp_compare;;
     s ← get_disk;
     let differences := get_directory_differences s temp_source temp_compare in
     shutil_rmtree temp_source;;
     shutil_rmtree temp_compare;;
     mret differences)
    (λ e, cleanup_temp_dirs [temp_source; temp_compare];; raise e).

(** [json.load] of a hash file.  A container starts with the bytes [PK]
    and is never a JSON document. *)
Definition json_load (s : disk) (p : path) : result json_value :=
  match s !! p with
  | Some (File (Json h) true) => Ok (Manifest h)
  | Some (File (Bytes data) true) =>
      match json_loads data with
      | Some v => Ok v
      | None => Raise ValueError
      end
  | Some (File (Zip _) true) => Raise ValueError
  | Some (File _ false) => Raise PermissionError
  | Some Dir => Raise IsADirectoryError
  | None => Raise (missing_error s p)
  end.

(** [hashes['file_hashes']], read from a loaded document. *)
Definition manifest_of (hashes : json_value) : result hash_data :=
  match hashes with
  | Manifest h => Ok h
  | OtherJson e _ => Raise e
  end.

Definition CompareThread_body (source_backup compare_backup : string)
    (target_dir : path) : io differences :=
  let source_path := target_dir ++ [source_backup] in
  let compare_path := target_dir ++ [compare_backup] in
  let source_hash_path := path_replace ".zip" "_hashes.json" source_path in
  let compare_hash_path := path_replace ".zip" "_hashes.json" compare_path in
  s ← get_disk;
  if negb (os_path_exists s source_hash_path)
     || negb (os_path_exists s compare_hash_path)
  then compare_backups_legacy target_dir source_path compare_path
  else
    source_hashes ← lift (λ s, json_load s source_hash_path);
    compare_hashes ← lift (λ s, json_load s compare_hash_path);
    lift (λ _, source_manifest ← manifest_of source_hashes;
               compare_manifest ← manifest_of compare_hashes;
               get_hash_based_differences source_manifest compare_manifest).

Definition CompareThread_run (source_backup compare_backup : string)
    (target_dir : path) (s : disk) : signal * disk :=
  match CompareThread_body source_backup compare_backup target_dir s with
  | (Ok d, s') => (compare_completed d source_backup compare_backup, s')
  | (Raise e, s') => (compare_failed e, s')
  end.

(** *** [BackupRestoreApp] *)

(** [open(p, 'r', encoding='utf-8', errors='ignore')] and [readlines()]. *)
Definition readlines (s : disk) (p : path) : result (list string) :=
  data ← open_rb s p;
  mret (split_lines EmptyString (universal_newlines (utf8_ignore data))).

Definition get_file_diff (target_dir : path) (source_backup compare_backup : string)
    (file_path : path) : io (option (list string)) :=
  let temp_source := target_dir ++ ["temp_diff_source"] in
  let temp_compare := target_dir ++ ["temp_diff_compare"] in
  try_except
    (fresh_temp_dirs [temp_source; temp_compare];;
     let source_path := target_dir ++ [source_backup] in
     zipf ← lift (λ s, ZipFile_read s source_path);
     extractall zipf temp_source;;
     let compare_path := target_dir ++ [compare_backup] in
     zipf ← lift (λ s, ZipFile_read s compare_path);
     extractall zipf temp_compare;;
     let file1_path := temp_source ++ file_path in
     let file2_path := temp_compare ++ file_path in
     s ← get_disk;
     if negb (os_path_exists s file1_path) || negb (os_path_exists s file2_path)
     then mret None
     else
       lines1 ← lift (λ s, readlines s file1_path);
       lines2 ← lift (λ s, readlines s file2_path);
       let diff :=
         Difflib.unified_diff lines1 lines2
           (source_backup +:+ "/" +:+ path_str file_path)
           (compare_backup +:+ "/" +:+ path_str file_path) "" in
       shutil_rmtree temp_source;;
       shutil_rmtree temp_compare;;
       mret (Some diff))
    (λ _, cleanup_temp_dirs [temp_source; temp_compare];; mret None).

(** [text_widget.append] adds one line to the widget. *)
Definition add_diff_to_widget (text_widget diff_content : list string) : list string :=
  foldl (λ widget line,
           if startswith line "+" then widget ++ ["➕ " +:+ str_tail line]
           else if startswith line "-" then widget ++ ["➖ " +:+ str_tail line]
           else if startswith line "@" then widget ++ ["📍 " +:+ line]
           else if startswith line "---" || startswith line "+++"
           then widget ++ ["📄 " +:+ line]
           else widget ++ ["  " +:+ line])
        text_widget diff_content.

Definition text_extensions : list string :=
  [".txt"; ".cs"; ".py"; ".js"; ".html"; ".css"; ".xml"; ".json"; ".md";
   ".log"; ".ini"; ".cfg"; ".conf"; ".yml"; ".yaml"; ".sql"; ".sh"; ".bat";
   ".ps1"; ".java"; ".cpp"; ".c"; ".h"; ".hpp"; ".php"; ".rb"; ".go"; ".rs";
   ".swift"; ".kt"; ".scala"; ".ts"; ".tsx"; ".jsx"; ".vue"; ".svelte"].

(** What [show_comparison_results] appends to the "Modified Files" tab for
    one file of [differences['modified']]. *)
Definition show_modified_file (target_dir : path)
    (source_backup compare_backup : string) (file : path)
    (text_widget : list string) : io (list string) :=
  let text_widget := text_widget ++ ["📄 " +:+ path_str file] in
  if existsb (endswith (str_lower (path_str file))) text_extensions then
    diff_content ← get_file_diff target_dir source_backup compare_backup file;
    match diff_content with
    | Some ((_ :: _) as diff_content) =>
        let text_widget := text_widget ++ [""; "Changes:"; ""] in
        let text_widget := add_diff_to_widget text_widget diff_content in
        mret (text_widget ++ [""; String.concat "" (replicate 50 "─"); ""])
    | _ => mret (text_widget ++ ["  (No differences found)"; ""])
    end
  else mret (text_widget ++ ["  (Binary or non-text file - diff not shown)"; ""]).

(** The list [backup_files] that [load_backups] builds from the target
    directory, before it is sorted by modification time (the disk has no
    times): the entries named [BACKUP_....zip], each with its path. *)
Definition load_backups_files (target_dir : path) (s : disk)
    : result (list (string * path)) :=
  if bool_decide (target_dir = []) || negb (os_path_exists s target_dir)
  then Ok []
  else
    match os_listdir target_dir s with
    | (Ok files, _) =>
        Ok ((λ file, (file, target_dir ++ [file]))
              <$> filter (λ file, startswith file "BACKUP_" && endswith file ".zip" = true)
                    files)
    | (Raise e, _) => Raise e
    end.

(** What [create_backup_card] reads from the disk outside a [try] block
    of its own: the size of the archive (and its modification time, which
    raises when the size does).  The source directory and the notes are
    read by functions that catch every exception. *)
Definition create_backup_card (backup_path : path) : io unit :=
  size ← lift (λ s, os_path_getsize s backup_path);
  mret ().

(** [load_backups]: the cards of the window are rebuilt from the target
    directory set in the window.  The list is sorted by modification time
    before the cards are made, which reads the same entries as the cards
    do.  The result is the list of the cards. *)
Definition load_backups (self_target_dir : path) : io (list (string * path)) :=
  backup_files ← lift (load_backups_files self_target_dir);
  for_each backup_files (λ '(backup_name, backup_path), create_backup_card backup_path);;
  mret backup_files.

(** The [try] block of [delete_backup]; [self_target_dir] is the target
    directory set in the window. *)
Definition delete_backup_body (self_target_dir backup_path : path) : io unit :=
  os_remove backup_path;;
  let hash_file_path := path_replace ".zip" "_hashes.json" backup_path in
  s ← get_disk;
  when (os_path_exists s hash_file_path) (os_remove hash_file_path);;
  let notes_file_path := path_replace ".zip" "_notes.txt" backup_path in
  s ← get_disk;
  when (os_path_exists s notes_file_path) (os_remove notes_file_path);;
  load_backups self_target_dir;;
  mret ().

(** [delete_backup]; [answer_yes] is the user's answer to the "Confirm
    Delete" question.  The result is the closing message box, if any. *)
Definition delete_backup (answer_yes : bool) (self_target_dir backup_path : path)
    (s : disk) : option message_box * disk :=
  if answer_yes then
    match delete_backup_body self_target_dir backup_path s with
    | (Ok _, s') => (Some (information "Success" "Backup deleted successfully"), s')
    | (Raise e, s') => (Some (critical "Error" "Failed to delete backup" e), s')
    end
  else (None, s).

(** [get_backup_source_directory]: the [source_directory] recorded in the
    hash file of a backup, or the empty string (here the empty path) when
    there is no hash file or it cannot be loaded. *)
Definition get_backup_source_directory (backup_path : path) (s : disk) : path :=
  let hash_file_path := path_replace ".zip" "_hashes.json" backup_path in
  if os_path_exists s hash_file_path then
    match json_load s hash_file_path with
    | Ok (Manifest hash_data) => source_directory hash_data
    | Ok (OtherJson _ source_dir) => source_dir
    | Raise _ => []
    end
  else [].

(** The directory [start_restore] restores to: the one recorded with the
    backup, else the source directory currently set in the window
    ([self_source_dir]); [None] is the error box "No source directory
    found ...". *)
Definition start_restore_destination (backup_path self_source_dir : path)
    (s : disk) : option path :=
  let original_source_dir := get_backup_source_directory backup_path s in
  if bool_decide (original_source_dir = []) then
    if bool_decide (self_source_dir = []) then None else Some self_source_dir
  else Some original_source_dir.

(** What ties an archive member to the file it was written from. *)
Definition member_of (s : disk) (source_dir : path) (k : path) (m : zmember) : Prop :=
  zname m = k ∧ zvalid m = true ∧ open_rb s (source_dir ++ k) = Ok (zdata m).

(** A file of the tree that [ZipFile.write] accepts whatever it holds:
    one last modified in 1980 or later, under a name that can be
    encoded. *)
Definition archivable (source_dir k : path) : Prop :=
  ZipInfo_from_file (source_dir ++ k) = Ok () ∧ FileHeader k = Ok ().

End program.

(** ** Example data

    A codec for disks whose text files are ASCII, and helpers to write
    small disks down. *)

Definition ascii_codecs : Codecs := {|
  zip_bytes members := members ≫= zdata;
  json_bytes _ := [];
  utf8_ignore := string_of_list_byte;
  json_loads data :=
    if bool_decide (data = list_byte_of_string "{}")
    then Some (OtherJson KeyError []) else None;
  ZipInfo_from_file _ := Ok ();
  FileHeader _ := Ok ()
|}.

Definition text_file (s : string) : node := File (Bytes (list_byte_of_string s)) true.
Definition locked_file (s : string) : node := File (Bytes (list_byte_of_string s)) false.
Definition member (name : path) (s : string) : zmember :=
  ZMember name (list_byte_of_string s) true.
Definition line (s : string) : string := s +:+ String LF EmptyString.

(** Two trees holding the same file that cannot be read. *)
Definition locked_trees : disk :=
  list_to_map [([], Dir);
               (["t1"], Dir); (["t1"; "a.txt"], locked_file "x");
               (["t2"], Dir); (["t2"; "a.txt"], locked_file "x")].

Definition two_trees : disk :=
  list_to_map [([], Dir);
               (["t1"], Dir); (["t1"; "a.txt"], text_file "x");
               (["t2"], Dir); (["t2"; "a.txt"], text_file "y")].

(** A store with two archives whose [a.py] differs in its second line
    only. *)
Definition one_line_store : disk :=
  list_to_map [
    ([], Dir); (["store"], Dir);
    (["store"; "BACKUP_A.zip"],
     File (Zip [member ["a.py"] (line "x = 1" +:+ line "y = 2" +:+ line "z = 3")]) true);
    (["store"; "BACKUP_B.zip"],
     File (Zip [member ["a.py"] (line "x = 1" +:+ line "y = 5" +:+ line "z = 3")]) true)].

(** The lines of [widget] that [add_diff_to_widget] marked as added
    (removed). *)
Definition marked_added (widget : list string) : list string :=
  filter (λ l, startswith l "➕" = true) widget.
Definition marked_removed (widget : list string) : list string :=
  filter (λ l, startswith l "➖" = true) widget.

(** A store where the archive is gone and its two sidecars are left. *)
Definition orphan_sidecars : disk :=
  list_to_map [([], Dir); (["store"], Dir);
               (["store"; "BACKUP_A_hashes.json"],
                File (Json (HashData "BACKUP_A" "" ∅ 0 ["proj"])) true);
               (["store"; "BACKUP_A_notes.txt"], text_file "first")].

(** A store holding an archive and its notes, but no manifest. *)
Definition archive_and_notes : disk :=
  list_to_map [([], Dir); (["store"], Dir);
               (["store"; "BACKUP_A.zip"], File (Zip []) true);
               (["store"; "BACKUP_A_notes.txt"], text_file "first")].

(** A project with one locked file, next to an empty store. *)
Definition locked_project : disk :=
  list_to_map [([], Dir); (["store"], Dir); (["proj"], Dir);
               (["proj"; "a.txt"], text_file "x");
               (["proj"; "secret.txt"], locked_file "y")].

(** One of the two paths lies at or below the other. *)
Definition comparable (p q : path) : Prop := p `prefix_of` q ∨ q `prefix_of` p.

(** [m] leaves every path outside [P] as it was, whether it returns or
    raises. *)
Definition touches_only {A} (P : path → Prop) (m : io A) : Prop :=
  ∀ s q, ¬ P q → (m s).2 !! q = s !! q.

(** [m] leaves no file unreadable that could be read before, and adds
    none that cannot be read. *)
Definition adds_no_locked {A} (m : io A) : Prop :=
  ∀ s q c, (m s).2 !! q = Some (File c false) → ∃ c', s !! q = Some (File c' false).

(** A project that keeps its backups in a folder of its own; the one
    archive there is not a zip container. *)
Definition nested_store : disk :=
  list_to_map [([], Dir); (["proj"], Dir); (["proj"; "a.txt"], text_file "x");
               (["proj"; "backups"], Dir);
               (["proj"; "backups"; "BACKUP_A.zip"], text_file "not a zip")].

(** The same damaged archive, with the store beside the project. *)
Definition damaged_store : disk :=
  list_to_map [([], Dir); (["proj"], Dir); (["proj"; "a.txt"], text_file "x");
               (["store"], Dir);
               (["store"; "BACKUP_A.zip"],
                File (Zip [member ["a.txt"] "y"; ZMember ["b.txt"] [] false]) true)].

(** An archive of two files and a folder, staged next to the store, with
    the destination [proj] removed. *)
Definition staged_items : disk :=
  list_to_map [([], Dir); (["store"], Dir);
               (["store"; "temp_restore"], Dir);
               (["store"; "temp_restore"; "a.txt"], text_file "x");
               (["store"; "temp_restore"; "sub"], Dir);
               (["store"; "temp_restore"; "sub"; "b.txt"], text_file "y")].

(** Two backups of a project whose [a.txt] changed and whose [b.txt] did
    not, with their manifests. *)
Definition store_with_manifests : disk :=
  list_to_map [
    ([], Dir); (["store"], Dir);
    (["store"; "BACKUP_A.zip"],
     File (Zip [member ["a.txt"] "x"; member ["b.txt"] "z"]) true);
    (["store"; "BACKUP_A_hashes.json"],
     File (Json (HashData "BACKUP_A" "ta"
                   {[ ["a.txt"] := Some "9dd4e461268c8034f5c8564e155c67a6";
                      ["b.txt"] := Some "fbade9e36a3f36d3d676c1b808451dd7" ]}
                   2 ["proj"])) true);
    (["store"; "BACKUP_B.zip"],
     File (Zip [member ["a.txt"] "y"; member ["b.txt"] "z"]) true);
    (["store"; "BACKUP_B_hashes.json"],
     File (Json (HashData "BACKUP_B" "tb"
                   {[ ["a.txt"] := Some "415290769594460e2e485922904f345d";
                      ["b.txt"] := Some "fbade9e36a3f36d3d676c1b808451dd7" ]}
                   2 ["proj"])) true)].

Definition store_with_damaged_manifest : disk :=
  <[ ["store"; "BACKUP_A_hashes.json"] := text_file "{ not json" ]>
    store_with_manifests.

(** A project of two files, one of them in a folder, next to an empty
    store. *)
Definition small_project : disk :=
  list_to_map [([], Dir); (["store"], Dir); (["proj"], Dir);
               (["proj"; "a.txt"], text_file "x");
               (["proj"; "sub"], Dir);
               (["proj"; "sub"; "b.txt"], text_file "z")].

(** [q] lies strictly below [d]. *)
Definition below (d q : path) : Prop := d `prefix_of` q ∧ q ≠ d.

(** [s'] is [s] with two directories [d1] and [d2] in place and any
    contents below them. *)
Definition staged_beside (s : disk) (d1 d2 : path) (s' : disk) : Prop :=
  s' !! d1 = Some Dir ∧ s' !! d2 = Some Dir
  ∧ ∀ q, ¬ d1 `prefix_of` q → ¬ d2 `prefix_of` q → s' !! q = s !! q.

(** The directory [d] of [s] holds the tree of [members]: a file for
    each member, a directory for each folder on the way to one, and
    nothing else. *)
Definition extracted (members : list zmember) (d : path) (s : disk) : Prop :=
  s !! d = Some Dir
  ∧ (∀ m, m ∈ members → s !! (d ++ zname m) = Some (File (Bytes (zdata m)) true))
  ∧ (∀ m r, m ∈ members → r `prefix_of` zname m → r ≠ zname m →
       s !! (d ++ r) = Some Dir)
  ∧ (∀ r, is_Some (s !! (d ++ r)) → r = [] ∨ ∃ m, m ∈ members ∧ r `prefix_of` zname m).

(** Names of files of one tree: no name twice, none empty, none leading
    to another. *)
Definition leaf_names (names : list path) : Prop :=
  NoDup names ∧ ([] ∉ names)
  ∧ ∀ k k', k ∈ names → k' ∈ names → k `prefix_of` k' → k = k'.

(** Every entry but the root lies in a directory that is itself an
    entry. *)
Definition well_formed (s : disk) : Prop :=
  map_Forall (λ p _, p = [] ∨ os_path_isdir s (dirname p) = true) s.

(** All [names] lead through the one top-level folder [x]. *)
Definition under_one_folder (names : list path) (x : string) : Prop :=
  names ≠ [] ∧ ∀ k, k ∈ names → ∃ tail, tail ≠ [] ∧ k = x :: tail.

(** A member with the first component of its name dropped. *)
Definition strip_top (m : zmember) : zmember :=
  ZMember (drop 1 (zname m)) (zdata m) (zvalid m).

(** A project whose only file lies in the folder [src], next to an empty
    store. *)
Definition nested_project : disk :=
  list_to_map [([], Dir); (["store"], Dir); (["proj"], Dir);
               (["proj"; "src"], Dir);
               (["proj"; "src"; "a.txt"], text_file "x")].

(** The store of a project kept inside the project, holding one intact
    archive. *)
Definition nested_archive : disk :=
  list_to_map [([], Dir); (["proj"], Dir); (["proj"; "a.txt"], text_file "y");
               (["proj"; "backups"], Dir);
               (["proj"; "backups"; "BACKUP_A.zip"],
                File (Zip [member ["a.txt"] "x"]) true)].

(** * Properties *)

(** ** The chunked loops read whole files *)

Lemma take_nil_inv {A} (n : nat) (l : list A) : 0 < n → take n l = [] → l = [].
Proof. destruct n, l; naive_solver lia. Qed.

Lemma read_chunks_all size fuel f h :
  0 < size → length f < fuel → read_chunks size fuel f h = h ++ f.
Proof.
  intros Hsize. revert f h. induction fuel as [|fuel IH]; intros f h Hf; [lia|].
  cbn [read_chunks]. case_bool_decide as Hchunk.
  - apply take_nil_inv in Hchunk as ->; [|done]. by rewrite app_nil_r.
  - rewrite IH.
    + unfold MD5.update. by rewrite <-app_assoc, take_drop.
    + rewrite length_drop. destruct f; [by destruct size|]. cbn in *. lia.
Qed.

Lemma compare_chunks_all size fuel f1 f2 :
  0 < size → length f1 < fuel →
  compare_chunks size fuel f1 f2 = bool_decide (f1 ≠ f2).
Proof.
  intros Hsize. revert f1 f2.
  induction fuel as [|fuel IH]; intros f1 f2 Hf; [lia|].
  cbn [compare_chunks]. case_bool_decide as Hne.
  - symmetry. apply bool_decide_eq_true. by intros ->.
  - assert (Heq : take size f1 = take size f2)
      by (destruct (decide (take size f1 = take size f2)); naive_solver).
    case_bool_decide as Hnil.
    + assert (f1 = []) as -> by eauto using take_nil_inv.
      rewrite Hnil in Heq. symmetry in Heq.
      apply take_nil_inv in Heq as ->; [|done].
      symmetry. by apply bool_decide_eq_false; intros [].
    + rewrite IH.
      * apply bool_decide_ext. split; intros Hd E; apply Hd.
        -- by rewrite E.
        -- by rewrite <-(take_drop size f1), <-(take_drop size f2), Heq, E.
      * rewrite length_drop. destruct f1; [by destruct size|]. cbn in *. lia.
Qed.

(** ** Lookups in the tree operations *)

Implicit Types (p q r src dst top : path) (s t : disk) (n : node).

Lemma strip_prefix_Some (d : path) p r : strip_prefix d p = Some r ↔ p = d ++ r.
Proof.
  unfold strip_prefix. case_decide as Hp.
  - destruct Hp as [k ->]. rewrite drop_app_length. naive_solver.
  - split; [done|]. intros ->. destruct Hp. by eexists.
Qed.

Lemma strip_prefix_app (d : path) r : strip_prefix d (d ++ r) = Some r.
Proof. by apply strip_prefix_Some. Qed.

Lemma lookup_subtree s (d : path) r : subtree s d !! r = s !! (d ++ r).
Proof.
  unfold subtree.
  set (l := omap _ _).
  assert (Hl : ∀ r n, (r, n) ∈ l ↔ s !! (d ++ r) = Some n).
  { intros r' n. unfold l. rewrite list_elem_of_omap. split.
    - intros [[p n'] [Hp Hr]]. apply elem_of_map_to_list in Hp.
      destruct (strip_prefix d p) as [r''|] eqn:Hs; simplify_eq/=.
      apply strip_prefix_Some in Hs. by subst.
    - intros Hs. exists (d ++ r', n). split; [by apply elem_of_map_to_list|].
      by rewrite strip_prefix_app. }
  assert (Hnd : NoDup l.*1).
  { unfold l. clear Hl l.
    pose proof (NoDup_fst_map_to_list s) as Hs.
    induction (map_to_list s) as [|[p n] m IH]; [constructor|].
    cbn in Hs. apply NoDup_cons in Hs as [Hp Hm]. cbn.
    destruct (strip_prefix d p) as [r1|] eqn:Hr; cbn; [|by apply IH].
    apply NoDup_cons. split; [|by apply IH].
    intros [[r2 n2] [? Hin]]%list_elem_of_fmap. simplify_eq/=.
    apply list_elem_of_omap in Hin as [[p3 n3] [Hin Hs']].
    destruct (strip_prefix d p3) as [r3|] eqn:Hr3; simplify_eq/=.
    apply strip_prefix_Some in Hr, Hr3. subst.
    apply Hp. apply list_elem_of_fmap. by exists (d ++ r2, n2). }
  destruct (s !! (d ++ r)) as [n|] eqn:Hs.
  - apply elem_of_list_to_map_1; [done|]. by apply Hl.
  - apply not_elem_of_list_to_map_1.
    intros [[r' n] [? Hin]]%list_elem_of_fmap. simplify_eq/=.
    apply Hl in Hin. congruence.
Qed.

Lemma lookup_graft_app (d : path) (t : disk) r : graft d t !! (d ++ r) = t !! r.
Proof. unfold graft. apply (lookup_kmap (app d)). Qed.

Lemma lookup_graft_None (d : path) (t : disk) q : ¬ d `prefix_of` q → graft d t !! q = None.
Proof.
  intros Hq. unfold graft. apply lookup_kmap_None; [apply _|].
  intros r ->. destruct Hq. by eexists.
Qed.

Lemma lookup_remove_tree_under p (s : disk) q :
  p `prefix_of` q → remove_tree p s !! q = None.
Proof.
  intros Hq. unfold remove_tree. apply map_lookup_filter_None. right.
  intros n _. cbn. tauto.
Qed.

Lemma lookup_remove_tree_other p (s : disk) q :
  ¬ p `prefix_of` q → remove_tree p s !! q = s !! q.
Proof.
  intros Hq. unfold remove_tree. destruct (s !! q) as [n|] eqn:Hs.
  - by apply map_lookup_filter_Some.
  - apply map_lookup_filter_None. by left.
Qed.

Lemma lookup_move_tree_dst src dst (s : disk) r :
  is_Some (s !! (src ++ r)) →
  move_tree src dst s !! (dst ++ r) = s !! (src ++ r).
Proof.
  intros [n Hn]. unfold move_tree. rewrite Hn.
  apply lookup_union_Some_l. by rewrite lookup_graft_app, lookup_subtree.
Qed.

Lemma lookup_move_tree_dst_None src dst (s : disk) r :
  s !! (src ++ r) = None → move_tree src dst s !! (dst ++ r) = None.
Proof.
  intros Hn. unfold move_tree. apply lookup_union_None. split.
  - by rewrite lookup_graft_app, lookup_subtree.
  - apply lookup_remove_tree_under. by eexists.
Qed.

Lemma lookup_move_tree_src src dst (s : disk) q :
  src `prefix_of` q → ¬ dst `prefix_of` q → move_tree src dst s !! q = None.
Proof.
  intros Hsrc Hdst. unfold move_tree. apply lookup_union_None. split.
  - by apply lookup_graft_None.
  - rewrite lookup_remove_tree_other by done. by apply lookup_remove_tree_under.
Qed.

Lemma lookup_move_tree_other src dst (s : disk) q :
  ¬ src `prefix_of` q → ¬ dst `prefix_of` q → move_tree src dst s !! q = s !! q.
Proof.
  intros Hsrc Hdst. unfold move_tree.
  rewrite lookup_union_r by by apply lookup_graft_None.
  by rewrite !lookup_remove_tree_other.
Qed.

(** ** The hash-based comparison *)

Section hash_compare.
Implicit Types (A B : hash_data) (k : path) (d : differences).

Lemma classify_by_hash_spec A B l d :
  (∀ k, k ∈ l → k ∈ dom (file_hashes A) ∧ k ∈ dom (file_hashes B)) →
  ∃ d', classify_by_hash A B l d = Ok d'
    ∧ added d' = added d ∧ removed d' = removed d
    ∧ modified d' =
        modified d ++ filter (λ k, file_hashes A !! k ≠ file_hashes B !! k) l
    ∧ unchanged d' =
        unchanged d ++ filter (λ k, file_hashes A !! k = file_hashes B !! k) l.
Proof.
  revert d. induction l as [|k l IH]; intros d Hl.
  - exists d. simpl. by rewrite !app_nil_r.
  - destruct (Hl k) as [[a Ha]%elem_of_dom [b Hb]%elem_of_dom]; [left|].
    assert (Hl' : ∀ k', k' ∈ l →
              k' ∈ dom (file_hashes A) ∧ k' ∈ dom (file_hashes B))
      by (intros k' ?; apply Hl; by right).
    cbn [classify_by_hash]. unfold getitem. rewrite Ha, Hb. cbn [mbind result_bind].
    case_bool_decide as Hab.
    + destruct (IH (Differences (added d) (removed d) (modified d ++ [k])
                      (unchanged d)) Hl') as (d' & -> & ? & ? & Hm & Hu).
      exists d'. cbn [added removed modified unchanged] in *.
      rewrite !filter_cons, Ha, Hb.
      rewrite decide_True, decide_False by congruence.
      by rewrite Hm, Hu, <-app_assoc.
    + destruct (IH (Differences (added d) (removed d) (modified d)
                      (unchanged d ++ [k])) Hl') as (d' & -> & ? & ? & Hm & Hu).
      exists d'. cbn [added removed modified unchanged] in *.
      rewrite !filter_cons, Ha, Hb.
      assert (a = b) as -> by (by destruct (decide (a = b)); [|exfalso; auto]).
      rewrite decide_False by (by intros Hn; apply Hn).
      rewrite decide_True by done.
      by rewrite Hm, Hu, <-app_assoc.
Qed.

(** The comparison never raises, and its four lists are these. *)
Lemma get_hash_based_differences_eq A B :
  let common := elements (dom (file_hashes A) ∩ dom (file_hashes B)) in
  get_hash_based_differences A B = Ok (Differences
    (elements (dom (file_hashes B) ∖ dom (file_hashes A)))
    (elements (dom (file_hashes A) ∖ dom (file_hashes B)))
    (filter (λ k, file_hashes A !! k ≠ file_hashes B !! k) common)
    (filter (λ k, file_hashes A !! k = file_hashes B !! k) common)).
Proof.
  intros common. unfold get_hash_based_differences.
  edestruct (classify_by_hash_spec A B common) as (d' & -> & Ha & Hr & Hm & Hu).
  { intros k. unfold common. rewrite elem_of_elements. set_solver. }
  destruct d'; cbn in *. by subst.
Qed.
End hash_compare.

(** C1: for every pair of manifests the hash-based compare never raises
    and sorts the keys into four lists: [added] is [keys(B) − keys(A)],
    [removed] is [keys(A) − keys(B)], a common key is in [modified] iff
    its digests differ and in [unchanged] otherwise; no key occurs twice
    in the four lists together, and together they hold exactly
    [keys(A) ∪ keys(B)]. *)
Theorem get_hash_based_differences_partition (A B : hash_data) :
  ∃ d : differences,
    get_hash_based_differences A B = Ok d
    ∧ (∀ k, k ∈ added d ↔ k ∈ dom (file_hashes B) ∖ dom (file_hashes A))
    ∧ (∀ k, k ∈ removed d ↔ k ∈ dom (file_hashes A) ∖ dom (file_hashes B))
    ∧ (∀ k, k ∈ modified d ↔
            k ∈ dom (file_hashes A) ∩ dom (file_hashes B)
            ∧ file_hashes A !! k ≠ file_hashes B !! k)
    ∧ (∀ k, k ∈ unchanged d ↔
            k ∈ dom (file_hashes A) ∩ dom (file_hashes B)
            ∧ file_hashes A !! k = file_hashes B !! k)
    ∧ NoDup (added d ++ removed d ++ modified d ++ unchanged d)
    ∧ (∀ k, k ∈ added d ++ removed d ++ modified d ++ unchanged d ↔
            k ∈ dom (file_hashes A) ∪ dom (file_hashes B)).
Proof.
  eexists. split; [apply get_hash_based_differences_eq|]. cbn.
  assert (Hm : ∀ k, k ∈ filter (λ k, file_hashes A !! k ≠ file_hashes B !! k)
                      (elements (dom (file_hashes A) ∩ dom (file_hashes B))) ↔
            k ∈ dom (file_hashes A) ∩ dom (file_hashes B)
            ∧ file_hashes A !! k ≠ file_hashes B !! k).
  { intros k. rewrite list_elem_of_filter, elem_of_elements. tauto. }
  assert (Hu : ∀ k, k ∈ filter (λ k, file_hashes A !! k = file_hashes B !! k)
                      (elements (dom (file_hashes A) ∩ dom (file_hashes B))) ↔
            k ∈ dom (file_hashes A) ∩ dom (file_hashes B)
            ∧ file_hashes A !! k = file_hashes B !! k).
  { intros k. rewrite list_elem_of_filter, elem_of_elements. tauto. }
  split_and!; try done.
  - intros k. apply elem_of_elements.
  - intros k. apply elem_of_elements.
  - rewrite !NoDup_app. split_and!.
    + apply NoDup_elements.
    + intros k. rewrite !elem_of_app, !elem_of_elements, Hm, Hu. set_solver.
    + apply NoDup_elements.
    + intros k. rewrite !elem_of_app, !elem_of_elements, Hm, Hu. set_solver.
    + apply NoDup_filter, NoDup_elements.
    + intros k. rewrite Hm, Hu. tauto.
    + apply NoDup_filter, NoDup_elements.
  - intros k. rewrite !elem_of_app, !elem_of_elements, Hm, Hu.
    rewrite !elem_of_difference, elem_of_intersection, elem_of_union.
    destruct (decide (file_hashes A !! k = file_hashes B !! k)),
      (decide (k ∈ dom (file_hashes A))), (decide (k ∈ dom (file_hashes B)));
      tauto.
Qed.

(** C9: swapping the two manifests swaps [added] and [removed]: what
    [compare(A, B)] reports as added is what [compare(B, A)] reports as
    removed, and the other way round (as sets, and in the model even as
    lists). *)
Theorem get_hash_based_differences_swap (A B : hash_data) :
  ∃ dAB dBA : differences,
    get_hash_based_differences A B = Ok dAB
    ∧ get_hash_based_differences B A = Ok dBA
    ∧ added dAB = removed dBA
    ∧ removed dAB = added dBA
    ∧ list_to_set (added dAB) =@{gset path} list_to_set (removed dBA)
    ∧ list_to_set (removed dAB) =@{gset path} list_to_set (added dBA).
Proof.
  do 2 eexists.
  split; [apply get_hash_based_differences_eq|].
  split; [apply get_hash_based_differences_eq|]. done.
Qed.

(** ** Walking a tree, hashing it, comparing it byte by byte *)

Section walking.
Context `{Codecs}.

Lemma elem_of_walk_files s top k :
  k ∈ walk_files s top ↔ k ≠ [] ∧ ∃ c b, s !! (top ++ k) = Some (File c b).
Proof.
  unfold walk_files. rewrite list_elem_of_omap. split.
  - intros [[r n] [Hin Hk]]. apply elem_of_map_to_list in Hin.
    rewrite lookup_subtree in Hin. destruct r, n; simplify_eq/=. eauto.
  - intros [Hk (c & b & Hs)]. exists (k, File c b). split.
    + apply elem_of_map_to_list. by rewrite lookup_subtree.
    + by destruct k.
Qed.

Lemma NoDup_walk_files s top : NoDup (walk_files s top).
Proof.
  unfold walk_files.
  pose proof (NoDup_fst_map_to_list (subtree s top)) as Hnd.
  induction (map_to_list (subtree s top)) as [|[r n] l IH]; [constructor|].
  rewrite fmap_cons in Hnd. apply NoDup_cons in Hnd as [Hr Hl].
  assert (Hstep : ∀ o, omap (λ '(r, n), match r, n with
                              | _ :: _, File _ _ => Some r
                              | _, _ => None
                              end) ((r, n) :: l) = o → NoDup o); [|by eauto].
  intros o <-. cbn [omap list_omap].
  destruct r as [|x r], n; auto.
  constructor; [|auto].
  intros [[r' n'] [Hin Hk]]%list_elem_of_omap.
  destruct r', n'; simplify_eq/=.
  apply Hr, list_elem_of_fmap. by eexists (_, _).
Qed.

Lemma chunk_4096_pos : 0 < 4096.
Proof. apply Nat.ltb_lt. by vm_compute. Qed.

Lemma chunk_8192_pos : 0 < 8192.
Proof. apply Nat.ltb_lt. by vm_compute. Qed.

Lemma calculate_file_hash_Ok s p f :
  open_rb s p = Ok f → calculate_file_hash s p = Some (MD5.hexdigest f).
Proof.
  intros Hf. unfold calculate_file_hash. rewrite Hf.
  rewrite read_chunks_all by (apply chunk_4096_pos || lia). done.
Qed.

Lemma calculate_file_hash_Raise s p e :
  open_rb s p = Raise e → calculate_file_hash s p = None.
Proof. intros Hf. unfold calculate_file_hash. by rewrite Hf. Qed.

Lemma lookup_hash_files s top k :
  hash_files s top !! k =
    if decide (k ∈ walk_files s top)
    then Some (calculate_file_hash s (top ++ k)) else None.
Proof.
  unfold hash_files.
  assert (Hgen : ∀ l (m : gmap path digest),
    foldl (λ file_hashes rel_path,
             <[rel_path := calculate_file_hash s (top ++ rel_path)]> file_hashes)
          m l !! k =
    if decide (k ∈ l) then Some (calculate_file_hash s (top ++ k)) else m !! k).
  { induction l as [|x l IH]; intros m; cbn; [done|].
    rewrite IH. destruct (decide (k = x)) as [->|Hne].
    - rewrite lookup_insert_eq, (decide_True (P := x ∈ x :: l)) by left.
      by destruct (decide (x ∈ l)).
    - rewrite lookup_insert_ne by done.
      destruct (decide (k ∈ l)).
      + by rewrite decide_True by by right.
      + rewrite decide_False; [done|]. by intros [?|?]%elem_of_cons. }
  by rewrite Hgen, lookup_empty.
Qed.

Lemma dom_hash_files s top :
  dom (hash_files s top) = list_to_set (walk_files s top).
Proof.
  apply set_eq. intros k. rewrite elem_of_dom, lookup_hash_files, elem_of_list_to_set.
  case_decide; split; try done; intros []; done.
Qed.

Lemma os_path_getsize_open_rb s p f :
  open_rb s p = Ok f → os_path_getsize s p = Ok (length f).
Proof.
  unfold open_rb, os_path_getsize.
  destruct (s !! p) as [[|c []]|]; intros; by simplify_eq.
Qed.

(** Two readable files differ exactly when their bytes do. *)
Lemma files_differ_readable s p1 p2 f1 f2 :
  open_rb s p1 = Ok f1 → open_rb s p2 = Ok f2 →
  files_differ s p1 p2 = bool_decide (f1 ≠ f2).
Proof.
  intros H1 H2. unfold files_differ.
  rewrite (os_path_getsize_open_rb _ _ _ H1), (os_path_getsize_open_rb _ _ _ H2).
  cbn [mbind result_bind]. case_bool_decide as Hlen.
  - symmetry. apply bool_decide_eq_true. by intros ->.
  - rewrite H1, H2. cbn [mbind result_bind mret result_ret].
    apply compare_chunks_all; [apply chunk_8192_pos|lia].
Qed.

(** "Assume different if there's an error" *)
Lemma files_differ_unreadable s p1 p2 :
  (∃ e, open_rb s p1 = Raise e) ∨ (∃ e, open_rb s p2 = Raise e) →
  files_differ s p1 p2 = true.
Proof.
  unfold files_differ, open_rb, os_path_getsize.
  intros [[e He]|[e He]];
    destruct (s !! p1) as [[|c1 []]|], (s !! p2) as [[|c2 []]|];
    simplify_eq/=; try done; by case_bool_decide.
Qed.

Lemma classify_fold (P : path → bool) (l a r m u : list path) :
  foldl (λ d file,
           if P file
           then Differences (added d) (removed d) (modified d ++ [file]) (unchanged d)
           else Differences (added d) (removed d) (modified d) (unchanged d ++ [file]))
        (Differences a r m u) l =
  Differences a r (m ++ filter (λ k, P k = true) l)
                  (u ++ filter (λ k, P k = false) l).
Proof.
  revert m u. induction l as [|k l IH]; intros m u.
  - by rewrite !app_nil_r.
  - cbn [foldl added removed modified unchanged]. rewrite !filter_cons.
    destruct (P k) eqn:HP.
    + rewrite IH, decide_True, decide_False by done. by rewrite <-app_assoc.
    + rewrite IH, decide_False, decide_True by done. by rewrite <-app_assoc.
Qed.

Lemma get_directory_differences_eq s dir1 dir2 :
  let files1 : gset path := list_to_set (walk_files s dir1) in
  let files2 : gset path := list_to_set (walk_files s dir2) in
  get_directory_differences s dir1 dir2 =
    Differences
      (elements (files2 ∖ files1)) (elements (files1 ∖ files2))
      (filter (λ k, files_differ s (dir1 ++ k) (dir2 ++ k) = true)
              (elements (files1 ∩ files2)))
      (filter (λ k, files_differ s (dir1 ++ k) (dir2 ++ k) = false)
              (elements (files1 ∩ files2))).
Proof.
  intros files1 files2. unfold get_directory_differences.
  by rewrite (classify_fold (λ file, files_differ s (dir1 ++ file) (dir2 ++ file))).
Qed.

End walking.

(** ** Unavailable digests and unreadable files *)

(** C10: a path recorded with the unavailable marker ([None]) in both
    manifests is reported unchanged by the hash-based compare, while the
    byte comparator answers "different" for any pair of files of which
    one cannot be read, so the fallback reports such a common file as
    modified. *)
Theorem unavailable_unchanged_unreadable_modified `{Codecs} :
  (∀ (A B : hash_data) (k : path),
     file_hashes A !! k = Some None → file_hashes B !! k = Some None →
     ∃ d, get_hash_based_differences A B = Ok d
          ∧ k ∈ unchanged d ∧ k ∉ modified d)
  ∧ (∀ s (file1_path file2_path : path),
       (∃ e, open_rb s file1_path = Raise e)
       ∨ (∃ e, open_rb s file2_path = Raise e) →
       files_differ s file1_path file2_path = true)
  ∧ (∀ s (dir1 dir2 k : path),
       k ∈ walk_files s dir1 → k ∈ walk_files s dir2 →
       (∃ e, open_rb s (dir1 ++ k) = Raise e)
       ∨ (∃ e, open_rb s (dir2 ++ k) = Raise e) →
       k ∈ modified (get_directory_differences s dir1 dir2)
       ∧ k ∉ unchanged (get_directory_differences s dir1 dir2)).
Proof.
  split_and!.
  - intros A B k HA HB. eexists.
    split; [apply get_hash_based_differences_eq|]. cbn.
    rewrite !list_elem_of_filter, elem_of_elements, elem_of_intersection.
    cbv beta.
    assert (file_hashes A !! k = file_hashes B !! k) as Heq
      by (etrans; [exact HA|symmetry; exact HB]).
    split; [|by intros [Hne _]].
    split; [done|]. split; apply elem_of_dom; eauto.
  - intros s p1 p2. apply files_differ_unreadable.
  - intros s dir1 dir2 k H1 H2 Hun.
    rewrite get_directory_differences_eq. cbn.
    rewrite !list_elem_of_filter, elem_of_elements, elem_of_intersection.
    cbv beta. rewrite !elem_of_list_to_set, (files_differ_unreadable _ _ _ Hun).
    split; [done|]. by intros [].
Qed.

Lemma unavailable_unchanged_unreadable_modified_witness :
  let A := HashData "A" "" {[ ["a.txt"] := None ]} 1 [] in
  (∃ d, get_hash_based_differences A A = Ok d
        ∧ ["a.txt"] ∈ unchanged d ∧ ["a.txt"] ∉ modified d)
  ∧ files_differ (H := ascii_codecs) ∅ ["x"] ["y"] = true.
Proof.
  split.
  - apply (proj1 (unavailable_unchanged_unreadable_modified (H := ascii_codecs)));
      reflexivity.
  - apply (proj1 (proj2 (unavailable_unchanged_unreadable_modified
                           (H := ascii_codecs)))).
    left. exists FileNotFoundError. reflexivity.
Defined.

(** ** The fallback against the hash path *)

(** C3 fails as stated: on [locked_trees] the fallback reports the common
    file [a.txt] as modified, while the hash path run on the manifests of
    the same two trees reports it as unchanged. *)
Lemma fallback_differs_from_hash_on_locked_file :
  let A := HashData "A" "" (hash_files (H := ascii_codecs) locked_trees ["t1"]) 1 ["t1"] in
  let B := HashData "B" "" (hash_files (H := ascii_codecs) locked_trees ["t2"]) 1 ["t2"] in
  get_directory_differences (H := ascii_codecs) locked_trees ["t1"] ["t2"]
    = Differences [] [] [["a.txt"]] []
  ∧ get_hash_based_differences A B = Ok (Differences [] [] [] [["a.txt"]]).
Proof. split; vm_compute; reflexivity. Qed.

(** C3, amended: for a file present in both trees that can be read in
    both and whose two versions do not collide under MD5, the fallback
    and the hash path (run on the manifests of the same trees) agree: the
    file is modified in one iff in the other, and unchanged in one iff in
    the other. *)
Theorem fallback_matches_hash_on_readable_file `{Codecs} s (dir1 dir2 k : path)
    (f1 f2 : list byte) (A B : hash_data) :
  file_hashes A = hash_files s dir1 →
  file_hashes B = hash_files s dir2 →
  k ∈ walk_files s dir1 → k ∈ walk_files s dir2 →
  open_rb s (dir1 ++ k) = Ok f1 → open_rb s (dir2 ++ k) = Ok f2 →
  (MD5.hexdigest f1 = MD5.hexdigest f2 → f1 = f2) →
  ∃ d, get_hash_based_differences A B = Ok d
       ∧ (k ∈ modified (get_directory_differences s dir1 dir2) ↔ k ∈ modified d)
       ∧ (k ∈ unchanged (get_directory_differences s dir1 dir2) ↔ k ∈ unchanged d).
Proof.
  intros HA HB Hk1 Hk2 Hf1 Hf2 Hmd5. eexists.
  split; [apply get_hash_based_differences_eq|].
  rewrite get_directory_differences_eq. cbn [modified unchanged].
  rewrite !list_elem_of_filter, !elem_of_elements, HA, HB, !dom_hash_files.
  cbv beta. rewrite !lookup_hash_files, !decide_True by done.
  rewrite (calculate_file_hash_Ok _ _ _ Hf1), (calculate_file_hash_Ok _ _ _ Hf2).
  rewrite (files_differ_readable _ _ _ _ _ Hf1 Hf2).
  assert (Hiff : f1 = f2 ↔ MD5.hexdigest f1 = MD5.hexdigest f2)
    by (split; [by intros ->|done]).
  split.
  - rewrite bool_decide_eq_true. split; intros [Hne ?]; (split; [|done]).
    + intros Heq. apply Hne, Hmd5. congruence.
    + intros ->. by apply Hne.
  - rewrite bool_decide_eq_false. split; intros [He ?]; (split; [|done]).
    + destruct (decide (f1 = f2)) as [->|]; [done|]. by destruct He.
    + intros Hne. apply Hne, Hmd5. congruence.
Qed.

Lemma fallback_matches_hash_on_readable_file_witness :
  let A := HashData "A" "" (hash_files (H := ascii_codecs) two_trees ["t1"]) 1 ["t1"] in
  let B := HashData "B" "" (hash_files (H := ascii_codecs) two_trees ["t2"]) 1 ["t2"] in
  ∃ d, get_hash_based_differences A B = Ok d
       ∧ (["a.txt"] ∈ modified
            (get_directory_differences (H := ascii_codecs) two_trees ["t1"] ["t2"])
          ↔ ["a.txt"] ∈ modified d)
       ∧ (["a.txt"] ∈ unchanged
            (get_directory_differences (H := ascii_codecs) two_trees ["t1"] ["t2"])
          ↔ ["a.txt"] ∈ unchanged d).
Proof.
  apply (fallback_matches_hash_on_readable_file (H := ascii_codecs) two_trees
           ["t1"] ["t2"] ["a.txt"]
           (list_byte_of_string "x") (list_byte_of_string "y")).
  - reflexivity.
  - reflexivity.
  - apply elem_of_walk_files. split; [done|]. by do 2 eexists.
  - apply elem_of_walk_files. split; [done|]. by do 2 eexists.
  - reflexivity.
  - reflexivity.
  - vm_compute. discriminate.
Defined.

(** ** The line diff and its rendering *)

(** C4 (the code departs from it): for [a.py] changed in one line, the
    diff shown has two lines marked added and two marked removed, because
    the two file headers are marked like changed lines; only the hunk
    header is marked as a header. *)
Theorem one_line_change_marks_file_headers_as_changes :
  let shown :=
    show_modified_file (H := ascii_codecs) ["store"] "BACKUP_A.zip" "BACKUP_B.zip"
      ["a.py"] [] one_line_store in
  let widget := match shown.1 with Ok widget => widget | Raise _ => [] end in
  shown.1 = Ok widget
  ∧ marked_removed widget = ["➖ -- BACKUP_A.zip/a.py"; "➖ " +:+ line "y = 2"]
  ∧ marked_added widget = ["➕ ++ BACKUP_B.zip/a.py"; "➕ " +:+ line "y = 5"]
  ∧ filter (λ l, startswith l "📍" = true) widget = ["📍 @@ -1,3 +1,3 @@"]
  ∧ filter (λ l, startswith l "📄 ---" = true ∨ startswith l "📄 +++" = true)
      widget = [].
Proof. split_and!; vm_compute; reflexivity. Qed.

(** ** Temporary directories *)

(** C8 (the code departs from it): when [file_path] is missing from one
    of the two extracted archives, [get_file_diff] returns [None] from
    inside the [try] block and both temporary directories, with all they
    hold, stay on disk. *)
Theorem get_file_diff_early_return_keeps_temp_dirs :
  let ended :=
    get_file_diff (H := ascii_codecs) ["store"] "BACKUP_A.zip" "BACKUP_B.zip"
      ["b.py"] one_line_store in
  ended.1 = Ok None
  ∧ ended.2 !! ["store"; "temp_diff_source"] = Some Dir
  ∧ ended.2 !! ["store"; "temp_diff_compare"] = Some Dir
  ∧ ended.2 !! ["store"; "temp_diff_source"; "a.py"]
      = Some (text_file (line "x = 1" +:+ line "y = 2" +:+ line "z = 3"))
  ∧ ended.2 !! ["store"; "temp_diff_compare"; "a.py"]
      = Some (text_file (line "x = 1" +:+ line "y = 5" +:+ line "z = 3")).
Proof. split_and!; vm_compute; reflexivity. Qed.

(** ** A file that cannot be read, during a backup *)

Section unreadable.
Context `{Codecs}.

Lemma open_rb_Raise_walked s top k e :
  k ∈ walk_files s top → open_rb s (top ++ k) = Raise e →
  ∃ c, s !! (top ++ k) = Some (File c false).
Proof.
  intros [_ (c & b & Hk)]%elem_of_walk_files. unfold open_rb. rewrite Hk.
  destruct b; intros; simplify_eq; eauto.
Qed.

Lemma zipf_write_Raise s file_path arcname e :
  open_rb s file_path = Raise e → ∃ e', zipf_write s file_path arcname = Raise e'.
Proof.
  intros He. unfold zipf_write. destruct (ZipInfo_from_file file_path) as [[]|e0]; cbn.
  - rewrite He. cbn. eauto.
  - eauto.
Qed.

Lemma zip_write_all_Raise s source_dir files members k e :
  k ∈ files → open_rb s (source_dir ++ k) = Raise e →
  ∃ members' e', zip_write_all s source_dir files members = (members', Some e').
Proof.
  intros Hk He. revert members.
  induction files as [|x files IH]; intros members; [by apply elem_of_nil in Hk|].
  cbn [zip_write_all]. destruct (zipf_write s (source_dir ++ x) x) as [m|e'] eqn:Hx.
  - apply elem_of_cons in Hk as [->|Hk]; [|by apply IH].
    destruct (zipf_write_Raise s (source_dir ++ x) x e He). congruence.
  - eauto.
Qed.

Lemma create_zip_Raise s backup_path source_dir k e :
  k ∈ walk_files s source_dir → open_rb s (source_dir ++ k) = Raise e →
  ∃ e' s', create_zip backup_path source_dir s = (Raise e', s').
Proof.
  intros Hk He. destruct (open_rb_Raise_walked _ _ _ _ Hk He) as [c Hc].
  unfold create_zip. cbv [mbind io_bind].
  destruct (write_file backup_path (Zip []) s) as [[[]|e1] s1] eqn:Hw; [|eauto].
  assert (∃ b, s1 = <[backup_path := File (Zip []) b]> s
               ∧ (s !! backup_path = None ∨ ∃ c0, s !! backup_path = Some (File c0 b)))
    as (b & -> & Hb).
  { unfold write_file in Hw. destruct (s !! backup_path) as [[|c0 b0]|] eqn:Hbp.
    - done.
    - simplify_eq. eauto.
    - destruct (os_path_isdir s (dirname backup_path)); simplify_eq. eauto. }
  set (s1 := <[backup_path := File (Zip []) b]> s).
  assert (Hc1 : ∃ c1, s1 !! (source_dir ++ k) = Some (File c1 false)).
  { unfold s1. destruct (decide (backup_path = source_dir ++ k)) as [->|].
    - rewrite lookup_insert_eq. destruct Hb as [Hb|[c0 Hb]]; simplify_eq. eauto.
    - rewrite lookup_insert_ne by done. eauto. }
  destruct Hc1 as [c1 Hc1].
  assert (Hk1 : k ∈ walk_files s1 source_dir).
  { apply elem_of_walk_files. apply elem_of_walk_files in Hk as [? _]. eauto. }
  assert (He1 : open_rb s1 (source_dir ++ k) = Raise PermissionError)
    by (unfold open_rb; by rewrite Hc1).
  unfold get_disk.
  destruct (zip_write_all_Raise s1 source_dir _ [] k _ Hk1 He1)
    as (members & e' & ->).
  unfold write_file. unfold s1 at 1. rewrite lookup_insert_eq.
  unfold raise. eauto.
Qed.

End unreadable.

(** C6 fails as stated: hashing the locked file yields the unavailable
    marker, yet the backup does not complete; it ends with
    [backup_failed] when the archive writer opens the same file. *)
Lemma locked_file_fails_backup :
  calculate_file_hash (H := ascii_codecs) locked_project ["proj"; "secret.txt"] = None
  ∧ (BackupThread_run (H := ascii_codecs) "01_02_2024_03_04_05"
       "2024-01-02T03:04:05" ["proj"] ["store"] locked_project).1
    = backup_failed PermissionError.
Proof. split; vm_compute; reflexivity. Qed.

(** C6, amended: if reading a file of the source tree fails, the hasher
    returns the unavailable marker instead of raising and the manifest
    being built records the marker for that file, so hashing never aborts
    the backup; the backup as a whole still ends with [backup_failed],
    raised when the archive writer reads that file. *)
Theorem unreadable_file_is_hashed_as_None_and_fails_archive `{Codecs} s
    (timestamp isoformat : string) (source_dir target_dir k : path) (e : exn) :
  k ∈ walk_files s source_dir →
  open_rb s (source_dir ++ k) = Raise e →
  calculate_file_hash s (source_dir ++ k) = None
  ∧ hash_files s source_dir !! k = Some None
  ∧ ∃ e' s', BackupThread_run timestamp isoformat source_dir target_dir s
             = (backup_failed e', s').
Proof.
  intros Hk He. split_and!.
  - by eapply calculate_file_hash_Raise.
  - rewrite lookup_hash_files, decide_True by done.
    by erewrite calculate_file_hash_Raise.
  - unfold BackupThread_run, BackupThread_body. cbv [mbind io_bind get_disk].
    destruct (create_zip_Raise s (target_dir ++ [("BACKUP_" +:+ timestamp) +:+ ".zip"])
                source_dir k e Hk He) as (e' & s' & ->).
    eauto.
Qed.

Lemma unreadable_file_is_hashed_as_None_and_fails_archive_witness :
  calculate_file_hash (H := ascii_codecs) locked_project (["proj"] ++ ["secret.txt"]) = None
  ∧ hash_files (H := ascii_codecs) locked_project ["proj"] !! ["secret.txt"] = Some None
  ∧ ∃ e' s', BackupThread_run (H := ascii_codecs) "01_02_2024_03_04_05"
               "2024-01-02T03:04:05" ["proj"] ["store"] locked_project
             = (backup_failed e', s').
Proof.
  apply (unreadable_file_is_hashed_as_None_and_fails_archive (H := ascii_codecs)
           locked_project _ _ ["proj"] ["store"] ["secret.txt"] PermissionError).
  - apply (bool_decide_unpack _). vm_compute. exact I.
  - reflexivity.
Defined.

(** ** Which paths an operation can change *)

Lemma touches_only_weaken {A} (P Q : path → Prop) (m : io A) :
  (∀ q, P q → Q q) → touches_only P m → touches_only Q m.
Proof. intros HPQ Hm s q Hq. apply Hm. auto. Qed.

Lemma touches_only_ret {A} (P : path → Prop) (a : A) : touches_only P (mret a).
Proof. by intros s q _. Qed.

Lemma touches_only_raise {A} (P : path → Prop) e : touches_only P (raise e : io A).
Proof. by intros s q _. Qed.

Lemma touches_only_get (P : path → Prop) : touches_only P get_disk.
Proof. by intros s q _. Qed.

Lemma touches_only_lift {A} (P : path → Prop) (f : disk → result A) : touches_only P (lift f).
Proof. by intros s q _. Qed.

Lemma touches_only_bind {A B} (P : path → Prop) (m : io A) (f : A → io B) :
  touches_only P m → (∀ a, touches_only P (f a)) → touches_only P (m ≫= f).
Proof.
  intros Hm Hf s q Hq. unfold mbind, io_bind.
  specialize (Hm s q Hq). destruct (m s) as [[a|e] s1]; cbn in *; [|done].
  by rewrite Hf.
Qed.

Lemma touches_only_try_except {A} (P : path → Prop) (m : io A) (h : exn → io A) :
  touches_only P m → (∀ e, touches_only P (h e)) → touches_only P (try_except m h).
Proof.
  intros Hm Hh s q Hq. unfold try_except.
  specialize (Hm s q Hq). destruct (m s) as [[a|e] s1]; cbn in *; [done|].
  by rewrite Hh.
Qed.

Lemma touches_only_when (P : path → Prop) (b : bool) (m : io unit) :
  touches_only P m → touches_only P (when b m).
Proof. destruct b; [done|]. intros _. apply touches_only_ret. Qed.

Lemma touches_only_for_each {A} (P : path → Prop) (l : list A) (body : A → io unit) :
  (∀ x, x ∈ l → touches_only P (body x)) → touches_only P (for_each l body).
Proof.
  induction l as [|x l IH]; intros Hbody; cbn [for_each].
  - apply touches_only_ret.
  - apply touches_only_bind; [apply Hbody; left|].
    intros _. apply IH. intros y Hy. apply Hbody. by right.
Qed.

Lemma touches_only_mkdir p : touches_only (eq p) (os_mkdir p).
Proof.
  intros s q Hq. unfold os_mkdir.
  destruct (s !! p); [done|].
  destruct (os_path_isdir s (dirname p)); cbn.
  - by rewrite lookup_insert_ne.
  - by destruct (os_path_exists s (dirname p)).
Qed.

Lemma reverse_cons_prefix (x : string) (l : list string) :
  reverse l `prefix_of` reverse (x :: l).
Proof. rewrite reverse_cons. by apply prefix_app_r. Qed.

Lemma touches_only_makedirs_rev rname exist_ok :
  touches_only (λ q, q `prefix_of` reverse rname) (makedirs_rev rname exist_ok).
Proof.
  induction rname as [|x rhead IH]; cbn [makedirs_rev].
  - apply touches_only_bind; [apply touches_only_ret|]. intros _.
    apply touches_only_try_except.
    + eapply touches_only_weaken; [|apply touches_only_mkdir]. by intros q <-.
    + intros e. apply touches_only_bind; [apply touches_only_get|].
      intros s. destruct (_ || _); [apply touches_only_raise|apply touches_only_ret].
  - apply touches_only_bind.
    + apply touches_only_bind; [apply touches_only_get|]. intros s.
      apply touches_only_when, touches_only_try_except.
      * eapply touches_only_weaken; [|apply IH].
        intros q Hq. cbv beta in *. etrans; [exact Hq|]. apply reverse_cons_prefix.
      * intros e. case_decide; [apply touches_only_ret|apply touches_only_raise].
    + intros _. apply touches_only_try_except.
      * eapply touches_only_weaken; [|apply touches_only_mkdir]. by intros q <-.
      * intros e. apply touches_only_bind; [apply touches_only_get|].
        intros s. destruct (_ || _); [apply touches_only_raise|apply touches_only_ret].
Qed.

Lemma touches_only_makedirs name exist_ok :
  touches_only (λ q, q `prefix_of` name) (os_makedirs name exist_ok).
Proof.
  unfold os_makedirs.
  eapply touches_only_weaken; [|apply touches_only_makedirs_rev].
  intros q. by rewrite reverse_involutive.
Qed.

Lemma touches_only_rmtree p : touches_only (λ q, p `prefix_of` q) (shutil_rmtree p).
Proof.
  intros s q Hq. unfold shutil_rmtree.
  destruct (s !! p) as [[]|]; cbn; [|done..].
  by apply lookup_remove_tree_other.
Qed.

Lemma touches_only_write_file p c : touches_only (eq p) (write_file p c).
Proof.
  intros s q Hq. unfold write_file.
  destruct (s !! p) as [[]|]; cbn; [done| |].
  - by rewrite lookup_insert_ne.
  - destruct (os_path_isdir s (dirname p)); cbn; [|done].
    by rewrite lookup_insert_ne.
Qed.

Lemma dirname_prefix p : dirname p `prefix_of` p.
Proof. unfold dirname. apply prefix_take. Qed.

Lemma prefix_app_comparable p q r : q `prefix_of` p ++ r → comparable p q.
Proof.
  intros Hq. destruct (prefix_weak_total q p (p ++ r)) as [?|?]; try done.
  - by apply prefix_app_r.
  - by right.
  - by left.
Qed.

Lemma touches_only_extract_member targetdir m :
  touches_only (comparable targetdir) (extract_member targetdir m).
Proof.
  unfold extract_member.
  apply touches_only_bind; [apply touches_only_get|]. intros s.
  apply touches_only_bind.
  - apply touches_only_when.
    eapply touches_only_weaken; [|apply touches_only_makedirs].
    intros q Hq. cbv beta in Hq. apply (prefix_app_comparable _ _ (zname m)).
    etrans; [done|]. apply dirname_prefix.
  - intros _. apply touches_only_bind.
    + eapply touches_only_weaken; [|apply touches_only_write_file].
      intros q <-. left. by apply prefix_app_r.
    + intros _. destruct (zvalid m); [apply touches_only_ret|apply touches_only_raise].
Qed.

Lemma touches_only_extractall members targetdir :
  touches_only (comparable targetdir) (extractall members targetdir).
Proof.
  apply touches_only_for_each. intros m _. apply touches_only_extract_member.
Qed.

Lemma touches_only_restore_extract backup_path :
  touches_only (comparable (restore_temp_dir backup_path))
    (restore_extract backup_path).
Proof.
  unfold restore_extract.
  apply touches_only_bind; [apply touches_only_get|]. intros s.
  apply touches_only_bind.
  - apply touches_only_when.
    eapply touches_only_weaken; [|apply touches_only_rmtree]. by left.
  - intros _. apply touches_only_bind.
    + eapply touches_only_weaken; [|apply touches_only_makedirs]. by right.
    + intros _. apply touches_only_bind; [apply touches_only_lift|].
      intros zipf. apply touches_only_extractall.
Qed.

Lemma incomparable_below p q q' :
  ¬ comparable p q → q `prefix_of` q' → ¬ comparable p q'.
Proof.
  intros Hpq Hq [Hp|Hp]; apply Hpq.
  - destruct (prefix_weak_total p q q') as [?|?]; [done..|by left|by right].
  - right. by etrans.
Qed.

(** ** Restoring when the archive cannot be extracted *)

(** C2 fails as stated: restoring into [proj] from the damaged archive
    in [proj/backups] fails at extraction, yet the destination has
    changed: it now holds the staging directory
    [proj/backups/temp_restore]. *)
Lemma failed_restore_changes_destination_holding_the_store :
  let ended := RestoreThread_run ["proj"; "backups"; "BACKUP_A.zip"] ["proj"]
                 nested_store in
  (restore_extract ["proj"; "backups"; "BACKUP_A.zip"] nested_store).1
    = Raise BadZipFile
  ∧ ended.1 = restore_failed BadZipFile
  ∧ nested_store !! ["proj"; "backups"; "temp_restore"] = None
  ∧ ended.2 !! ["proj"; "backups"; "temp_restore"] = Some Dir.
Proof. split_and!; vm_compute; reflexivity. Qed.

(** C2, amended: for every archive and every destination directory that
    neither holds nor lies in the staging directory
    [<folder of the archive>/temp_restore], if extraction fails the
    restore ends with [restore_failed] and every path at or below the
    destination is as it was. *)
Theorem failed_extraction_leaves_destination s (backup_path source_dir : path)
    (e : exn) (s1 : disk) :
  ¬ comparable (restore_temp_dir backup_path) source_dir →
  restore_extract backup_path s = (Raise e, s1) →
  RestoreThread_run backup_path source_dir s = (restore_failed e, s1)
  ∧ ∀ q, source_dir `prefix_of` q → s1 !! q = s !! q.
Proof.
  intros Hsep Hfail. split.
  - unfold RestoreThread_run, RestoreThread_body.
    unfold mbind at 1, io_bind at 1. by rewrite Hfail.
  - intros q Hq.
    pose proof (touches_only_restore_extract backup_path s q) as Hframe.
    rewrite Hfail in Hframe. apply Hframe. by eapply incomparable_below.
Qed.

Lemma failed_extraction_leaves_destination_witness :
  let ended := RestoreThread_run ["store"; "BACKUP_A.zip"] ["proj"] damaged_store in
  ended = (restore_failed BadZipFile,
           (restore_extract ["store"; "BACKUP_A.zip"] damaged_store).2)
  ∧ ∀ q, ["proj"] `prefix_of` q → ended.2 !! q = damaged_store !! q.
Proof.
  destruct (failed_extraction_leaves_destination damaged_store
              ["store"; "BACKUP_A.zip"] ["proj"] BadZipFile
              (restore_extract ["store"; "BACKUP_A.zip"] damaged_store).2)
    as [Hrun Hsame].
  - intros [[k Hk]|[k Hk]]; vm_compute in Hk; discriminate.
  - assert ((restore_extract ["store"; "BACKUP_A.zip"] damaged_store).1
            = Raise BadZipFile) as Hraise by (vm_compute; reflexivity).
    destruct (restore_extract ["store"; "BACKUP_A.zip"] damaged_store) as [r s1].
    exact (f_equal (λ res : result (), (res, s1)) Hraise).
  - split; [exact Hrun|]. intros q Hq.
    rewrite Hrun. by apply Hsame.
Defined.

(** ** Moving the staged tree into the destination *)

Lemma os_listdir_Dir s p :
  s !! p = Some Dir →
  ∃ items, os_listdir p s = (Ok items, s)
           ∧ NoDup items
           ∧ ∀ item, item ∈ items ↔ is_Some (s !! (p ++ [item])).
Proof.
  intros Hp. unfold os_listdir. rewrite Hp. eexists. split; [done|]. split.
  - pose proof (NoDup_elements (dom (subtree s p))) as Hnd.
    induction (elements (dom (subtree s p))) as [|r l IH]; [constructor|].
    apply NoDup_cons in Hnd as [Hr Hl]. cbn [omap list_omap].
    destruct r as [|x [|y r]]; auto.
    constructor; [|auto].
    intros [r' [Hin Hx]]%list_elem_of_omap.
    destruct r' as [|x' [|y' r']]; simplify_eq/=. done.
  - intros item. rewrite list_elem_of_omap. split.
    + intros [r [Hin Hr]]. destruct r as [|x [|y r]]; simplify_eq/=.
      apply elem_of_elements, elem_of_dom in Hin.
      by rewrite lookup_subtree in Hin.
    + intros Hitem. exists [item]. split; [|done].
      apply elem_of_elements, elem_of_dom. by rewrite lookup_subtree.
Qed.

Lemma dirname_snoc p (x : string) : dirname (p ++ [x]) = p.
Proof.
  unfold dirname. rewrite length_app. cbn.
  replace (length p + 1 - 1) with (length p) by lia.
  by rewrite take_app_length.
Qed.

Lemma basename_snoc p (x : string) : basename (p ++ [x]) = x.
Proof. unfold basename. by rewrite last_snoc. Qed.

Lemma prefix_snoc_inv p q (x : string) :
  p `prefix_of` q ++ [x] → p = q ++ [x] ∨ p `prefix_of` q.
Proof.
  intros [k Hk]. destruct k as [|y k _] using rev_ind.
  - left. by rewrite app_nil_r in Hk.
  - right. rewrite app_assoc in Hk. apply app_inj_tail in Hk as [-> _].
    by apply prefix_app_r.
Qed.

(** Making a directory whose parent is there. *)
Lemma os_makedirs_leaf s p exist_ok :
  s !! p = None → s !! dirname p = Some Dir →
  os_makedirs p exist_ok s = (Ok (), <[p := Dir]> s).
Proof.
  intros Hp Hparent. unfold os_makedirs.
  destruct (reverse p) as [|x rhead] eqn:Hrev.
  { apply (f_equal reverse) in Hrev. rewrite reverse_involutive in Hrev.
    subst p. cbn in *. congruence. }
  assert (p = reverse rhead ++ [x]) as ->.
  { apply (f_equal reverse) in Hrev.
    by rewrite reverse_involutive, reverse_cons in Hrev. }
  rewrite dirname_snoc in Hparent.
  cbn [makedirs_rev]. cbv [mbind io_bind get_disk when os_path_exists].
  rewrite Hparent, reverse_cons. cbn [negb mret io_ret].
  unfold try_except, os_mkdir.
  rewrite Hp, dirname_snoc. unfold os_path_isdir.
  by rewrite Hparent.
Qed.

(** Renaming an entry to a path that is free, under an existing parent. *)
Lemma shutil_move_rename s src dst n :
  s !! src = Some n → s !! dst = None → s !! dirname dst = Some Dir →
  ¬ src `prefix_of` dst →
  shutil_move src dst s = (Ok (), move_tree src dst s).
Proof.
  intros Hsrc Hdst Hparent Hpre. unfold shutil_move.
  cbv [mbind io_bind get_disk]. unfold os_path_isdir at 1 2. rewrite Hdst. cbn.
  unfold try_except, os_rename. rewrite Hsrc. unfold os_path_isdir.
  rewrite Hparent. cbn.
  rewrite bool_decide_false by (intros ->; congruence).
  rewrite bool_decide_false by done. rewrite Hdst. by destruct n.
Qed.

(** Moving an entry into an existing directory where its name is free. *)
Lemma shutil_move_into s src dst (x : string) n :
  s !! (src ++ [x]) = Some n → s !! dst = Some Dir → s !! (dst ++ [x]) = None →
  ¬ (src ++ [x]) `prefix_of` dst → src ≠ dst →
  shutil_move (src ++ [x]) dst s
  = (Ok (), move_tree (src ++ [x]) (dst ++ [x]) s).
Proof.
  intros Hsrc Hdst Hfree Hpre Hne. unfold shutil_move.
  cbv [mbind io_bind get_disk]. unfold os_path_isdir at 1 2. rewrite Hdst.
  rewrite bool_decide_false.
  2:{ intros E. apply Hpre. by rewrite E. }
  cbn. rewrite basename_snoc. unfold os_path_exists. rewrite Hfree.
  cbv [mret io_ret]. unfold try_except, os_rename. rewrite Hsrc.
  unfold os_path_isdir. rewrite dirname_snoc, Hdst. cbn.
  rewrite bool_decide_false by (intros E; by apply app_inj_tail in E as [? _]).
  rewrite bool_decide_false.
  2:{ intros [E|E]%prefix_snoc_inv; [|done].
      by apply app_inj_tail in E as [? _]. }
  rewrite Hfree. by destruct n.
Qed.

Lemma lookup_move_tree_into s src dst r :
  move_tree src dst s !! (dst ++ r) = s !! (src ++ r).
Proof.
  destruct (s !! (src ++ r)) as [n|] eqn:Hn.
  - rewrite <-Hn. apply lookup_move_tree_dst. by rewrite Hn.
  - by apply lookup_move_tree_dst_None.
Qed.

Lemma incomparable_prefixes p q q1 q2 :
  ¬ comparable p q → p `prefix_of` q1 → q `prefix_of` q2 → q1 ≠ q2.
Proof.
  intros Hpq Hp Hq ->. apply Hpq.
  destruct (prefix_weak_total p q q2); [done..|by left|by right].
Qed.

Lemma snoc_prefix_cons p (x y : string) r :
  (p ++ [x]) `prefix_of` (p ++ y :: r) → x = y.
Proof.
  intros [k Hk]. rewrite <-app_assoc in Hk. apply app_inv_head in Hk.
  by simplify_eq/=.
Qed.

(** The loop [for item in extracted_items: shutil.move(...)] of the
    second branch, from a state [s'] in which the items of [l] are still
    staged and their places in the destination are free. *)
Lemma move_items_spec s temp_dir source_dir (l : list string) :
  ¬ comparable temp_dir source_dir →
  NoDup l →
  ∀ s',
    s' !! source_dir = Some Dir →
    (∀ x, x ∈ l → is_Some (s' !! (temp_dir ++ [x]))) →
    (∀ x r, x ∈ l → s' !! (temp_dir ++ x :: r) = s !! (temp_dir ++ x :: r)) →
    (∀ x r, x ∈ l → s' !! (source_dir ++ x :: r) = None) →
    ∃ s'',
      for_each l (λ item, shutil_move (temp_dir ++ [item]) source_dir) s'
        = (Ok (), s'')
      ∧ (∀ x r, x ∈ l → s'' !! (source_dir ++ x :: r) = s !! (temp_dir ++ x :: r))
      ∧ (∀ q, (∀ x, x ∈ l → ¬ (temp_dir ++ [x]) `prefix_of` q
                             ∧ ¬ (source_dir ++ [x]) `prefix_of` q) →
              s'' !! q = s' !! q).
Proof.
  intros Hsep. induction l as [|x l IH]; intros Hnd s' Hdir Hstaged Hsame Hfree.
  - exists s'. split; [done|]. split; [|done]. intros x r Hx. by apply elem_of_nil in Hx.
  - apply NoDup_cons in Hnd as [Hx Hnd].
    destruct (Hstaged x) as [n Hn]; [left|].
    assert (Hne : temp_dir ≠ source_dir) by (intros ->; apply Hsep; by left).
    assert (Hpre : ¬ (temp_dir ++ [x]) `prefix_of` source_dir).
    { intros Hp. apply Hsep. left. etrans; [|done]. by apply prefix_app_r. }
    cbn [for_each]. unfold mbind at 1, io_bind at 1.
    rewrite (shutil_move_into s' temp_dir source_dir x n) by auto using elem_of_list_here
      || (try done; specialize (Hfree x [] ltac:(left)); done).
    set (s1 := move_tree (temp_dir ++ [x]) (source_dir ++ [x]) s').
    assert (Hout : ∀ q, ¬ (temp_dir ++ [x]) `prefix_of` q →
                        ¬ (source_dir ++ [x]) `prefix_of` q → s1 !! q = s' !! q)
      by (intros; by apply lookup_move_tree_other).
    assert (Hother : ∀ y r, y ≠ x →
              s1 !! (temp_dir ++ y :: r) = s' !! (temp_dir ++ y :: r)
              ∧ s1 !! (source_dir ++ y :: r) = s' !! (source_dir ++ y :: r)).
    { intros y r Hy. split; apply Hout.
      - by intros ?%snoc_prefix_cons.
      - intros Hp.
        eapply (incomparable_prefixes temp_dir source_dir); [done| | |done].
        + by apply prefix_app_r.
        + etrans; [|done]. by apply prefix_app_r.
      - intros Hp.
        eapply (incomparable_prefixes temp_dir source_dir); [done| | |done].
        + etrans; [|done]. by apply prefix_app_r.
        + by apply prefix_app_r.
      - by intros ?%snoc_prefix_cons. }
    destruct (IH Hnd s1) as (s2 & Hrun & Hmoved & Hframe).
    + rewrite Hout; [done| |].
      * done.
      * intros [k Hk]. rewrite <-app_assoc in Hk.
        apply (f_equal length) in Hk. rewrite !length_app in Hk. cbn in Hk. lia.
    + intros y Hy. destruct (Hother y [] ltac:(set_solver)) as [-> _].
      apply Hstaged. by right.
    + intros y r Hy. destruct (Hother y r ltac:(set_solver)) as [-> _].
      apply Hsame. by right.
    + intros y r Hy. destruct (Hother y r ltac:(set_solver)) as [_ ->].
      apply Hfree. by right.
    + exists s2. split; [done|]. split.
      * intros y r [->|Hy]%elem_of_cons; [|by apply Hmoved].
        rewrite Hframe.
        2:{ intros z Hz. split.
            - intros Hp.
              eapply (incomparable_prefixes temp_dir source_dir); [done| | |done].
              + etrans; [|done]. by apply prefix_app_r.
              + by apply prefix_app_r.
            - intros ->%snoc_prefix_cons. done. }
        unfold s1.
        replace (source_dir ++ x :: r) with ((source_dir ++ [x]) ++ r)
          by by rewrite <-app_assoc.
        rewrite lookup_move_tree_into, <-app_assoc. apply Hsame. left.
      * intros q Hq. rewrite Hframe by (intros z Hz; apply Hq; by right).
        apply Hout; apply Hq; left.
Qed.

Lemma subtree_empty_lookup s p q :
  subtree s p = ∅ → p `prefix_of` q → s !! q = None.
Proof. intros He [r ->]. by rewrite <-lookup_subtree, He. Qed.

(** ** Deleting a backup *)

Lemma missing_error_FileNotFoundError s p :
  (∀ q c b, q `prefix_of` p → s !! q ≠ Some (File c b)) →
  missing_error s p = FileNotFoundError.
Proof.
  intros Hno. unfold missing_error.
  destruct (existsb _ _) eqn:E; [|done].
  apply existsb_exists in E as (i & _ & Hi). unfold os_path_isfile in Hi.
  destruct (s !! take i p) as [[|c b]|] eqn:Hq; try done.
  destruct (Hno (take i p) c b); [|done].
  exists (drop i p). by rewrite take_drop.
Qed.

Lemma missing_error_NotADirectoryError s p q c b :
  q `prefix_of` p → q ≠ p → s !! q = Some (File c b) →
  missing_error s p = NotADirectoryError.
Proof.
  intros [r ->] Hne Hq. unfold missing_error.
  assert (existsb (λ i, os_path_isfile s (take i (q ++ r))) (seq 0 (length (q ++ r)))
          = true) as ->; [|done].
  apply existsb_exists. exists (length q). split.
  - apply in_seq. rewrite length_app. destruct r; [by rewrite app_nil_r in Hne|].
    cbn. lia.
  - rewrite take_app_length. unfold os_path_isfile. by rewrite Hq.
Qed.

Section deleting.
Context `{Codecs}.

Lemma for_each_Ok {A} (l : list A) (body : A → io unit) s :
  (∀ x, x ∈ l → body x s = (Ok (), s)) → for_each l body s = (Ok (), s).
Proof.
  induction l as [|x l IH]; intros Hl; [done|].
  cbn [for_each]. cbv [mbind io_bind]. rewrite Hl by left.
  apply IH. intros y Hy. apply Hl. by right.
Qed.

(** Rebuilding the cards reads the disk and does not change it; it raises
    only when the target directory set in the window is a regular file. *)
Lemma load_backups_Ok s (self_target_dir : path) :
  (∀ c b, s !! self_target_dir ≠ Some (File c b)) →
  ∃ cards, load_backups self_target_dir s = (Ok cards, s).
Proof.
  intros Hnf. unfold load_backups, load_backups_files.
  cbv [mbind io_bind lift].
  case_bool_decide as Hroot; cbn [orb].
  { eexists. by cbn. }
  unfold os_path_exists.
  destruct (s !! self_target_dir) as [[|c b]|] eqn:Hd; cbn [negb];
    [|by destruct (Hnf c b)|eexists; by cbn].
  destruct (os_listdir_Dir s self_target_dir Hd) as (items & -> & _ & Hitems).
  eexists. rewrite for_each_Ok; [done|].
  intros [file file_path] (file' & [= -> ->] & [_ Hin]%list_elem_of_filter)%list_elem_of_fmap.
  apply Hitems in Hin as [n Hn].
  unfold create_backup_card. cbv [mbind io_bind lift]. unfold os_path_getsize.
  rewrite Hn. by destruct n.
Qed.

Lemma load_backups_Raise s (self_target_dir : path) c b :
  self_target_dir ≠ [] → s !! self_target_dir = Some (File c b) →
  load_backups self_target_dir s = (Raise NotADirectoryError, s).
Proof.
  intros Hne Hd. unfold load_backups, load_backups_files.
  cbv [mbind io_bind lift]. rewrite bool_decide_false by done.
  unfold os_path_exists, os_listdir. by rewrite Hd.
Qed.

(** [os.remove] of the archive comes first and is not guarded. *)
Lemma delete_backup_missing_archive s (self_target_dir backup_path : path) :
  s !! backup_path = None →
  delete_backup true self_target_dir backup_path s
  = (Some (critical "Error" "Failed to delete backup" (missing_error s backup_path)), s).
Proof.
  intros Hb. unfold delete_backup, delete_backup_body.
  cbv [mbind io_bind]. unfold os_remove at 1. by rewrite Hb.
Qed.

(** With the archive in place, the three removals succeed and the cards
    are rebuilt from what is left. *)
Lemma delete_backup_body_removes s (self_target_dir backup_path : path) :
  let hash_file_path := path_replace ".zip" "_hashes.json" backup_path in
  let notes_file_path := path_replace ".zip" "_notes.txt" backup_path in
  let s' := delete notes_file_path (delete hash_file_path (delete backup_path s)) in
  (∃ c b, s !! backup_path = Some (File c b)) →
  s !! hash_file_path ≠ Some Dir → s !! notes_file_path ≠ Some Dir →
  delete_backup_body self_target_dir backup_path s
  = (load_backups self_target_dir;; mret ()) s'.
Proof.
  intros hp np s' (c & b & Hb) Hh Hn.
  unfold delete_backup_body. fold hp np.
  unfold mbind at 1, io_bind at 1. unfold os_remove at 1. rewrite Hb.
  set (s1 := delete backup_path s).
  assert (Hstep : ∀ (s0 : disk) p (k : io unit), s0 !! p ≠ Some Dir →
    (s2 ← get_disk; when (os_path_exists s2 p) (os_remove p);; k) s0
    = k (delete p s0)).
  { intros s0 p k Hp. cbv [mbind io_bind get_disk]. unfold os_path_exists, os_remove.
    destruct (s0 !! p) as [[|c' b']|] eqn:E; [done|by cbn; rewrite E|].
    cbn. by rewrite delete_id. }
  rewrite Hstep.
  2:{ unfold s1. destruct (decide (backup_path = hp)) as [E|].
      - rewrite <-E. by rewrite lookup_delete_eq.
      - by rewrite lookup_delete_ne. }
  rewrite Hstep; [done|].
  unfold s1. destruct (decide (hp = np)) as [E|].
  - rewrite <-E. by rewrite lookup_delete_eq.
  - rewrite lookup_delete_ne by done.
    destruct (decide (backup_path = np)) as [E|].
    + rewrite <-E. by rewrite lookup_delete_eq.
    + by rewrite lookup_delete_ne.
Qed.

Lemma lookup_delete_not_file (s : disk) p q :
  (∀ c b, s !! q ≠ Some (File c b)) → ∀ c b, delete p s !! q ≠ Some (File c b).
Proof.
  intros Hq c b. destruct (decide (p = q)) as [->|].
  - by rewrite lookup_delete_eq.
  - rewrite lookup_delete_ne by done. apply Hq.
Qed.

Lemma delete_backup_Success s (self_target_dir backup_path : path) :
  let hash_file_path := path_replace ".zip" "_hashes.json" backup_path in
  let notes_file_path := path_replace ".zip" "_notes.txt" backup_path in
  (∃ c b, s !! backup_path = Some (File c b)) →
  s !! hash_file_path ≠ Some Dir → s !! notes_file_path ≠ Some Dir →
  (∀ c b, s !! self_target_dir ≠ Some (File c b)) →
  delete_backup true self_target_dir backup_path s
  = (Some (information "Success" "Backup deleted successfully"),
     delete notes_file_path (delete hash_file_path (delete backup_path s))).
Proof.
  intros hp np Hb Hh Hn Ht. unfold delete_backup.
  rewrite delete_backup_body_removes by done. fold hp np.
  destruct (load_backups_Ok (delete np (delete hp (delete backup_path s)))
              self_target_dir) as [cards Hcards].
  { by do 3 apply lookup_delete_not_file. }
  cbv [mbind io_bind]. by rewrite Hcards.
Qed.

End deleting.




(** * Further properties of the comparison code *)

Section comparing.
Context `{Codecs}.

Lemma files_differ_false_iff s p1 p2 :
  files_differ s p1 p2 = false ↔
  ∃ f, open_rb s p1 = Ok f ∧ open_rb s p2 = Ok f.
Proof.
  destruct (open_rb s p1) as [f1|e1] eqn:H1.
  - destruct (open_rb s p2) as [f2|e2] eqn:H2.
    + rewrite (files_differ_readable _ _ _ _ _ H1 H2), bool_decide_eq_false.
      split.
      * intros Hnn. exists f1. split; [done|]. f_equal.
        destruct (decide (f1 = f2)); [done|]. by destruct Hnn.
      * intros (f & ? & ?) Hne. simplify_eq.
    + rewrite files_differ_unreadable by eauto. split; [done|].
      by intros (f & ? & ?).
  - rewrite files_differ_unreadable by eauto. split; [done|].
    by intros (f & ? & ?).
Qed.

(** X1: the byte comparator is exact.  [files_differ] answers "same" for
    exactly the pairs of paths that both open for reading and deliver the
    same bytes; a size mismatch, a differing chunk, and any error on
    either file all give "different". *)
Theorem files_differ_same_iff_same_bytes s (file1_path file2_path : path) :
  files_differ s file1_path file2_path = false ↔
  ∃ f, open_rb s file1_path = Ok f ∧ open_rb s file2_path = Ok f.
Proof. apply files_differ_false_iff. Qed.

Lemma files_differ_comm s p1 p2 : files_differ s p1 p2 = files_differ s p2 p1.
Proof.
  destruct (files_differ s p1 p2) eqn:H12, (files_differ s p2 p1) eqn:H21;
    try done.
  - apply files_differ_false_iff in H21 as (f & ? & ?).
    assert (files_differ s p1 p2 = false)
      by (apply files_differ_false_iff; eauto). congruence.
  - apply files_differ_false_iff in H12 as (f & ? & ?).
    assert (files_differ s p2 p1 = false)
      by (apply files_differ_false_iff; eauto). congruence.
Qed.

(** X2: the comparator does not depend on the order of its arguments. *)
Theorem files_differ_symmetric s (file1_path file2_path : path) :
  files_differ s file1_path file2_path = files_differ s file2_path file1_path.
Proof. apply files_differ_comm. Qed.

(** X3: hashing reads the whole file.  For a file that opens for
    reading, the 4096-byte chunk loop of [calculate_file_hash] feeds every
    byte once and in order, so the digest returned is the MD5 of the
    file's content, whatever its length. *)
Theorem calculate_file_hash_is_md5_of_content s (file_path : path) (f : list byte) :
  open_rb s file_path = Ok f →
  calculate_file_hash s file_path = Some (MD5.hexdigest f).
Proof. apply calculate_file_hash_Ok. Qed.

(** X4: the fallback comparison partitions the files of two trees like
    the hash path partitions keys: [added] are the files only in the
    second tree, [removed] those only in the first, a common file is in
    [modified] iff [files_differ] holds for its two copies and in
    [unchanged] otherwise; no file is listed twice and the four lists
    together hold exactly the files of the two trees. *)
Theorem get_directory_differences_partition s (dir1 dir2 : path) :
  let d := get_directory_differences s dir1 dir2 in
  let common k := k ∈ walk_files s dir1 ∧ k ∈ walk_files s dir2 in
  (∀ k, k ∈ added d ↔ k ∈ walk_files s dir2 ∧ k ∉ walk_files s dir1)
  ∧ (∀ k, k ∈ removed d ↔ k ∈ walk_files s dir1 ∧ k ∉ walk_files s dir2)
  ∧ (∀ k, k ∈ modified d ↔
          common k ∧ files_differ s (dir1 ++ k) (dir2 ++ k) = true)
  ∧ (∀ k, k ∈ unchanged d ↔
          common k ∧ files_differ s (dir1 ++ k) (dir2 ++ k) = false)
  ∧ NoDup (added d ++ removed d ++ modified d ++ unchanged d)
  ∧ (∀ k, k ∈ added d ++ removed d ++ modified d ++ unchanged d ↔
          k ∈ walk_files s dir1 ∨ k ∈ walk_files s dir2).
Proof.
  intros d common. unfold d, common. rewrite get_directory_differences_eq.
  cbn [added removed modified unchanged].
  set (F1 := list_to_set (walk_files s dir1) : gset path).
  set (F2 := list_to_set (walk_files s dir2) : gset path).
  assert (H1 : ∀ k, k ∈ F1 ↔ k ∈ walk_files s dir1)
    by (intros; apply elem_of_list_to_set).
  assert (H2 : ∀ k, k ∈ F2 ↔ k ∈ walk_files s dir2)
    by (intros; apply elem_of_list_to_set).
  assert (Ha : ∀ k, k ∈ elements (F2 ∖ F1) ↔
                    k ∈ walk_files s dir2 ∧ k ∉ walk_files s dir1)
    by (intros k; by rewrite elem_of_elements, elem_of_difference, H1, H2).
  assert (Hr : ∀ k, k ∈ elements (F1 ∖ F2) ↔
                    k ∈ walk_files s dir1 ∧ k ∉ walk_files s dir2)
    by (intros k; by rewrite elem_of_elements, elem_of_difference, H1, H2).
  assert (Hm : ∀ k, k ∈ filter (λ k, files_differ s (dir1 ++ k) (dir2 ++ k) = true)
                          (elements (F1 ∩ F2)) ↔
                    (k ∈ walk_files s dir1 ∧ k ∈ walk_files s dir2)
                    ∧ files_differ s (dir1 ++ k) (dir2 ++ k) = true).
  { intros k. rewrite list_elem_of_filter, elem_of_elements, elem_of_intersection.
    rewrite H1, H2. tauto. }
  assert (Hu : ∀ k, k ∈ filter (λ k, files_differ s (dir1 ++ k) (dir2 ++ k) = false)
                          (elements (F1 ∩ F2)) ↔
                    (k ∈ walk_files s dir1 ∧ k ∈ walk_files s dir2)
                    ∧ files_differ s (dir1 ++ k) (dir2 ++ k) = false).
  { intros k. rewrite list_elem_of_filter, elem_of_elements, elem_of_intersection.
    rewrite H1, H2. tauto. }
  split_and!; try done.
  - rewrite !NoDup_app. split_and!.
    + apply NoDup_elements.
    + intros k. rewrite !elem_of_app, Ha, Hr, Hm, Hu. tauto.
    + apply NoDup_elements.
    + intros k. rewrite !elem_of_app, Hr, Hm, Hu. tauto.
    + apply NoDup_filter, NoDup_elements.
    + intros k. rewrite Hm, Hu. intros [_ ->] [_ ?]. done.
    + apply NoDup_filter, NoDup_elements.
  - intros k. rewrite !elem_of_app, Ha, Hr, Hm, Hu.
    destruct (files_differ s (dir1 ++ k) (dir2 ++ k)),
      (decide (k ∈ walk_files s dir1)), (decide (k ∈ walk_files s dir2));
      intuition congruence.
Qed.

(** X5: comparing the trees the other way round swaps [added] with
    [removed] and keeps the same modified and the same unchanged files. *)
Theorem get_directory_differences_swap s (dir1 dir2 : path) :
  let d12 := get_directory_differences s dir1 dir2 in
  let d21 := get_directory_differences s dir2 dir1 in
  added d12 = removed d21
  ∧ removed d12 = added d21
  ∧ modified d12 ≡ₚ modified d21
  ∧ unchanged d12 ≡ₚ unchanged d21.
Proof.
  intros d12 d21. unfold d12, d21. rewrite !get_directory_differences_eq.
  cbn [added removed modified unchanged].
  set (F1 := list_to_set (walk_files s dir1) : gset path).
  set (F2 := list_to_set (walk_files s dir2) : gset path).
  split_and!; try done.
  - apply NoDup_Permutation; [apply NoDup_filter, NoDup_elements..|].
    intros k. rewrite !list_elem_of_filter, !elem_of_elements.
    rewrite (files_differ_comm s (dir2 ++ k)). set_solver.
  - apply NoDup_Permutation; [apply NoDup_filter, NoDup_elements..|].
    intros k. rewrite !list_elem_of_filter, !elem_of_elements.
    rewrite (files_differ_comm s (dir2 ++ k)). set_solver.
Qed.

End comparing.

Lemma calculate_file_hash_is_md5_of_content_witness :
  calculate_file_hash (H := ascii_codecs) two_trees ["t1"; "a.txt"]
  = Some "9dd4e461268c8034f5c8564e155c67a6".
Proof.
  apply (calculate_file_hash_is_md5_of_content (H := ascii_codecs) two_trees
           ["t1"; "a.txt"] (list_byte_of_string "x")).
  vm_compute. reflexivity.
Defined.

(** X6: the hash-based compare reports the same modified and the same
    unchanged files whichever manifest comes first. *)
Theorem get_hash_based_differences_swap_common (A B : hash_data) :
  ∃ dAB dBA : differences,
    get_hash_based_differences A B = Ok dAB
    ∧ get_hash_based_differences B A = Ok dBA
    ∧ modified dAB ≡ₚ modified dBA
    ∧ unchanged dAB ≡ₚ unchanged dBA.
Proof.
  do 2 eexists.
  split; [apply get_hash_based_differences_eq|].
  split; [apply get_hash_based_differences_eq|].
  cbn [modified unchanged].
  split; (apply NoDup_Permutation; [apply NoDup_filter, NoDup_elements..|]);
    intros k; rewrite !list_elem_of_filter, !elem_of_elements,
                !elem_of_intersection; cbv beta; intuition congruence.
Qed.

(** X7: two manifests with the same [file_hashes] compare as all
    unchanged: nothing is added, removed or modified, and every key is
    listed as unchanged, whatever the other fields (name, creation time,
    source directory) are. *)
Theorem get_hash_based_differences_same_hashes (A B : hash_data) :
  file_hashes A = file_hashes B →
  get_hash_based_differences A B
  = Ok (Differences [] [] [] (elements (dom (file_hashes A)))).
Proof.
  intros Heq. rewrite get_hash_based_differences_eq, <-Heq.
  rewrite difference_diag_L, elements_empty.
  replace (dom (file_hashes A) ∩ dom (file_hashes A)) with (dom (file_hashes A))
    by set_solver.
  f_equal. f_equal.
  - induction (elements (dom (file_hashes A))) as [|k l IH]; [done|].
    rewrite filter_cons, decide_False by (by intros Hn; apply Hn). done.
  - induction (elements (dom (file_hashes A))) as [|k l IH]; [done|].
    rewrite filter_cons, decide_True by done. by f_equal.
Qed.

Lemma get_hash_based_differences_same_hashes_witness :
  let A := HashData "BACKUP_1" "t1" {[ ["a.txt"] := Some "9dd4" ]} 1 ["proj"] in
  let B := HashData "BACKUP_2" "t2" {[ ["a.txt"] := Some "9dd4" ]} 1 ["proj"] in
  get_hash_based_differences A B
  = Ok (Differences [] [] [] (elements (dom (file_hashes A)))).
Proof.
  apply (get_hash_based_differences_same_hashes
           (HashData "BACKUP_1" "t1" {[ ["a.txt"] := Some "9dd4" ]} 1 ["proj"])
           (HashData "BACKUP_2" "t2" {[ ["a.txt"] := Some "9dd4" ]} 1 ["proj"])).
  reflexivity.
Defined.

Lemma filter_ext_in {A} (P Q : A → Prop) `{∀ x, Decision (P x)}
    `{∀ x, Decision (Q x)} (l : list A) :
  (∀ x, x ∈ l → P x ↔ Q x) → filter P l = filter Q l.
Proof.
  induction l as [|x l IH]; intros Hl; [done|].
  rewrite !filter_cons.
  rewrite IH by (intros y Hy; apply Hl; by right).
  destruct (decide (P x)) as [HP|HP].
  - by rewrite decide_True by (apply Hl; [left|done]).
  - rewrite decide_False; [done|]. intros HQ. apply HP, Hl; [left|done].
Qed.

(** X8: when every file common to two trees can be read in both and no
    two versions collide under MD5, the fallback reports what the hash
    path reports on the manifests of the same trees: each of [added],
    [removed], [modified] and [unchanged] holds the same files, each
    once, in both results.  (The order of a list made from a set is not
    fixed, so the lists agree up to a permutation.) *)
Theorem fallback_equals_hash_path `{Codecs} s (dir1 dir2 : path) (A B : hash_data) :
  file_hashes A = hash_files s dir1 →
  file_hashes B = hash_files s dir2 →
  (∀ k, k ∈ walk_files s dir1 → k ∈ walk_files s dir2 →
        ∃ f1 f2, open_rb s (dir1 ++ k) = Ok f1 ∧ open_rb s (dir2 ++ k) = Ok f2
                 ∧ (MD5.hexdigest f1 = MD5.hexdigest f2 → f1 = f2)) →
  ∃ d : differences,
    get_hash_based_differences A B = Ok d
    ∧ added d ≡ₚ added (get_directory_differences s dir1 dir2)
    ∧ removed d ≡ₚ removed (get_directory_differences s dir1 dir2)
    ∧ modified d ≡ₚ modified (get_directory_differences s dir1 dir2)
    ∧ unchanged d ≡ₚ unchanged (get_directory_differences s dir1 dir2).
Proof.
  intros HA HB Hread.
  rewrite get_hash_based_differences_eq, get_directory_differences_eq.
  rewrite HA, HB, !dom_hash_files.
  set (F1 := list_to_set (walk_files s dir1) : gset path).
  set (F2 := list_to_set (walk_files s dir2) : gset path).
  assert (Hk : ∀ k, k ∈ elements (F1 ∩ F2) →
    (hash_files s dir1 !! k ≠ hash_files s dir2 !! k
     ↔ files_differ s (dir1 ++ k) (dir2 ++ k) = true)
    ∧ (hash_files s dir1 !! k = hash_files s dir2 !! k
       ↔ files_differ s (dir1 ++ k) (dir2 ++ k) = false)).
  { intros k [Hk1 Hk2]%elem_of_elements%elem_of_intersection.
    apply elem_of_list_to_set in Hk1, Hk2.
    destruct (Hread k Hk1 Hk2) as (f1 & f2 & Hf1 & Hf2 & Hmd5).
    rewrite !lookup_hash_files, !decide_True by done.
    rewrite (calculate_file_hash_Ok _ _ _ Hf1), (calculate_file_hash_Ok _ _ _ Hf2).
    rewrite (files_differ_readable _ _ _ _ _ Hf1 Hf2).
    rewrite bool_decide_eq_true, bool_decide_eq_false. split; split.
    - intros Hne ->. by apply Hne.
    - intros Hne Heq. apply Hne, Hmd5. congruence.
    - intros Heq. intros Hne. apply Hne, Hmd5. congruence.
    - intros Hnn. destruct (decide (f1 = f2)) as [->|]; [done|]. by destruct Hnn. }
  eexists. split; [done|]. cbn [added removed modified unchanged].
  split_and!; [done|done|..];
    (erewrite filter_ext_in; [done|]; intros k Hin; by apply Hk).
Qed.

Lemma fallback_equals_hash_path_witness :
  let A := HashData "A" "" (hash_files (H := ascii_codecs) two_trees ["t1"]) 1 ["t1"] in
  let B := HashData "B" "" (hash_files (H := ascii_codecs) two_trees ["t2"]) 1 ["t2"] in
  ∃ d : differences,
    get_hash_based_differences A B = Ok d
    ∧ added d ≡ₚ added (get_directory_differences (H := ascii_codecs) two_trees ["t1"] ["t2"])
    ∧ removed d
        ≡ₚ removed (get_directory_differences (H := ascii_codecs) two_trees ["t1"] ["t2"])
    ∧ modified d
        ≡ₚ modified (get_directory_differences (H := ascii_codecs) two_trees ["t1"] ["t2"])
    ∧ unchanged d
        ≡ₚ unchanged (get_directory_differences (H := ascii_codecs) two_trees ["t1"] ["t2"]).
Proof.
  apply (fallback_equals_hash_path (H := ascii_codecs) two_trees ["t1"] ["t2"]).
  - reflexivity.
  - reflexivity.
  - intros k Hk1 _. apply elem_of_walk_files in Hk1 as [_ (c & b & Hk1)].
    assert (k = ["a.txt"]) as ->.
    { apply elem_of_list_to_map_2 in Hk1.
      repeat (apply elem_of_cons in Hk1 as [Hk1|Hk1]; [by simplify_eq/=|]).
      by apply elem_of_nil in Hk1. }
    exists (list_byte_of_string "x"), (list_byte_of_string "y").
    split_and!; [reflexivity..|]. vm_compute. discriminate.
Defined.

(** * Further properties of the diff display *)

Lemma add_diff_to_widget_cons widget line rest :
  add_diff_to_widget widget (line :: rest)
  = add_diff_to_widget (add_diff_to_widget widget [line]) rest.
Proof. done. Qed.

Lemma startswith_prefix_trans (s pre1 pre2 : string) :
  startswith pre1 pre2 = true → startswith s pre1 = true → startswith s pre2 = true.
Proof.
  unfold startswith. revert s pre1.
  induction pre2 as [|c pre2 IH]; intros s pre1; [by destruct s|].
  destruct pre1 as [|c1 pre1]; cbn; [done|].
  destruct (ascii_dec c c1) as [->|]; [|done]. intros H12.
  destruct s as [|c2 s]; cbn; [done|].
  destruct (ascii_dec c1 c2) as [->|]; [|done]. eauto.
Qed.

Lemma startswith_char (l : string) (a : ascii) :
  startswith l (String a EmptyString) = true → ∃ rest : string, l = String a rest.
Proof.
  unfold startswith. destruct l as [|c l]; cbn [String.prefix]; [done|].
  destruct (ascii_dec a c) as [->|]; [eauto|done].
Qed.

Lemma add_diff_to_widget_minus widget (line : string) :
  startswith line "-" = true →
  add_diff_to_widget widget [line] = widget ++ ["➖ " +:+ str_tail line].
Proof.
  intros Hm. destruct (startswith_char _ _ Hm) as [rest ->].
  cbn [add_diff_to_widget foldl]. unfold startswith. cbn [String.prefix str_tail].
  destruct (ascii_dec "+" "-"); [discriminate|].
  destruct (ascii_dec "-" "-"); [|done]. by destruct rest.
Qed.

Lemma add_diff_to_widget_plus widget (line : string) :
  startswith line "+" = true →
  add_diff_to_widget widget [line] = widget ++ ["➕ " +:+ str_tail line].
Proof. intros Hp. cbn [add_diff_to_widget foldl]. by rewrite Hp. Qed.

(** X9: the branch of [add_diff_to_widget] for file headers is never
    taken.  Every line that starts with [---] is rendered like a removed
    line and every line that starts with [+++] like an added line; each
    diff line adds exactly one line to the widget. *)
Theorem add_diff_to_widget_never_marks_file_headers (widget diff_content : list string)
    (line : string) :
  (startswith line "---" = true →
   add_diff_to_widget widget [line] = widget ++ ["➖ " +:+ str_tail line])
  ∧ (startswith line "+++" = true →
     add_diff_to_widget widget [line] = widget ++ ["➕ " +:+ str_tail line])
  ∧ length (add_diff_to_widget widget diff_content)
    = length widget + length diff_content.
Proof.
  split_and!.
  - intros Hl. apply add_diff_to_widget_minus.
    by apply (startswith_prefix_trans line "---" "-").
  - intros Hl. apply add_diff_to_widget_plus.
    by apply (startswith_prefix_trans line "+++" "+").
  - revert widget. induction diff_content as [|l rest IH]; intros widget.
    + cbn. lia.
    + rewrite add_diff_to_widget_cons, IH. cbn [add_diff_to_widget foldl length].
      repeat case_match; rewrite length_app; cbn; lia.
Qed.

Lemma add_diff_to_widget_never_marks_file_headers_witness :
  add_diff_to_widget [] ["--- BACKUP_A.zip/a.py"] = [] ++ ["➖ -- BACKUP_A.zip/a.py"]
  ∧ add_diff_to_widget [] ["+++ BACKUP_B.zip/a.py"] = [] ++ ["➕ ++ BACKUP_B.zip/a.py"].
Proof.
  split.
  - apply (proj1 (add_diff_to_widget_never_marks_file_headers [] []
                    "--- BACKUP_A.zip/a.py")). reflexivity.
  - apply (proj1 (proj2 (add_diff_to_widget_never_marks_file_headers [] []
                           "+++ BACKUP_B.zip/a.py"))). reflexivity.
Defined.

Lemma string_app_empty_r (l : string) : l +:+ "" = l.
Proof.
  induction l as [|c l IH]; [done|].
  change (String c (l +:+ "") = String c l). by rewrite IH.
Qed.

(** X10: whenever two versions of a file give a non-empty unified diff,
    its two file headers reach the widget as a removed line
    [➖ -- <from>] and an added line [➕ ++ <to>], before anything
    else of the diff. *)
Theorem unified_diff_headers_shown_as_changes (widget lines1 lines2 : list string)
    (fromfile tofile : string) :
  Difflib.unified_diff lines1 lines2 fromfile tofile "" ≠ [] →
  ∃ rest,
    Difflib.unified_diff lines1 lines2 fromfile tofile ""
    = ("--- " +:+ fromfile) :: ("+++ " +:+ tofile) :: rest
    ∧ add_diff_to_widget widget
        (Difflib.unified_diff lines1 lines2 fromfile tofile "")
      = add_diff_to_widget
          (widget ++ ["➖ -- " +:+ fromfile; "➕ ++ " +:+ tofile]) rest.
Proof.
  unfold Difflib.unified_diff.
  destruct (Difflib.get_grouped_opcodes lines1 lines2 3) as [|g gs]; [done|].
  intros _. eexists. split.
  - f_equal; [|f_equal]; by rewrite ?string_app_empty_r.
  - rewrite !string_app_empty_r.
    rewrite add_diff_to_widget_cons, add_diff_to_widget_minus by reflexivity.
    rewrite add_diff_to_widget_cons, add_diff_to_widget_plus by reflexivity.
    by rewrite <-app_assoc.
Qed.

Lemma unified_diff_headers_shown_as_changes_witness :
  ∃ rest,
    Difflib.unified_diff [line "y = 2"] [line "y = 5"] "A/a.py" "B/a.py" ""
    = ("--- " +:+ "A/a.py") :: ("+++ " +:+ "B/a.py") :: rest
    ∧ add_diff_to_widget []
        (Difflib.unified_diff [line "y = 2"] [line "y = 5"] "A/a.py" "B/a.py" "")
      = add_diff_to_widget ([] ++ ["➖ -- " +:+ "A/a.py"; "➕ ++ " +:+ "B/a.py"]) rest.
Proof.
  apply (unified_diff_headers_shown_as_changes [] [line "y = 2"] [line "y = 5"]
           "A/a.py" "B/a.py").
  vm_compute. discriminate.
Defined.

(** * Further properties of [CompareThread.run] *)

(** X11: with both hash files present and readable as JSON, the compare
    is done on the manifests alone: it completes with the result of
    [get_hash_based_differences], extracts nothing and leaves the disk
    exactly as it was. *)
Theorem CompareThread_run_on_manifests `{Codecs} s (source_backup compare_backup : string)
    (target_dir : path) (source_hashes compare_hashes : hash_data) :
  s !! path_replace ".zip" "_hashes.json" (target_dir ++ [source_backup])
    = Some (File (Json source_hashes) true) →
  s !! path_replace ".zip" "_hashes.json" (target_dir ++ [compare_backup])
    = Some (File (Json compare_hashes) true) →
  ∃ d, get_hash_based_differences source_hashes compare_hashes = Ok d
       ∧ CompareThread_run source_backup compare_backup target_dir s
         = (compare_completed d source_backup compare_backup, s).
Proof.
  intros H1 H2.
  destruct (get_hash_based_differences source_hashes compare_hashes) as [d|e] eqn:Hd.
  2:{ by rewrite get_hash_based_differences_eq in Hd. }
  exists d. split; [done|].
  unfold CompareThread_run, CompareThread_body.
  cbv [mbind io_bind get_disk lift]. unfold os_path_exists, json_load.
  rewrite !H1, !H2. cbn [negb orb]. rewrite !H1, !H2.
  cbv [manifest_of result_bind]. by rewrite Hd.
Qed.

Lemma CompareThread_run_on_manifests_witness :
  ∃ d, get_hash_based_differences
         (HashData "BACKUP_A" "ta"
            {[ ["a.txt"] := Some "9dd4e461268c8034f5c8564e155c67a6";
               ["b.txt"] := Some "fbade9e36a3f36d3d676c1b808451dd7" ]} 2 ["proj"])
         (HashData "BACKUP_B" "tb"
            {[ ["a.txt"] := Some "415290769594460e2e485922904f345d";
               ["b.txt"] := Some "fbade9e36a3f36d3d676c1b808451dd7" ]} 2 ["proj"])
       = Ok d
       ∧ CompareThread_run (H := ascii_codecs) "BACKUP_A.zip" "BACKUP_B.zip" ["store"]
           store_with_manifests
         = (compare_completed d "BACKUP_A.zip" "BACKUP_B.zip", store_with_manifests).
Proof.
  apply (CompareThread_run_on_manifests (H := ascii_codecs) store_with_manifests
           "BACKUP_A.zip" "BACKUP_B.zip" ["store"]); vm_compute; reflexivity.
Defined.

(** X12: a hash file that is present but does not parse as JSON makes
    the compare fail with [ValueError]; the fallback is taken only when a
    hash file is missing, never when it is damaged.  A hash file that
    parses but is not a manifest makes the compare fail as well, with the
    exception of the read of ['file_hashes'], once the other hash file
    has loaded.  The disk is left as it was. *)
Theorem CompareThread_run_damaged_manifest `{Codecs} s
    (source_backup compare_backup : string) (target_dir : path)
    (data : list byte) :
  let compare_hash_path :=
    path_replace ".zip" "_hashes.json" (target_dir ++ [compare_backup]) in
  s !! path_replace ".zip" "_hashes.json" (target_dir ++ [source_backup])
    = Some (File (Bytes data) true) →
  is_Some (s !! compare_hash_path) →
  (json_loads data = None →
   CompareThread_run source_backup compare_backup target_dir s
   = (compare_failed ValueError, s))
  ∧ (∀ e d v, json_loads data = Some (OtherJson e d) →
       json_load s compare_hash_path = Ok v →
       CompareThread_run source_backup compare_backup target_dir s
       = (compare_failed e, s)).
Proof.
  intros cp H1 [n2 H2].
  unfold CompareThread_run, CompareThread_body. fold cp.
  cbv [mbind io_bind get_disk lift]. unfold os_path_exists.
  rewrite !H1, !H2. cbn [negb orb]. split.
  - intros E. unfold json_load at 1. by rewrite H1, E.
  - intros e d v E ->. unfold json_load. by rewrite H1, E.
Qed.

Lemma CompareThread_run_damaged_manifest_witness :
  CompareThread_run (H := ascii_codecs) "BACKUP_A.zip" "BACKUP_B.zip" ["store"]
    store_with_damaged_manifest
  = (compare_failed ValueError, store_with_damaged_manifest).
Proof.
  apply (CompareThread_run_damaged_manifest (H := ascii_codecs)
           store_with_damaged_manifest "BACKUP_A.zip" "BACKUP_B.zip" ["store"]
           (list_byte_of_string "{ not json")).
  - vm_compute. reflexivity.
  - eexists. vm_compute. reflexivity.
  - vm_compute. reflexivity.
Defined.

(** * Further properties of [BackupThread.run] *)

(** ** The names of the sidecar files *)

Lemma string_app_cons (c : ascii) (l1 l2 : string) :
  String c l1 +:+ l2 = String c (l1 +:+ l2).
Proof. done. Qed.

Lemma prefix_dot_false (c : ascii) (l : string) :
  c ≠ "."%char → String.prefix ".zip" (String c l) = false.
Proof.
  intros Hc. cbn [String.prefix].
  destruct (ascii_dec "." c) as [E|]; [by destruct Hc|done].
Qed.

Lemma str_replace_zip_suffix (new name : string) :
  "."%char ∉ list_ascii_of_string name →
  str_replace ".zip" new (name +:+ ".zip") = name +:+ new.
Proof.
  unfold str_replace. induction name as [|c name IH]; intros Hdot.
  - change (new +:+ "" = new). apply string_app_empty_r.
  - cbn [list_ascii_of_string] in Hdot. apply not_elem_of_cons in Hdot as [Hc Hdot].
    rewrite !string_app_cons. cbn [replace_from].
    rewrite prefix_dot_false by done. by rewrite IH.
Qed.

Lemma sidecar_path_sibling (target_dir : path) (name suffix : string) :
  "."%char ∉ list_ascii_of_string name →
  path_replace ".zip" suffix target_dir = target_dir →
  path_replace ".zip" suffix (target_dir ++ [name +:+ ".zip"])
  = target_dir ++ [name +:+ suffix].
Proof.
  intros Hdot Hdir. unfold path_replace in *.
  rewrite fmap_app, Hdir. cbn. by rewrite str_replace_zip_suffix.
Qed.

(** X13: the sidecars of a backup are its siblings.  For an archive
    [<name>.zip] whose name holds no dot, in a directory whose path is
    not itself changed by the replacement, [replace('.zip', suffix)]
    yields [<name><suffix>] in the same directory. *)
Theorem sidecar_path_is_sibling (target_dir : path) (name suffix : string) :
  "."%char ∉ list_ascii_of_string name →
  path_replace ".zip" suffix target_dir = target_dir →
  path_replace ".zip" suffix (target_dir ++ [name +:+ ".zip"])
  = target_dir ++ [name +:+ suffix].
Proof. apply sidecar_path_sibling. Qed.

Lemma sidecar_path_is_sibling_witness :
  path_replace ".zip" "_hashes.json" (["home"; "store"] ++ ["BACKUP_01_02_2024_03_04_05" +:+ ".zip"])
  = ["home"; "store"] ++ ["BACKUP_01_02_2024_03_04_05" +:+ "_hashes.json"].
Proof.
  apply (sidecar_path_is_sibling ["home"; "store"] "BACKUP_01_02_2024_03_04_05"
           "_hashes.json").
  - apply (bool_decide_unpack _). vm_compute. exact I.
  - vm_compute. reflexivity.
Defined.

(** ** A backup that completes *)

Section completing.
Context `{Codecs}.

Lemma zipf_write_Ok s source_dir (k : path) (f : list byte) :
  open_rb s (source_dir ++ k) = Ok f → archivable source_dir k →
  zipf_write s (source_dir ++ k) k = Ok (ZMember k f true).
Proof.
  intros Hf [Hinfo Hheader]. unfold zipf_write.
  rewrite Hinfo. cbn. rewrite Hf. cbn. by rewrite Hheader.
Qed.

Lemma zip_write_all_Ok s source_dir (files : list path) (members : list zmember) :
  (∀ k, k ∈ files → ∃ f, open_rb s (source_dir ++ k) = Ok f) →
  (∀ k, k ∈ files → archivable source_dir k) →
  ∃ written,
    zip_write_all s source_dir files members = (members ++ written, None)
    ∧ Forall2 (member_of s source_dir) files written.
Proof.
  revert members. induction files as [|k files IH]; intros members Hread Harch.
  - exists []. by rewrite app_nil_r.
  - destruct (Hread k) as [f Hf]; [left|].
    destruct (IH (members ++ [ZMember k f true])) as (written & Hw & Hall).
    { intros k' Hk'. apply Hread. by right. }
    { intros k' Hk'. apply Harch. by right. }
    exists (ZMember k f true :: written). cbn [zip_write_all].
    rewrite (zipf_write_Ok s source_dir k f), Hw by (done || apply Harch; left).
    split; [by rewrite <-app_assoc|]. by constructor.
Qed.

Lemma subtree_insert_outside s (source_dir p : path) n :
  ¬ source_dir `prefix_of` p → subtree (<[p := n]> s) source_dir = subtree s source_dir.
Proof.
  intros Hp. apply map_eq. intros k. rewrite !lookup_subtree.
  apply lookup_insert_ne. intros ->. apply Hp. by apply prefix_app_r.
Qed.

Lemma walk_files_insert_outside s (source_dir p : path) n :
  ¬ source_dir `prefix_of` p →
  walk_files (<[p := n]> s) source_dir = walk_files s source_dir.
Proof. intros Hp. unfold walk_files. by rewrite subtree_insert_outside. Qed.

Lemma open_rb_Ok_is_Some s (q : path) (f : list byte) :
  open_rb s q = Ok f → is_Some (s !! q).
Proof. unfold open_rb. by destruct (s !! q). Qed.

Lemma open_rb_insert_ne s (p q : path) n :
  p ≠ q → is_Some (s !! q) → open_rb (<[p := n]> s) q = open_rb s q.
Proof.
  intros Hne [n' Hq]. unfold open_rb. by rewrite lookup_insert_ne, Hq.
Qed.

Lemma member_of_insert_outside s (source_dir p : path) n files written :
  ¬ source_dir `prefix_of` p →
  Forall2 (member_of (<[p := n]> s) source_dir) files written →
  Forall2 (member_of s source_dir) files written.
Proof.
  intros Hp Hall. eapply Forall2_impl; [exact Hall|].
  intros k m (? & ? & Hm). split_and!; [done..|].
  assert (Hne : p ≠ source_dir ++ k).
  { intros ->. apply Hp. by apply prefix_app_r. }
  rewrite open_rb_insert_ne in Hm; [done..|].
  apply open_rb_Ok_is_Some in Hm. by rewrite lookup_insert_ne in Hm.
Qed.

Lemma size_hash_files s source_dir :
  size (hash_files s source_dir) = length (walk_files s source_dir).
Proof.
  rewrite <-size_dom, dom_hash_files, size_list_to_set; [done|].
  apply NoDup_walk_files.
Qed.

Lemma create_zip_Ok s (target_dir source_dir : path) (file : string) :
  s !! target_dir = Some Dir →
  s !! (target_dir ++ [file]) = None →
  ¬ source_dir `prefix_of` target_dir ++ [file] →
  (∀ k, k ∈ walk_files s source_dir → ∃ f, open_rb s (source_dir ++ k) = Ok f) →
  (∀ k, k ∈ walk_files s source_dir → archivable source_dir k) →
  ∃ members,
    create_zip (target_dir ++ [file]) source_dir s
    = (Ok (), <[target_dir ++ [file] := File (Zip members) true]> s)
    ∧ Forall2 (member_of s source_dir) (walk_files s source_dir) members.
Proof.
  intros Hdir Hfree Hout Hread Harch.
  set (backup_path := target_dir ++ [file]) in *.
  set (s1 := <[backup_path := File (Zip []) true]> s).
  destruct (zip_write_all_Ok s1 source_dir (walk_files s1 source_dir) [])
    as (members & Hw & Hall).
  { unfold s1. rewrite walk_files_insert_outside by done. intros k Hk.
    destruct (Hread k Hk) as [f Hf].
    rewrite open_rb_insert_ne; [by eauto| |by eapply open_rb_Ok_is_Some].
    intros E. apply Hout. rewrite E. by apply prefix_app_r. }
  { unfold s1. by rewrite walk_files_insert_outside. }
  exists members. split.
  - unfold create_zip. cbv [mbind io_bind get_disk].
    unfold write_file at 1. rewrite Hfree. unfold os_path_isdir, backup_path.
    rewrite dirname_snoc, Hdir. fold backup_path s1. rewrite Hw.
    unfold write_file, s1. rewrite lookup_insert_eq. cbn.
    by rewrite insert_insert_eq.
  - unfold s1 in Hall. rewrite walk_files_insert_outside in Hall by done.
    by eapply member_of_insert_outside.
Qed.

(** The body of [BackupThread.run] on a readable tree. *)
Lemma BackupThread_body_Ok s (timestamp isoformat : string)
    (source_dir target_dir : path) :
  let backup_name := "BACKUP_" +:+ timestamp in
  let backup_path := target_dir ++ [backup_name +:+ ".zip"] in
  let hash_file_path := target_dir ++ [backup_name +:+ "_hashes.json"] in
  let hash_data := HashData backup_name isoformat (hash_files s source_dir)
                     (size (hash_files s source_dir)) source_dir in
  "."%char ∉ list_ascii_of_string timestamp →
  path_replace ".zip" "_hashes.json" target_dir = target_dir →
  s !! target_dir = Some Dir →
  s !! backup_path = None →
  s !! hash_file_path = None →
  ¬ source_dir `prefix_of` backup_path →
  (∀ k, k ∈ walk_files s source_dir → ∃ f, open_rb s (source_dir ++ k) = Ok f) →
  (∀ k, k ∈ walk_files s source_dir → archivable source_dir k) →
  ∃ members,
    BackupThread_body timestamp isoformat source_dir target_dir s
    = (Ok backup_path,
       <[hash_file_path := File (Json hash_data) true]>
         (<[backup_path := File (Zip members) true]> s))
    ∧ Forall2 (member_of s source_dir) (walk_files s source_dir) members.
Proof.
  intros backup_name backup_path hash_file_path hash_data
    Hdot Htarget Hdir Hfree Hfree' Hout Hread Harch.
  destruct (create_zip_Ok s target_dir source_dir (backup_name +:+ ".zip"))
    as (members & Hzip & Hall); [done..|].
  fold backup_path in Hzip.
  exists members. split; [|done].
  unfold BackupThread_body. cbv [mbind io_bind get_disk].
  fold backup_name backup_path. rewrite Hzip.
  assert (path_replace ".zip" "_hashes.json" backup_path = hash_file_path) as ->.
  { apply sidecar_path_sibling; [|done]. unfold backup_name.
    change (list_ascii_of_string ("BACKUP_" +:+ timestamp))
      with (list_ascii_of_string "BACKUP_" ++ list_ascii_of_string timestamp).
    rewrite not_elem_of_app. split; [|done].
    apply (bool_decide_unpack _). by vm_compute. }
  assert (Hne : backup_path ≠ hash_file_path).
  { unfold backup_path, hash_file_path. intros E.
    apply app_inv_head in E. injection E as E.
    apply String.app_inj in E. discriminate. }
  unfold write_file. rewrite lookup_insert_ne, Hfree' by done.
  unfold os_path_isdir, hash_file_path. rewrite dirname_snoc.
  rewrite lookup_insert_ne, Hdir.
  2:{ unfold backup_path. intros E. apply (f_equal length) in E.
      rewrite length_app in E. cbn in E. lia. }
  done.
Qed.


End completing.

Lemma small_project_files k :
  k ∈ walk_files small_project ["proj"] → k = ["a.txt"] ∨ k = ["sub"; "b.txt"].
Proof.
  intros [_ (c & b & Hk)]%elem_of_walk_files.
  apply elem_of_list_to_map_2 in Hk.
  repeat (apply elem_of_cons in Hk as [Hk|Hk]; [simplify_eq/=; auto|]).
  by apply elem_of_nil in Hk.
Qed.


(** ** What the window finds after a backup *)

Lemma list_ascii_of_string_app (l1 l2 : string) :
  list_ascii_of_string (l1 +:+ l2) = list_ascii_of_string l1 ++ list_ascii_of_string l2.
Proof.
  induction l1 as [|c l1 IH]; [done|].
  rewrite string_app_cons. cbn [list_ascii_of_string]. by rewrite IH.
Qed.

Lemma backup_name_no_dot (timestamp : string) :
  "."%char ∉ list_ascii_of_string timestamp →
  "."%char ∉ list_ascii_of_string ("BACKUP_" +:+ timestamp).
Proof.
  intros Hdot. rewrite list_ascii_of_string_app, not_elem_of_app. split; [|done].
  apply (bool_decide_unpack _). by vm_compute.
Qed.

Lemma endswith_app (name suffix : string) : endswith (name +:+ suffix) suffix = true.
Proof.
  unfold endswith. apply bool_decide_eq_true.
  rewrite list_ascii_of_string_app. by apply suffix_app_r.
Qed.

Lemma startswith_app (pre rest : string) : startswith (pre +:+ rest) pre = true.
Proof.
  unfold startswith. induction pre as [|c pre IH]; [by destruct rest|].
  rewrite string_app_cons. cbn [String.prefix].
  by destruct (ascii_dec c c).
Qed.

Lemma manifest_name_not_zip (name : string) :
  endswith (name +:+ "_hashes.json") ".zip" = false.
Proof.
  unfold endswith. apply bool_decide_eq_false. intros [k Hk].
  rewrite list_ascii_of_string_app in Hk. apply (f_equal last) in Hk.
  rewrite !last_app in Hk. cbn in Hk. discriminate.
Qed.

Lemma snoc_ne_self (target_dir : path) (x : string) : target_dir ≠ target_dir ++ [x].
Proof.
  intros E. apply (f_equal length) in E. rewrite length_app in E. cbn in E. lia.
Qed.

Section after_backup.
Context `{Codecs}.

Lemma touches_only_create_zip (backup_path source_dir : path) :
  touches_only (eq backup_path) (create_zip backup_path source_dir).
Proof.
  unfold create_zip.
  apply touches_only_bind; [apply touches_only_write_file|]. intros _.
  apply touches_only_bind; [apply touches_only_get|]. intros s.
  destruct (zip_write_all s source_dir (walk_files s source_dir) []) as [members err].
  apply touches_only_bind; [apply touches_only_write_file|]. intros _.
  destruct err; [apply touches_only_raise|apply touches_only_ret].
Qed.

(** Whenever the body of [BackupThread.run] returns, the manifest holds
    the dict built from the source tree; it can be read back unless an
    unreadable file already had its name. *)
Lemma BackupThread_body_manifest s (timestamp isoformat : string)
    (source_dir target_dir : path) (returned : path) (s' : disk) :
  let backup_name := "BACKUP_" +:+ timestamp in
  let backup_path := target_dir ++ [backup_name +:+ ".zip"] in
  let hash_file_path := path_replace ".zip" "_hashes.json" backup_path in
  let hash_data := HashData backup_name isoformat (hash_files s source_dir)
                     (size (hash_files s source_dir)) source_dir in
  "."%char ∉ list_ascii_of_string timestamp →
  BackupThread_body timestamp isoformat source_dir target_dir s = (Ok returned, s') →
  returned = backup_path
  ∧ ∃ readable, s' !! hash_file_path = Some (File (Json hash_data) readable)
                ∧ (readable = true ∨ ∃ c, s !! hash_file_path = Some (File c false)).
Proof.
  intros backup_name backup_path hash_file_path hash_data Hdot.
  unfold BackupThread_body. cbv [mbind io_bind get_disk].
  fold backup_name backup_path hash_file_path hash_data.
  pose proof (touches_only_create_zip backup_path source_dir s hash_file_path) as Hframe.
  destruct (create_zip backup_path source_dir s) as [[[]|e] s1]; [|done].
  cbn in Hframe. rewrite <-Hframe.
  2:{ unfold hash_file_path, backup_path, path_replace. rewrite fmap_app. cbn.
      rewrite str_replace_zip_suffix by by apply backup_name_no_dot.
      intros E. apply (f_equal last) in E. rewrite !last_snoc in E.
      injection E as E. apply String.app_inj in E. discriminate. }
  unfold write_file.
  destruct (s1 !! hash_file_path) as [[|c readable]|] eqn:Hh; [done| |].
  - intros [= <- <-]. split; [done|]. exists readable.
    rewrite lookup_insert_eq. split; [done|].
    destruct readable; [by left|right; eauto].
  - destruct (os_path_isdir s1 (dirname hash_file_path)); [|done].
    intros [= <- <-]. split; [done|]. exists true.
    rewrite lookup_insert_eq. auto.
Qed.

(** The archive is opened for writing before any file of the tree is
    read: whatever the outcome of the body, the archive is on the disk
    afterwards, and nothing but the archive and the manifest has
    changed. *)
Lemma BackupThread_body_archive s (timestamp isoformat : string)
    (source_dir target_dir : path) :
  let backup_name := "BACKUP_" +:+ timestamp in
  let backup_path := target_dir ++ [backup_name +:+ ".zip"] in
  let hash_file_path := path_replace ".zip" "_hashes.json" backup_path in
  let s' := (BackupThread_body timestamp isoformat source_dir target_dir s).2 in
  s !! target_dir = Some Dir →
  s !! backup_path = None →
  backup_path ≠ hash_file_path →
  (∃ members, s' !! backup_path = Some (File (Zip members) true))
  ∧ ∀ q, q ≠ backup_path → q ≠ hash_file_path → s' !! q = s !! q.
Proof.
  intros backup_name backup_path hash_file_path s' Hdir Hfree Hne. subst s'.
  destruct (BackupThread_body timestamp isoformat source_dir target_dir s)
    as [res s'] eqn:Hrun.
  cbn [snd].
  assert (∃ members, s' = <[backup_path := File (Zip members) true]> s
                     ∨ ∃ n, s' = <[hash_file_path := n]>
                                   (<[backup_path := File (Zip members) true]> s))
    as (members & Hs').
  { revert Hrun. unfold BackupThread_body.
    fold backup_name backup_path hash_file_path.
    cbv [mbind io_bind get_disk]. unfold create_zip.
    cbv [mbind io_bind get_disk]. unfold write_file at 1.
    rewrite Hfree. unfold os_path_isdir, backup_path at 1.
    rewrite dirname_snoc, Hdir. fold backup_path.
    destruct (zip_write_all _ _ _ _) as [members err]. intros Hrun. exists members.
    revert Hrun.
    unfold write_file at 1. rewrite lookup_insert_eq, insert_insert_eq.
    destruct err as [e|]; [intros [= <- <-]; by left|]. cbn [mret io_ret].
    unfold write_file.
    destruct (_ !! hash_file_path) as [[|c r]|] eqn:Hh;
      [intros [= <- <-]; by left|intros [= <- <-]; right; eauto|].
    destruct (os_path_isdir (<[backup_path := File (Zip members) true]> s)
                (dirname hash_file_path)); intros [= <- <-]; [right; eauto|by left]. }
  destruct Hs' as [->|[n ->]]; split.
  - exists members. by rewrite lookup_insert_eq.
  - intros q Hq _. by rewrite lookup_insert_ne.
  - exists members. by rewrite lookup_insert_ne, lookup_insert_eq.
  - intros q Hq Hq'. by rewrite !lookup_insert_ne.
Qed.
(** X15: a completed backup tells the restore where to go.  Whenever
    [BackupThread.run] ends with [backup_completed p] (the timestamp
    holding no dot, and no unreadable file sitting at the manifest's name
    beforehand), [p] is the new archive, [get_backup_source_directory p]
    then returns the directory that was backed up, and [start_restore]
    restores to it, whatever source directory the window has set. *)
Theorem completed_backup_records_source_directory s (timestamp isoformat : string)
    (source_dir target_dir self_source_dir returned : path) :
  let backup_path := target_dir ++ [("BACKUP_" +:+ timestamp) +:+ ".zip"] in
  let ended := BackupThread_run timestamp isoformat source_dir target_dir s in
  "."%char ∉ list_ascii_of_string timestamp →
  (∀ c, s !! path_replace ".zip" "_hashes.json" backup_path ≠ Some (File c false)) →
  ended.1 = backup_completed returned →
  returned = backup_path
  ∧ get_backup_source_directory returned ended.2 = source_dir
  ∧ (source_dir ≠ [] →
     start_restore_destination returned self_source_dir ended.2 = Some source_dir).
Proof.
  intros backup_path ended Hdot Hfree. unfold ended, BackupThread_run.
  pose proof (BackupThread_body_manifest s timestamp isoformat source_dir target_dir)
    as Hbody.
  destruct (BackupThread_body timestamp isoformat source_dir target_dir s)
    as [[returned'|e] s']; [|done].
  cbn [fst snd]. intros [= <-].
  destruct (Hbody returned' s' Hdot eq_refl) as (Hret & readable & Hh & Hr).
  destruct Hr as [->|[c Hc]]; [|by destruct (Hfree c)].
  assert (get_backup_source_directory returned' s' = source_dir) as Hget.
  { unfold get_backup_source_directory, os_path_exists, json_load.
    by rewrite Hret, Hh. }
  split_and!; [done|done|].
  intros Hne. unfold start_restore_destination. rewrite Hget.
  by rewrite bool_decide_false.
Qed.


(** [load_backups] lists the entries of the target directory that are
    named like an archive. *)
Lemma load_backups_files_spec s (target_dir : path) :
  target_dir ≠ [] → s !! target_dir = Some Dir →
  ∃ backup_files,
    load_backups_files target_dir s = Ok backup_files
    ∧ ∀ file file_path,
        (file, file_path) ∈ backup_files
        ↔ file_path = target_dir ++ [file]
          ∧ is_Some (s !! file_path)
          ∧ startswith file "BACKUP_" = true
          ∧ endswith file ".zip" = true.
Proof.
  intros Hne Hdir. unfold load_backups_files.
  rewrite bool_decide_false by done. unfold os_path_exists. rewrite Hdir. cbn [negb orb].
  destruct (os_listdir_Dir s target_dir Hdir) as (items & -> & _ & Hitems).
  eexists. split; [done|]. intros file file_path.
  rewrite list_elem_of_fmap. split.
  - intros (file' & [= -> ->] & [Hname Hin]%list_elem_of_filter).
    apply Hitems in Hin. apply andb_true_iff in Hname as [? ?]. done.
  - intros (-> & Hin & Hstart & Hend). exists file. split; [done|].
    apply list_elem_of_filter. split; [by rewrite Hstart, Hend|]. by apply Hitems.
Qed.


End after_backup.

Lemma completed_backup_records_source_directory_witness :
  let ended := BackupThread_run (H := ascii_codecs) "01_02_2024_03_04_05"
                 "2024-01-02T03:04:05" ["proj"] ["store"] small_project in
  get_backup_source_directory (H := ascii_codecs)
    ["store"; "BACKUP_01_02_2024_03_04_05.zip"] ended.2
  = ["proj"]
  ∧ start_restore_destination (H := ascii_codecs)
      ["store"; "BACKUP_01_02_2024_03_04_05.zip"] [] ended.2
    = Some ["proj"].
Proof.
  destruct (completed_backup_records_source_directory (H := ascii_codecs) small_project
              "01_02_2024_03_04_05" "2024-01-02T03:04:05" ["proj"] ["store"] []
              ["store"; "BACKUP_01_02_2024_03_04_05.zip"])
    as (_ & Hget & Hdest).
  - apply (bool_decide_unpack _). vm_compute. exact I.
  - intros c. vm_compute. discriminate.
  - vm_compute. reflexivity.
  - split; [exact Hget|]. apply Hdest. discriminate.
Defined.



(** ** Extraction stays inside its directory *)

Lemma not_below_self (d : path) : ¬ below d d.
Proof. by intros [_ ?]. Qed.

Lemma not_below_dirname (d : path) : ¬ below d (dirname d).
Proof.
  intros [Hpre Hne]. apply prefix_length in Hpre.
  unfold dirname in *. rewrite length_take in Hpre.
  destruct d; [done|]. cbn in Hpre. lia.
Qed.

Lemma below_app (d r : path) : r ≠ [] → below d (d ++ r).
Proof.
  intros Hr. split; [by apply prefix_app_r|].
  intros E. apply Hr. apply (app_inv_head d). by rewrite app_nil_r.
Qed.

Lemma os_mkdir_below (d r : path) s q :
  r ≠ [] → ¬ below d q → (os_mkdir (d ++ r) s).2 !! q = s !! q.
Proof.
  intros Hr Hq. apply touches_only_mkdir. intros <-. by apply Hq, below_app.
Qed.

Lemma makedirs_rev_below (d r : path) exist_ok s q :
  r ≠ [] → is_Some (s !! d) → ¬ below d q →
  (makedirs_rev (reverse (d ++ r)) exist_ok s).2 !! q = s !! q.
Proof.
  revert s. induction r as [|y r' IH] using rev_ind; intros s Hr Hd Hq; [done|].
  rewrite app_assoc, reverse_snoc. cbn [makedirs_rev].
  rewrite <-reverse_snoc, reverse_involutive.
  unfold mbind at 1, io_bind at 1.
  assert (Hfirst : ∃ res s1,
    (s0 ← get_disk;
     when (negb (os_path_exists s0 (reverse (reverse (d ++ r')))))
       (try_except (makedirs_rev (reverse (d ++ r')) exist_ok)
          (λ e, if decide (e = FileExistsError) then mret () else raise e))) s
    = (res, s1) ∧ s1 !! q = s !! q).
  { cbv [mbind io_bind get_disk]. rewrite reverse_involutive.
    destruct (os_path_exists s (d ++ r')) eqn:Hex; cbn [negb when].
    { by do 2 eexists. }
    assert (r' ≠ []) as Hr'.
    { intros ->. rewrite app_nil_r in Hex. unfold os_path_exists in Hex.
      destruct Hd as [n Hn]. by rewrite Hn in Hex. }
    specialize (IH s Hr' Hd Hq). unfold try_except.
    destruct (makedirs_rev (reverse (d ++ r')) exist_ok s) as [[[]|e] s1]; cbn in IH.
    - by do 2 eexists.
    - case_decide; by do 2 eexists. }
  destruct Hfirst as (res & s1 & -> & Hs1). destruct res as [[]|e]; [|done].
  rewrite <-Hs1. unfold try_except.
  pose proof (os_mkdir_below d (r' ++ [y]) s1 q Hr Hq) as Hmk.
  rewrite app_assoc in Hmk.
  destruct (os_mkdir ((d ++ r') ++ [y]) s1) as [[[]|e] s2]; cbn in *; [done|].
  cbv [mbind io_bind get_disk]. by destruct (_ || _).
Qed.

Lemma extract_member_below (d : path) (m : zmember) s q :
  s !! d = Some Dir → is_Some (s !! dirname d) → ¬ below d q →
  (extract_member d m s).2 !! q = s !! q.
Proof.
  intros Hd Hparent Hq. unfold extract_member. cbv [mbind io_bind get_disk].
  destruct (zname m) as [|y r _] using rev_ind.
  - rewrite app_nil_r. unfold os_path_exists.
    destruct Hparent as [n ->]. cbn [negb when mret io_ret].
    unfold write_file. by rewrite Hd.
  - rewrite app_assoc, dirname_snoc.
    assert (Hfirst : ∃ res s1,
      when (negb (os_path_exists s (d ++ r))) (os_makedirs (d ++ r) false) s = (res, s1)
      ∧ s1 !! q = s !! q).
    { destruct (os_path_exists s (d ++ r)) eqn:Hex; cbn [negb when].
      { by do 2 eexists. }
      assert (r ≠ []) as Hr.
      { intros ->. rewrite app_nil_r in Hex. unfold os_path_exists in Hex.
        by rewrite Hd in Hex. }
      pose proof (makedirs_rev_below d r false s q Hr (mk_is_Some _ _ Hd) Hq) as Hmk.
      unfold os_makedirs.
      destruct (makedirs_rev (reverse (d ++ r)) false s) as [res s1].
      by do 2 eexists. }
    destruct Hfirst as (res & s1 & -> & Hs1). destruct res as [[]|e]; [|done].
    rewrite <-Hs1.
    assert (Hw : (write_file ((d ++ r) ++ [y]) (Bytes (zdata m)) s1).2 !! q = s1 !! q).
    { apply touches_only_write_file. intros <-. apply Hq.
      rewrite <-app_assoc. apply below_app. by destruct r. }
    destruct (write_file ((d ++ r) ++ [y]) (Bytes (zdata m)) s1) as [[[]|e] s2];
      cbn in *; [|done].
    by destruct (zvalid m).
Qed.

Lemma extractall_below (d : path) (members : list zmember) s q :
  s !! d = Some Dir → is_Some (s !! dirname d) → ¬ below d q →
  (extractall members d s).2 !! q = s !! q.
Proof.
  unfold extractall. revert s.
  induction members as [|m members IH]; intros s Hd Hparent Hq; [done|].
  cbn [for_each]. unfold mbind, io_bind.
  pose proof (λ q', extract_member_below d m s q' Hd Hparent) as Hm.
  destruct (extract_member d m s) as [[[]|e] s1]; cbn in Hm; [|by apply Hm].
  rewrite IH; [by apply Hm| | |done].
  - rewrite Hm; [done|apply not_below_self].
  - rewrite Hm; [done|apply not_below_dirname].
Qed.

(** ** The temporary directories of a comparison *)

Lemma snoc_not_prefix (parent : path) (x : string) : ¬ (parent ++ [x]) `prefix_of` parent.
Proof.
  intros Hp%prefix_length. rewrite length_app in Hp. cbn in Hp. lia.
Qed.

Lemma sibling_not_prefix (parent : path) (x y : string) :
  x ≠ y → ¬ (parent ++ [x]) `prefix_of` (parent ++ [y]).
Proof.
  intros Hxy [k Hk]. rewrite <-app_assoc in Hk. apply app_inv_head in Hk.
  by simplify_eq/=.
Qed.

(** One round of "clean up any existing temp directory, then make it". *)
Lemma fresh_temp_dir s (parent : path) (x : string) :
  s !! parent = Some Dir →
  (∀ c b, s !! (parent ++ [x]) ≠ Some (File c b)) →
  ∃ s1,
    (s0 ← get_disk;
     when (os_path_exists s0 (parent ++ [x])) (shutil_rmtree (parent ++ [x]));;
     os_makedirs (parent ++ [x]) false) s = (Ok (), s1)
    ∧ s1 !! (parent ++ [x]) = Some Dir
    ∧ ∀ q, ¬ (parent ++ [x]) `prefix_of` q → s1 !! q = s !! q.
Proof.
  intros Hparent Hfile. cbv [mbind io_bind get_disk]. unfold os_path_exists.
  destruct (s !! (parent ++ [x])) as [[|c b]|] eqn:Hd; [|by destruct (Hfile c b)|].
  - cbn [when]. unfold shutil_rmtree. rewrite Hd.
    rewrite os_makedirs_leaf.
    + eexists. split; [done|]. split; [by rewrite lookup_insert_eq|].
      intros q Hq. rewrite lookup_insert_ne by (intros <-; by apply Hq).
      by apply lookup_remove_tree_other.
    + by apply lookup_remove_tree_under.
    + rewrite dirname_snoc, lookup_remove_tree_other; [done|apply snoc_not_prefix].
  - cbn [when mret io_ret]. rewrite os_makedirs_leaf; [|done|by rewrite dirname_snoc].
    eexists. split; [done|]. split; [by rewrite lookup_insert_eq|].
    intros q Hq. by rewrite lookup_insert_ne by (intros <-; by apply Hq).
Qed.

Lemma fresh_temp_dirs_two s (parent : path) (x y : string) :
  x ≠ y →
  s !! parent = Some Dir →
  (∀ c b, s !! (parent ++ [x]) ≠ Some (File c b)) →
  (∀ c b, s !! (parent ++ [y]) ≠ Some (File c b)) →
  ∃ s2, fresh_temp_dirs [parent ++ [x]; parent ++ [y]] s = (Ok (), s2)
        ∧ staged_beside s (parent ++ [x]) (parent ++ [y]) s2.
Proof.
  intros Hxy Hparent Hx Hy. unfold fresh_temp_dirs. cbn [for_each].
  destruct (fresh_temp_dir s parent x Hparent Hx) as (s1 & Hrun1 & Hd1 & Hframe1).
  destruct (fresh_temp_dir s1 parent y) as (s2 & Hrun2 & Hd2 & Hframe2).
  { rewrite Hframe1; [done|apply snoc_not_prefix]. }
  { intros c b. rewrite Hframe1; [done|]. apply sibling_not_prefix. done. }
  exists s2. split.
  - unfold mbind at 1, io_bind at 1. rewrite Hrun1.
    unfold mbind at 1, io_bind at 1. by rewrite Hrun2.
  - split_and!; [|done|].
    + rewrite Hframe2; [done|]. apply sibling_not_prefix. done.
    + intros q Hq1 Hq2. by rewrite Hframe2, Hframe1.
Qed.

Lemma staged_beside_extractall s (parent : path) (x y : string) (members : list zmember)
    (s' : disk) :
  x ≠ y → is_Some (s !! parent) →
  staged_beside s (parent ++ [x]) (parent ++ [y]) s' →
  staged_beside s (parent ++ [x]) (parent ++ [y])
    (extractall members (parent ++ [x]) s').2
  ∧ staged_beside s (parent ++ [x]) (parent ++ [y])
      (extractall members (parent ++ [y]) s').2.
Proof.
  intros Hxy Hparent (Hd1 & Hd2 & Hframe).
  assert (Hp : is_Some (s' !! parent)).
  { rewrite Hframe; [done|apply snoc_not_prefix..]. }
  split.
  - pose proof (λ q, extractall_below (parent ++ [x]) members s' q Hd1) as Hex.
    rewrite dirname_snoc in Hex. specialize (λ q, Hex q Hp).
    split_and!.
    + rewrite Hex; [done|apply not_below_self].
    + rewrite Hex; [done|]. intros [? _]. by eapply sibling_not_prefix.
    + intros q Hq1 Hq2. rewrite Hex; [by apply Hframe|]. by intros [? _].
  - pose proof (λ q, extractall_below (parent ++ [y]) members s' q Hd2) as Hex.
    rewrite dirname_snoc in Hex. specialize (λ q, Hex q Hp).
    split_and!.
    + rewrite Hex; [done|]. intros [? _]. by eapply (sibling_not_prefix parent y x).
    + rewrite Hex; [done|apply not_below_self].
    + intros q Hq1 Hq2. rewrite Hex; [by apply Hframe|]. by intros [? _].
Qed.

Lemma staged_beside_removed s (d1 d2 : path) (s' : disk) :
  staged_beside s d1 d2 s' →
  remove_tree d2 (remove_tree d1 s') = remove_tree d2 (remove_tree d1 s).
Proof.
  intros (_ & _ & Hframe). apply map_eq. intros q.
  destruct (decide (d2 `prefix_of` q)) as [H2|H2].
  { by rewrite !lookup_remove_tree_under. }
  rewrite !(lookup_remove_tree_other d2) by done.
  destruct (decide (d1 `prefix_of` q)) as [H1|H1].
  { by rewrite !lookup_remove_tree_under. }
  rewrite !(lookup_remove_tree_other d1) by done. by apply Hframe.
Qed.

Lemma staged_beside_rmtree s (parent : path) (x y : string) (s' : disk) :
  x ≠ y →
  staged_beside s (parent ++ [x]) (parent ++ [y]) s' →
  (shutil_rmtree (parent ++ [x]);; shutil_rmtree (parent ++ [y])) s'
  = (Ok (), remove_tree (parent ++ [y]) (remove_tree (parent ++ [x]) s)).
Proof.
  intros Hxy Hst. pose proof Hst as (Hd1 & Hd2 & _).
  cbv [mbind io_bind]. unfold shutil_rmtree at 1. rewrite Hd1.
  unfold shutil_rmtree. rewrite lookup_remove_tree_other, Hd2.
  - by rewrite (staged_beside_removed s).
  - apply sibling_not_prefix. done.
Qed.

Lemma staged_beside_cleanup s (parent : path) (x y : string) (s' : disk) :
  x ≠ y →
  staged_beside s (parent ++ [x]) (parent ++ [y]) s' →
  cleanup_temp_dirs [parent ++ [x]; parent ++ [y]] s'
  = (Ok (), remove_tree (parent ++ [y]) (remove_tree (parent ++ [x]) s)).
Proof.
  intros Hxy Hst. pose proof Hst as (Hd1 & Hd2 & _).
  unfold cleanup_temp_dirs. cbn [for_each].
  cbv [mbind io_bind get_disk]. unfold os_path_exists. rewrite Hd1. cbn [when].
  unfold shutil_rmtree at 1. rewrite Hd1.
  rewrite lookup_remove_tree_other, Hd2 by (apply sibling_not_prefix; done).
  cbn [when]. unfold shutil_rmtree.
  rewrite lookup_remove_tree_other, Hd2 by (apply sibling_not_prefix; done).
  cbn. by rewrite (staged_beside_removed s).
Qed.

Section temp_dirs.
Context `{Codecs}.


Lemma get_file_diff_outcome s (target_dir : path)
    (source_backup compare_backup : string) (file_path : path) :
  let temp_source := target_dir ++ ["temp_diff_source"] in
  let temp_compare := target_dir ++ ["temp_diff_compare"] in
  s !! target_dir = Some Dir →
  (∀ c b, s !! temp_source ≠ Some (File c b)) →
  (∀ c b, s !! temp_compare ≠ Some (File c b)) →
  ∃ diff_content s',
    get_file_diff target_dir source_backup compare_backup file_path s
    = (Ok diff_content, s')
    ∧ (s' = remove_tree temp_compare (remove_tree temp_source s)
       ∨ (diff_content = None
          ∧ staged_beside s temp_source temp_compare s'
          ∧ (s' !! (temp_source ++ file_path) = None
             ∨ s' !! (temp_compare ++ file_path) = None))).
Proof.
  intros temp_source temp_compare Hdir Hts Htc.
  assert (Hxy : "temp_diff_source" ≠ "temp_diff_compare") by done.
  destruct (fresh_temp_dirs_two s target_dir _ _ Hxy Hdir Hts Htc)
    as (s2 & Hfresh & Hst2).
  fold temp_source temp_compare in Hfresh.
  assert (Hcleanup : ∀ (s' : disk),
    staged_beside s temp_source temp_compare s' →
    ((cleanup_temp_dirs [temp_source; temp_compare];; mret None)
       : io (option (list string))) s'
    = (Ok None, remove_tree temp_compare (remove_tree temp_source s))).
  { intros s' Hst. unfold mbind, io_bind.
    pose proof (staged_beside_cleanup s target_dir _ _ s' Hxy Hst) as Hc.
    fold temp_source temp_compare in Hc. by rewrite Hc. }
  assert (Hsome : is_Some (s !! target_dir)) by by rewrite Hdir.
  unfold get_file_diff, try_except. fold temp_source temp_compare.
  unfold mbind at 1, io_bind at 1. rewrite Hfresh.
  unfold mbind at 1, io_bind at 1, lift at 1.
  destruct (ZipFile_read s2 (target_dir ++ [source_backup])) as [members1|e];
    [|rewrite Hcleanup by done; eauto].
  unfold mbind at 1, io_bind at 1.
  destruct (staged_beside_extractall s target_dir _ _ members1 s2 Hxy Hsome Hst2)
    as [Hst3 _].
  fold temp_source temp_compare in Hst3.
  destruct (extractall members1 temp_source s2) as [[[]|e] s3]; cbn [snd] in Hst3;
    [|rewrite Hcleanup by done; eauto].
  unfold mbind at 1, io_bind at 1, lift at 1.
  destruct (ZipFile_read s3 (target_dir ++ [compare_backup])) as [members2|e];
    [|rewrite Hcleanup by done; eauto].
  unfold mbind at 1, io_bind at 1.
  destruct (staged_beside_extractall s target_dir _ _ members2 s3 Hxy Hsome Hst3)
    as [_ Hst4].
  fold temp_source temp_compare in Hst4.
  destruct (extractall members2 temp_compare s3) as [[[]|e] s4]; cbn [snd] in Hst4;
    [|rewrite Hcleanup by done; eauto].
  unfold mbind at 1, io_bind at 1, get_disk at 1.
  destruct (negb (os_path_exists s4 (temp_source ++ file_path))
            || negb (os_path_exists s4 (temp_compare ++ file_path))) eqn:Hmissing.
  { do 2 eexists. split; [done|]. right. split_and!; [done..|].
    unfold os_path_exists in Hmissing.
    destruct (s4 !! (temp_source ++ file_path)); [|by left].
    destruct (s4 !! (temp_compare ++ file_path)); [done|by right]. }
  unfold mbind at 1, io_bind at 1, lift at 1.
  destruct (readlines s4 (temp_source ++ file_path)) as [lines1|e];
    [|rewrite Hcleanup by done; eauto].
  unfold mbind at 1, io_bind at 1, lift at 1.
  destruct (readlines s4 (temp_compare ++ file_path)) as [lines2|e];
    [|rewrite Hcleanup by done; eauto].
  pose proof (staged_beside_rmtree s target_dir _ _ s4 Hxy Hst4) as Hrm.
  fold temp_source temp_compare in Hrm.
  cbv [mbind io_bind] in Hrm |- *.
  destruct (shutil_rmtree temp_source s4) as [[[]|e] s5]; [|done].
  destruct (shutil_rmtree temp_compare s5) as [[[]|e] s6]; [|done].
  injection Hrm as ->. do 2 eexists. split; [done|]. by left.
Qed.


End temp_dirs.



(** ** What extraction builds *)

Lemma snoc_inv {A} (l : list A) : l ≠ [] → ∃ l' x, l = l' ++ [x].
Proof. destruct l as [|x l' _] using rev_ind; [done|eauto]. Qed.

Lemma snoc_not_prefix_init (d r : path) (y : string) :
  ¬ (d ++ r ++ [y]) `prefix_of` (d ++ r).
Proof.
  intros Hp%prefix_length. rewrite !length_app in Hp. cbn in Hp. lia.
Qed.

(** [os.makedirs] below an existing directory, where whatever is there on
    the way is a directory. *)
Lemma os_makedirs_chain (d r : path) exist_ok s :
  s !! d = Some Dir →
  (∀ r0 r1, r1 `prefix_of` r0 → r0 `prefix_of` r → is_Some (s !! (d ++ r0)) →
            s !! (d ++ r1) = Some Dir) →
  s !! (d ++ r) = None →
  ∃ s', os_makedirs (d ++ r) exist_ok s = (Ok (), s')
        ∧ (∀ r0, r0 `prefix_of` r → s' !! (d ++ r0) = Some Dir)
        ∧ (∀ q, ¬ q `prefix_of` d ++ r → s' !! q = s !! q).
Proof.
  revert s. induction r as [|y r' IH] using rev_ind; intros s Hd Hchain Hnone.
  { rewrite app_nil_r in Hnone. congruence. }
  unfold os_makedirs in *. rewrite app_assoc, reverse_snoc. cbn [makedirs_rev].
  rewrite reverse_cons, !reverse_involutive.
  rewrite app_assoc in Hnone.
  assert (Hleaf : ∀ (s1 : disk),
    s1 !! (d ++ r') = Some Dir → s1 !! ((d ++ r') ++ [y]) = None →
    try_except (os_mkdir ((d ++ r') ++ [y]))
      (λ e, s0 ← get_disk;
            if negb exist_ok || negb (os_path_isdir s0 ((d ++ r') ++ [y]))
            then raise e else mret ()) s1
    = (Ok (), <[(d ++ r') ++ [y] := Dir]> s1)).
  { intros s1 Hp Hl. unfold try_except, os_mkdir.
    rewrite Hl, dirname_snoc. unfold os_path_isdir. by rewrite Hp. }
  cbv [mbind io_bind get_disk]. unfold os_path_exists.
  destruct (s !! (d ++ r')) as [n|] eqn:Hp; cbn [negb when mret io_ret].
  - assert (n = Dir) as ->.
    { assert (s !! (d ++ r') = Some Dir) as Hdir; [|congruence].
      apply (Hchain r' r'); [done|by apply prefix_app_r|by rewrite Hp]. }
    rewrite Hleaf by done. eexists. split; [done|]. split.
    + intros r0 [E|Hr0]%prefix_snoc_inv.
      * subst r0. rewrite app_assoc. apply lookup_insert_eq.
      * rewrite lookup_insert_ne.
        -- apply (Hchain r' r0); [done|by apply prefix_app_r|by rewrite Hp].
        -- intros E. apply (snoc_not_prefix_init d r' y).
           rewrite app_assoc, E. by apply prefix_app.
    + intros q Hq. rewrite lookup_insert_ne; [done|].
      by intros <-.
  - destruct (IH s) as (s1 & Hrun & Hdirs & Hframe); [done| |done|].
    { intros r0 r1 H1 H0. apply Hchain; [done|]. etrans; [done|]. by apply prefix_app_r. }
    unfold try_except at 1. rewrite Hrun.
    rewrite Hleaf.
    2:{ by apply Hdirs. }
    2:{ rewrite Hframe; [done|]. rewrite <-app_assoc. apply snoc_not_prefix_init. }
    eexists. split; [done|]. split.
    + intros r0 [E|Hr0]%prefix_snoc_inv.
      * subst r0. rewrite app_assoc. apply lookup_insert_eq.
      * rewrite lookup_insert_ne; [by apply Hdirs|].
        intros E. apply (snoc_not_prefix_init d r' y).
        rewrite app_assoc, E. by apply prefix_app.
    + intros q Hq. rewrite lookup_insert_ne.
      * apply Hframe. intros Hq'. apply Hq. etrans; [done|].
        by apply prefix_app_r.
      * by intros <-.
Qed.

Lemma extract_member_spec (d : path) (done : list zmember) (m : zmember) s :
  extracted done d s → zvalid m = true → zname m ≠ [] →
  (∀ m0, m0 ∈ done → ¬ zname m0 `prefix_of` zname m ∧ ¬ zname m `prefix_of` zname m0) →
  ∃ s', extract_member d m s = (Ok (), s') ∧ extracted (done ++ [m]) d s'.
Proof.
  intros (Hd & Hfiles & Hdirs & Honly) Hvalid Hname Hsep.
  destruct (snoc_inv (zname m) Hname) as (r' & y & Hm).
  assert (Hchain : ∀ r0 r1, r1 `prefix_of` r0 → r0 `prefix_of` r' →
            is_Some (s !! (d ++ r0)) → s !! (d ++ r1) = Some Dir).
  { intros r0 r1 H1 H0 [->|(m0 & Hm0 & Hpre)]%Honly.
    - apply prefix_nil_inv in H1 as ->. by rewrite app_nil_r.
    - apply (Hdirs m0); [done|by etrans|].
      intros ->. destruct (Hsep m0 Hm0) as [Hno _]. apply Hno.
      rewrite Hm. transitivity r0; [done|]. transitivity r'; [done|].
      by apply prefix_app_r. }
  assert (Hfree : s !! (d ++ r' ++ [y]) = None).
  { destruct (s !! (d ++ r' ++ [y])) eqn:E; [|done].
    destruct (Honly (r' ++ [y])) as [E'|(m0 & Hm0 & Hpre)]; [by rewrite E| |].
    - by destruct r'.
    - destruct (Hsep m0 Hm0) as [_ Hno]. destruct Hno. by rewrite Hm. }
  assert (Hfirst : ∃ s1,
    when (negb (os_path_exists s (d ++ r'))) (os_makedirs (d ++ r') false) s
    = (Ok (), s1)
    ∧ (∀ r0, r0 `prefix_of` r' → s1 !! (d ++ r0) = Some Dir)
    ∧ (∀ q, ¬ q `prefix_of` d ++ r' → s1 !! q = s !! q)).
  { unfold os_path_exists. destruct (s !! (d ++ r')) eqn:Hp; cbn [negb when].
    - exists s. split; [done|]. split; [|done].
      intros r0 Hr0. apply (Hchain r'); [done..|by rewrite Hp].
    - by apply os_makedirs_chain. }
  destruct Hfirst as (s1 & Hrun1 & Hchain1 & Hframe1).
  assert (Hne : ∀ r0, r0 `prefix_of` r' → d ++ r' ++ [y] ≠ d ++ r0).
  { intros r0 Hr0 E. apply (snoc_not_prefix_init d r' y). rewrite E. by apply prefix_app. }
  exists (<[d ++ r' ++ [y] := File (Bytes (zdata m)) true]> s1). split.
  - unfold extract_member, write_file. rewrite Hm. cbv [mbind io_bind get_disk].
    rewrite app_assoc, !dirname_snoc, Hrun1.
    rewrite Hframe1 by (rewrite <-app_assoc; apply snoc_not_prefix_init).
    rewrite <-(app_assoc d), Hfree.
    unfold os_path_isdir. rewrite Hchain1 by done. by rewrite Hvalid.
  - split_and!.
    + rewrite lookup_insert_ne.
      * rewrite <-(app_nil_r d) at 1. apply Hchain1, prefix_nil.
      * rewrite <-(app_nil_r d) at 2. apply Hne, prefix_nil.
    + intros m0 [Hm0| ->%list_elem_of_singleton]%elem_of_app.
      * destruct (Hsep m0 Hm0) as [Hno1 Hno2].
        rewrite lookup_insert_ne.
        2:{ intros E. apply app_inv_head in E. apply Hno2. by rewrite Hm, E. }
        rewrite Hframe1; [by apply Hfiles|].
        intros Hp%prefix_app_inv. apply Hno1. rewrite Hm.
        etrans; [done|]. by apply prefix_app_r.
      * rewrite Hm. apply lookup_insert_eq.
    + intros m0 r [Hm0| ->%list_elem_of_singleton]%elem_of_app Hr Hr'.
      * destruct (Hsep m0 Hm0) as [Hno1 Hno2].
        rewrite lookup_insert_ne.
        2:{ intros E. apply app_inv_head in E. apply Hno2. by rewrite Hm, E. }
        destruct (decide (r `prefix_of` r')) as [Hin|Hout]; [by apply Hchain1|].
        rewrite Hframe1; [by apply (Hdirs m0)|].
        by intros Hp%prefix_app_inv.
      * rewrite Hm in Hr, Hr'. apply prefix_snoc_inv in Hr as [E|Hr]; [done|].
        rewrite lookup_insert_ne; [by apply Hchain1|by apply Hne].
    + intros r Hr. rewrite lookup_insert in Hr. case_decide as E.
      * apply app_inv_head in E. right. exists m. split; [set_solver|].
        by rewrite Hm, E.
      * destruct (decide (r `prefix_of` r')) as [Hin|Hout].
        -- right. exists m. split; [set_solver|]. rewrite Hm.
           etrans; [done|]. by apply prefix_app_r.
        -- rewrite Hframe1 in Hr by by intros Hp%prefix_app_inv.
           destruct (Honly r Hr) as [?|(m0 & ? & ?)]; [by left|right].
           exists m0. split; [set_solver|done].
Qed.

Lemma leaf_names_sep (done todo : list zmember) (m : zmember) :
  leaf_names (zname <$> (done ++ m :: todo)) →
  zname m ≠ []
  ∧ ∀ m0, m0 ∈ done → ¬ zname m0 `prefix_of` zname m ∧ ¬ zname m `prefix_of` zname m0.
Proof.
  intros (Hnd & Hne & Hleaf).
  assert (Hin : zname m ∈ zname <$> (done ++ m :: todo)).
  { apply list_elem_of_fmap_2, elem_of_app. right. left. }
  split; [intros E; rewrite E in Hin; by destruct Hne|].
  intros m0 Hm0.
  assert (Hin0 : zname m0 ∈ zname <$> (done ++ m :: todo)).
  { apply list_elem_of_fmap_2, elem_of_app. by left. }
  rewrite fmap_app, fmap_cons in Hnd.
  apply NoDup_app in Hnd as (_ & Hdisj & _).
  assert (zname m0 ≠ zname m) as Hdiff.
  { intros E. apply (Hdisj (zname m0)).
    - by apply list_elem_of_fmap_2.
    - rewrite E. left. }
  split; intros Hp.
  - apply Hdiff. by apply Hleaf.
  - apply Hdiff. symmetry. by apply Hleaf.
Qed.

Lemma for_each_extract_spec (d : path) (todo : list zmember) :
  ∀ (done : list zmember) s,
    extracted done d s →
    Forall (λ m, zvalid m = true) todo →
    leaf_names (zname <$> (done ++ todo)) →
    ∃ s', for_each todo (extract_member d) s = (Ok (), s')
          ∧ extracted (done ++ todo) d s'.
Proof.
  induction todo as [|m todo IH]; intros done s Hex Hvalid Hleaf.
  - exists s. by rewrite app_nil_r.
  - apply Forall_cons in Hvalid as [Hm Hvalid].
    destruct (leaf_names_sep done todo m Hleaf) as [Hname Hsep].
    destruct (extract_member_spec d done m s Hex Hm Hname Hsep) as (s1 & Hrun1 & Hex1).
    destruct (IH (done ++ [m]) s1 Hex1 Hvalid) as (s' & Hrun & Hex').
    { by rewrite <-app_assoc. }
    exists s'. cbn [for_each]. unfold mbind, io_bind. rewrite Hrun1.
    split; [done|]. by rewrite <-app_assoc in Hex'.
Qed.

(** Extracting intact members with the names of a tree into an empty
    directory builds that tree there and touches nothing else. *)
Lemma extractall_spec (d : path) (members : list zmember) s :
  s !! d = Some Dir →
  is_Some (s !! dirname d) →
  (∀ q, below d q → s !! q = None) →
  Forall (λ m, zvalid m = true) members →
  leaf_names (zname <$> members) →
  ∃ s', extractall members d s = (Ok (), s')
        ∧ extracted members d s'
        ∧ ∀ q, ¬ d `prefix_of` q → s' !! q = s !! q.
Proof.
  intros Hd Hparent Hempty Hvalid Hleaf.
  destruct (for_each_extract_spec d members [] s) as (s' & Hrun & Hex); [|done..|].
  { split_and!; [done|by intros m ?%elem_of_nil|by intros m r ?%elem_of_nil|].
    intros r Hr. destruct r as [|x r]; [by left|].
    rewrite Hempty in Hr; [by destruct Hr|]. by apply below_app. }
  exists s'. split; [done|]. split; [done|]. intros q Hq.
  pose proof (extractall_below d members s q Hd Hparent) as Hframe.
  unfold extractall in Hframe. rewrite Hrun in Hframe. apply Hframe.
  by intros [? _].
Qed.

(** ** Restoring an archive *)

Lemma well_formed_parent s p (x : string) :
  well_formed s → is_Some (s !! (p ++ [x])) → s !! p = Some Dir.
Proof.
  intros Hwf [n Hn]. destruct (Hwf _ _ Hn) as [E|Hdir]; [by destruct p|].
  rewrite dirname_snoc in Hdir. unfold os_path_isdir in Hdir.
  by destruct (s !! p) as [[]|].
Qed.

Lemma well_formed_missing s p q :
  well_formed s → s !! p = None → p `prefix_of` q → s !! q = None.
Proof.
  intros Hwf Hp [r ->]. induction r as [|y r IH] using rev_ind.
  - by rewrite app_nil_r.
  - destruct (s !! (p ++ r ++ [y])) eqn:E; [|done].
    rewrite app_assoc in E.
    assert (s !! (p ++ r) = Some Dir) by (apply (well_formed_parent s _ y); by rewrite ?E).
    congruence.
Qed.

Lemma well_formed_file_leaf s p q c b :
  well_formed s → s !! p = Some (File c b) → below p q → s !! q = None.
Proof.
  intros Hwf Hp [[r ->] Hne]. induction r as [|y r IH] using rev_ind.
  - by rewrite app_nil_r in Hne.
  - destruct (s !! (p ++ r ++ [y])) eqn:E; [|done].
    rewrite app_assoc in E.
    assert (s !! (p ++ r) = Some Dir) as Hdir
      by (apply (well_formed_parent s _ y); by rewrite ?E).
    destruct r as [|z r _] using rev_ind.
    + rewrite app_nil_r in Hdir. congruence.
    + rewrite IH in Hdir; [done|].
      intros E'. apply (f_equal length) in E'. rewrite !length_app in E'.
      cbn in E'. lia.
Qed.

Lemma well_formed_ancestor s p q :
  well_formed s → is_Some (s !! q) → p `prefix_of` q → p ≠ q → s !! p = Some Dir.
Proof.
  intros Hwf Hq [r ->]. revert Hq.
  induction r as [|y r IH] using rev_ind; intros Hq Hne.
  { by rewrite app_nil_r in Hne. }
  rewrite app_assoc in Hq. apply well_formed_parent in Hq; [|done].
  destruct r as [|z r _] using rev_ind.
  - by rewrite app_nil_r in Hq.
  - apply IH; [by rewrite Hq|].
    intros E. apply (f_equal length) in E. rewrite !length_app in E. cbn in E. lia.
Qed.

Lemma NoDup_singleton_inv {A} (l : list A) (x : A) :
  NoDup l → (∀ y, y ∈ l ↔ y = x) → l = [x].
Proof.
  intros Hnd Hl. destruct l as [|a l].
  - assert (x ∈ @nil A) as Hx by by apply Hl. by apply elem_of_nil in Hx.
  - assert (a = x) as -> by (apply Hl; left).
    destruct l as [|b l]; [done|].
    assert (b = x) as -> by (apply Hl; right; left).
    apply NoDup_cons in Hnd as [Hx _]. destruct Hx. left.
Qed.

(** The move step, from a state in which the destination is gone. *)
Lemma restore_move_extracted_Ok s (temp_dir source_dir : path) :
  s !! temp_dir = Some Dir →
  (∀ q, source_dir `prefix_of` q → s !! q = None) →
  s !! dirname source_dir = Some Dir →
  ¬ temp_dir `prefix_of` source_dir →
  ∃ s' : disk,
    restore_move_extracted temp_dir source_dir s = (Ok (), s')
    ∧ s' !! temp_dir = Some Dir
    ∧ (∀ q, ¬ temp_dir `prefix_of` q → ¬ source_dir `prefix_of` q → s' !! q = s !! q)
    ∧ (∀ x, (∀ y, is_Some (s !! (temp_dir ++ [y])) ↔ y = x) →
            s !! (temp_dir ++ [x]) = Some Dir →
            ∀ r, s' !! (source_dir ++ r) = s !! (temp_dir ++ x :: r))
    ∧ ((¬ ∃ x, (∀ y, is_Some (s !! (temp_dir ++ [y])) ↔ y = x)
               ∧ s !! (temp_dir ++ [x]) = Some Dir) →
       s' !! source_dir = Some Dir
       ∧ ∀ (y : string) r,
           s' !! (source_dir ++ y :: r)
           = match s !! (temp_dir ++ [y]) with
             | Some _ => s !! (temp_dir ++ y :: r)
             | None => None
             end).
Proof.
  intros Htemp Hnone Hparent Hin.
  assert (Hsep : ¬ comparable temp_dir source_dir).
  { intros [?|Hp]; [done|]. apply Hnone in Hp. congruence. }
  destruct (os_listdir_Dir s temp_dir Htemp) as (items & Hls & Hnd & Hitems).
  assert (Hone : ∀ x, items = [x] ↔ ∀ y, is_Some (s !! (temp_dir ++ [y])) ↔ y = x).
  { intros x. split.
    - intros -> y. rewrite <-Hitems. set_solver.
    - intros Hx. apply NoDup_singleton_inv; [done|]. intros y. by rewrite Hitems. }
  assert (Hcases : (∃ item, items = [item] ∧ s !! (temp_dir ++ [item]) = Some Dir)
                   ∨ ¬ (∃ item, items = [item]
                                ∧ s !! (temp_dir ++ [item]) = Some Dir)).
  { destruct items as [|item [|]]; [right; by intros (? & ? & _)| |
                                    right; by intros (? & ? & _)].
    destruct (s !! (temp_dir ++ [item])) as [[]|] eqn:E; [left; eauto|..];
      right; intros (? & ? & ?); simplify_eq. }
  destruct Hcases as [(item & -> & Hdir)|Hnot].
  - exists (move_tree (temp_dir ++ [item]) source_dir s). split_and!.
    + unfold restore_move_extracted.
      unfold mbind at 1, io_bind at 1. rewrite Hls.
      cbv [mbind io_bind get_disk]. cbn [length head default]. unfold id.
      unfold os_path_isdir at 1. rewrite Hdir. cbn [bool_decide andb].
      rewrite bool_decide_true by done. cbn [andb].
      eapply shutil_move_rename; [done|apply Hnone; reflexivity|done|].
      intros Hp. apply Hin. etrans; [|done]. by apply prefix_app_r.
    + rewrite lookup_move_tree_other; [done|apply snoc_not_prefix|].
      intros Hp. apply Hsep. by right.
    + intros q Hq1 Hq2. apply lookup_move_tree_other; [|done].
      intros Hp. apply Hq1. etrans; [|done]. by apply prefix_app_r.
    + intros x Hx _ r.
      apply Hone in Hx. injection Hx as <-.
      rewrite lookup_move_tree_into. by rewrite <-app_assoc.
    + intros Hno. destruct Hno. exists item. split; [by apply Hone|done].
  - assert (Hs1 : ∀ q, q ≠ source_dir → <[source_dir := Dir]> s !! q = s !! q)
      by (intros; by apply lookup_insert_ne).
    assert (Htmp : ∀ r, temp_dir ++ r ≠ source_dir).
    { intros r E. apply Hin. rewrite <-E. by apply prefix_app_r. }
    assert (Hsrc : ∀ (x : string) r, source_dir ++ x :: r ≠ source_dir).
    { intros x r E. apply (f_equal length) in E. rewrite length_app in E.
      cbn in E. lia. }
    destruct (move_items_spec s temp_dir source_dir items Hsep Hnd
                (<[source_dir := Dir]> s)) as (s' & Hrun & Hmoved & Hframe).
    { apply lookup_insert_eq. }
    { intros x Hx. rewrite Hs1 by apply Htmp. by apply Hitems. }
    { intros x r Hx. by rewrite Hs1 by apply Htmp. }
    { intros x r Hx. rewrite Hs1 by apply Hsrc. apply Hnone. by apply prefix_app_r. }
    exists s'. split_and!.
    + unfold restore_move_extracted.
      unfold mbind at 1, io_bind at 1. rewrite Hls.
      cbv [mbind io_bind get_disk].
      assert (bool_decide (length items = 1)
              && os_path_isdir s (temp_dir ++ [default "" (head items)]) = false) as ->.
      { destruct items as [|item [|]]; try done. cbn.
        unfold os_path_isdir.
        destruct (s !! (temp_dir ++ [item])) as [[]|] eqn:E; [|done..].
        destruct Hnot. eauto. }
      rewrite os_makedirs_leaf by (try done; apply Hnone; reflexivity). done.
    + rewrite Hframe.
      * rewrite Hs1; [done|]. rewrite <-(app_nil_r temp_dir). apply Htmp.
      * intros x Hx. split; [apply snoc_not_prefix|].
        intros Hp. apply Hsep. right. etrans; [|done]. by apply prefix_app_r.
    + intros q Hq1 Hq2. rewrite Hframe.
      * apply Hs1. intros ->. by apply Hq2.
      * intros x Hx. split; intros Hp; [apply Hq1|apply Hq2];
          (etrans; [|done]); by apply prefix_app_r.
    + intros x Hx Hdir. destruct Hnot. exists x. split; [by apply Hone|done].
    + intros _. split.
      * rewrite Hframe; [apply lookup_insert_eq|].
        intros x Hx. split.
        -- intros Hp. apply Hin. etrans; [|done]. by apply prefix_app_r.
        -- apply snoc_not_prefix.
      * intros y r. destruct (s !! (temp_dir ++ [y])) as [n|] eqn:Hy.
        -- apply Hmoved, Hitems. by rewrite Hy.
        -- assert (y ∉ items) as Hout by (rewrite Hitems, Hy; by intros [? ?]).
           rewrite Hframe.
           ++ rewrite Hs1 by apply Hsrc. apply Hnone. by apply prefix_app_r.
           ++ intros x Hx. split.
              ** intros Hp.
                 eapply (incomparable_prefixes temp_dir source_dir); [done| | |done].
                 --- etrans; [|done]. by apply prefix_app_r.
                 --- by apply prefix_app_r.
              ** intros ->%snoc_prefix_cons. done.
Qed.

Lemma restore_extract_Ok s (target_dir : path) (file : string) (members : list zmember) :
  let temp_dir := target_dir ++ ["temp_restore"] in
  well_formed s →
  s !! target_dir = Some Dir →
  s !! (target_dir ++ [file]) = Some (File (Zip members) true) →
  (∀ c b, s !! temp_dir ≠ Some (File c b)) →
  Forall (λ m, zvalid m = true) members →
  leaf_names (zname <$> members) →
  ∃ s2 : disk,
    restore_extract (target_dir ++ [file]) s = (Ok (), s2)
    ∧ extracted members temp_dir s2
    ∧ ∀ q, ¬ temp_dir `prefix_of` q → s2 !! q = s !! q.
Proof.
  intros temp_dir Hwf Hdir Hzip Htemp Hvalid Hleaf.
  assert (Hfresh : ∃ s0 s1 : disk,
    when (os_path_exists s temp_dir) (shutil_rmtree temp_dir) s = (Ok (), s0)
    ∧ os_makedirs temp_dir false s0 = (Ok (), s1)
    ∧ s1 !! temp_dir = Some Dir
    ∧ (∀ q, below temp_dir q → s1 !! q = None)
    ∧ (∀ q, ¬ temp_dir `prefix_of` q → s1 !! q = s !! q)).
  { unfold os_path_exists.
    destruct (s !! temp_dir) as [[|c b]|] eqn:Ht; [|by destruct (Htemp c b)|];
      cbn [when]; do 2 eexists; (split; [by unfold shutil_rmtree; rewrite ?Ht|]).
    - split.
      { apply os_makedirs_leaf; [by apply lookup_remove_tree_under|].
        unfold temp_dir. rewrite dirname_snoc, lookup_remove_tree_other; [done|].
        apply snoc_not_prefix. }
      split_and!.
      + apply lookup_insert_eq.
      + intros q [Hq Hne]. rewrite lookup_insert_ne by done.
        by apply lookup_remove_tree_under.
      + intros q Hq. rewrite lookup_insert_ne by (intros <-; by apply Hq).
        by apply lookup_remove_tree_other.
    - split.
      { apply os_makedirs_leaf; [done|]. unfold temp_dir. by rewrite dirname_snoc. }
      split_and!.
      + apply lookup_insert_eq.
      + intros q [Hq Hne]. rewrite lookup_insert_ne by done.
        by eapply well_formed_missing.
      + intros q Hq. by rewrite lookup_insert_ne by (intros <-; by apply Hq). }
  destruct Hfresh as (s0 & s1 & Hwhen & Hmk & Ht1 & Hempty & Hframe1).
  assert (Hne : file ≠ "temp_restore").
  { intros ->. by destruct (Htemp (Zip members) true). }
  destruct (extractall_spec temp_dir members s1) as (s2 & Hrun & Hex & Hframe2);
    [done| |done..|].
  { unfold temp_dir. rewrite dirname_snoc, Hframe1; [by rewrite Hdir|].
    apply snoc_not_prefix. }
  exists s2. split_and!; [|done|].
  - unfold restore_extract, restore_temp_dir. rewrite dirname_snoc.
    fold temp_dir. cbv [mbind io_bind get_disk lift].
    rewrite Hwhen, Hmk. unfold ZipFile_read.
    rewrite Hframe1, Hzip; [done|].
    apply sibling_not_prefix. done.
  - intros q Hq. by rewrite Hframe2, Hframe1.
Qed.

(** [RestoreThread.run] on an intact archive of a tree. *)
Lemma RestoreThread_body_Ok s (target_dir : path) (file : string) (source_dir : path)
    (members : list zmember) :
  let backup_path := target_dir ++ [file] in
  let temp_dir := target_dir ++ ["temp_restore"] in
  well_formed s →
  s !! target_dir = Some Dir →
  s !! backup_path = Some (File (Zip members) true) →
  (∀ c b, s !! temp_dir ≠ Some (File c b)) →
  Forall (λ m, zvalid m = true) members →
  leaf_names (zname <$> members) →
  ¬ comparable temp_dir source_dir →
  (∀ c b, s !! source_dir ≠ Some (File c b)) →
  s !! dirname source_dir = Some Dir →
  ∃ s' : disk,
    RestoreThread_body backup_path source_dir s = (Ok (), s')
    ∧ (∀ q, temp_dir `prefix_of` q → s' !! q = None)
    ∧ (∀ q, ¬ temp_dir `prefix_of` q → ¬ source_dir `prefix_of` q → s' !! q = s !! q)
    ∧ (∀ x, under_one_folder (zname <$> members) x →
            extracted (strip_top <$> members) source_dir s')
    ∧ ((¬ ∃ x, under_one_folder (zname <$> members) x) →
       extracted members source_dir s').
Proof.
  intros backup_path temp_dir Hwf Hdir Hzip Htemp Hvalid Hleaf Hsep Hsrc Hparent.
  destruct (restore_extract_Ok s target_dir file members)
    as (s2 & Hrun2 & Hex2 & Hframe2); [done..|].
  fold backup_path temp_dir in Hrun2, Hex2, Hframe2.
  assert (Hunder : ∀ q, source_dir `prefix_of` q → ¬ temp_dir `prefix_of` q).
  { intros q Hq Hq'. apply Hsep.
    destruct (prefix_weak_total temp_dir source_dir q); [done..|by left|by right]. }
  (* the old destination is removed *)
  assert (Hremove : ∃ s3 : disk,
    restore_remove_existing source_dir s2 = (Ok (), s3)
    ∧ (∀ q, source_dir `prefix_of` q → s3 !! q = None)
    ∧ (∀ q, ¬ source_dir `prefix_of` q → s3 !! q = s2 !! q)).
  { unfold restore_remove_existing. cbv [mbind io_bind get_disk].
    unfold os_path_exists. rewrite Hframe2 by (apply Hunder; reflexivity).
    destruct (s !! source_dir) as [[|c b]|] eqn:Hs; [|by destruct (Hsrc c b)|];
      cbn [when].
    - unfold shutil_rmtree. rewrite Hframe2, Hs by (apply Hunder; reflexivity).
      eexists. split; [done|]. split.
      + intros q Hq. by apply lookup_remove_tree_under.
      + intros q Hq. by apply lookup_remove_tree_other.
    - exists s2. split; [done|]. split; [|done].
      intros q Hq. rewrite Hframe2 by by apply Hunder.
      by eapply well_formed_missing. }
  destruct Hremove as (s3 & Hrun3 & Hgone & Hframe3).
  assert (Hstaged : ∀ r, s3 !! (temp_dir ++ r) = s2 !! (temp_dir ++ r)).
  { intros r. apply Hframe3. intros Hp. apply Hsep. right.
    destruct (prefix_weak_total source_dir temp_dir (temp_dir ++ r)) as [?|?];
      [done|by apply prefix_app_r|done|].
    exfalso. apply Hsep. by left. }
  destruct Hex2 as (Ht2 & Hfiles2 & Hdirs2 & Honly2).
  destruct (restore_move_extracted_Ok s3 temp_dir source_dir)
    as (s4 & Hrun4 & Ht4 & Hframe4 & Hflat & Hkeep).
  { rewrite <-(app_nil_r temp_dir), Hstaged. by rewrite app_nil_r. }
  { done. }
  { rewrite Hframe3, Hframe2; [done| |].
    - intros Hp. apply Hsep. left. etrans; [done|]. apply dirname_prefix.
    - intros Hp%prefix_length. unfold dirname in Hp. rewrite length_take in Hp.
      destruct source_dir; [|cbn in Hp; lia].
      apply Hsep. right. apply prefix_nil. }
  { intros Hp. apply Hsep. by left. }
  (* the top-level items of the staged tree *)
  assert (Hitem : ∀ y, is_Some (s3 !! (temp_dir ++ [y]))
                       ↔ ∃ m, m ∈ members ∧ [y] `prefix_of` zname m).
  { intros y. rewrite Hstaged. split.
    - intros [E|Hm]%Honly2; [done|done].
    - intros (m & Hm & Hy). destruct (decide ([y] = zname m)) as [E|E].
      + rewrite E, Hfiles2; done.
      + rewrite (Hdirs2 m); done. }
  assert (Hflat_iff : ∀ x,
    ((∀ y, is_Some (s3 !! (temp_dir ++ [y])) ↔ y = x)
     ∧ s3 !! (temp_dir ++ [x]) = Some Dir)
    ↔ under_one_folder (zname <$> members) x).
  { intros x. split.
    - intros [Hx Hxdir]. rewrite Hstaged in Hxdir. split.
      + destruct members as [|m ?]; [|done].
        assert (is_Some (s3 !! (temp_dir ++ [x]))) as Hs by by apply Hx.
        apply Hitem in Hs as (m & Hm & _). by apply elem_of_nil in Hm.
      + intros k (m & -> & Hm)%list_elem_of_fmap.
        destruct (zname m) as [|y tail] eqn:Hname.
        { destruct Hleaf as (_ & Hne & _). destruct Hne.
          rewrite <-Hname. by apply list_elem_of_fmap_2. }
        assert (y = x) as ->.
        { apply Hx, Hitem. exists m. split; [done|]. rewrite Hname.
          by apply (prefix_app_r [y] [y] tail). }
        exists tail. split; [|done]. intros ->.
        pose proof (Hfiles2 m Hm) as Hfile. rewrite Hname in Hfile. congruence.
    - intros [Hne Hall].
      assert (Hmem : ∀ m, m ∈ members → ∃ tail, tail ≠ [] ∧ zname m = x :: tail).
      { intros m Hm. apply Hall. by apply list_elem_of_fmap_2. }
      split.
      + intros y. rewrite Hitem. split.
        * intros (m & Hm & Hy). destruct (Hmem m Hm) as (tail & _ & Hname).
          rewrite Hname in Hy. destruct Hy as [k Hk]. by simplify_eq/=.
        * intros ->. destruct members as [|m ?]; [done|]. exists m.
          split; [left|]. destruct (Hmem m) as (tail & _ & ->); [left|].
          by apply (prefix_app_r [x] [x] tail).
      + rewrite Hstaged. destruct members as [|m ?]; [done|].
        destruct (Hmem m) as (tail & Htail & Hname); [left|].
        apply (Hdirs2 m); [left| |].
        * rewrite Hname. by apply (prefix_app_r [x] [x] tail).
        * rewrite Hname. intros [= <-]. done. }
  exists (remove_tree temp_dir s4). split_and!.
  - assert (restore_temp_dir backup_path = temp_dir) as Htd
      by (unfold restore_temp_dir, backup_path; by rewrite dirname_snoc).
    unfold RestoreThread_body. rewrite Htd.
    unfold mbind at 1, io_bind at 1. rewrite Hrun2.
    unfold mbind at 1, io_bind at 1. rewrite Hrun3.
    unfold mbind at 1, io_bind at 1. rewrite Hrun4.
    unfold shutil_rmtree. by rewrite Ht4.
  - intros q Hq. by apply lookup_remove_tree_under.
  - intros q Hq1 Hq2. rewrite lookup_remove_tree_other by done.
    by rewrite Hframe4, Hframe3, Hframe2.
  - intros x Hx. apply Hflat_iff in Hx as [Hx Hxdir].
    assert (Hs' : ∀ r, remove_tree temp_dir s4 !! (source_dir ++ r)
                       = s2 !! (temp_dir ++ x :: r)).
    { intros r. rewrite lookup_remove_tree_other
        by (apply Hunder; by apply prefix_app_r).
      by rewrite (Hflat x Hx Hxdir), Hstaged. }
    destruct (proj1 (Hflat_iff x) (conj Hx Hxdir)) as [_ Hall].
    assert (Hmem : ∀ m, m ∈ members → ∃ tail, tail ≠ [] ∧ zname m = x :: tail).
    { intros m Hm. apply Hall. by apply list_elem_of_fmap_2. }
    split_and!.
    + rewrite <-(app_nil_r source_dir), Hs'. by rewrite <-Hstaged.
    + intros m' (m & -> & Hm)%list_elem_of_fmap.
      destruct (Hmem m Hm) as (tail & _ & Hname).
      unfold strip_top. cbn [zname zdata]. rewrite Hname. cbn [drop]. rewrite drop_0.
      rewrite Hs', <-Hname. by apply Hfiles2.
    + intros m' r (m & -> & Hm)%list_elem_of_fmap.
      destruct (Hmem m Hm) as (tail & _ & Hname).
      unfold strip_top. cbn [zname]. rewrite Hname. cbn [drop]. rewrite drop_0.
      intros Hr Hr'.
      rewrite Hs'. apply (Hdirs2 m); [done| |].
      * rewrite Hname. by apply (prefix_app [x]).
      * rewrite Hname. by intros [= ->].
    + intros r Hr. rewrite Hs' in Hr.
      apply Honly2 in Hr as [E|(m & Hm & Hr)]; [done|].
      destruct (Hmem m Hm) as (tail & _ & Hname). right.
      exists (strip_top m). split; [by apply list_elem_of_fmap_2|].
      unfold strip_top. cbn [zname]. rewrite Hname in *. cbn [drop]. rewrite drop_0.
      by apply (prefix_app_inv [x]).
  - intros Hno.
    destruct Hkeep as [Hsd Hkeep].
    { intros (x & Hx). apply Hno. exists x. by apply Hflat_iff. }
    assert (Hs' : ∀ (y : string) r,
      is_Some (s2 !! (temp_dir ++ [y])) →
      remove_tree temp_dir s4 !! (source_dir ++ y :: r) = s2 !! (temp_dir ++ y :: r)).
    { intros y r Hy. rewrite lookup_remove_tree_other
        by (apply Hunder; by apply prefix_app_r).
      rewrite Hkeep, !Hstaged. by destruct Hy as [? ->]. }
    assert (Hfirst : ∀ m (y : string) r, m ∈ members → (y :: r) `prefix_of` zname m →
              is_Some (s2 !! (temp_dir ++ [y]))).
    { intros m y r Hm Hp. rewrite <-Hstaged. apply Hitem. exists m. split; [done|].
      etrans; [|done]. by apply (prefix_app_r [y] [y] r). }
    split_and!.
    + rewrite lookup_remove_tree_other; [done|]. apply Hunder. reflexivity.
    + intros m Hm. destruct (zname m) as [|y r] eqn:Hname.
      { destruct Hleaf as (_ & Hne & _). destruct Hne.
        rewrite <-Hname. by apply list_elem_of_fmap_2. }
      rewrite Hs'; [rewrite <-Hname; by apply Hfiles2|].
      apply (Hfirst m y r); [done|by rewrite Hname].
    + intros m r Hm Hr Hr'. destruct r as [|y r].
      { rewrite app_nil_r, lookup_remove_tree_other; [done|].
        apply Hunder. reflexivity. }
      rewrite Hs'; [by apply (Hdirs2 m)|]. by apply (Hfirst m y r).
    + intros r Hr. destruct r as [|y r]; [by left|].
      rewrite lookup_remove_tree_other in Hr by (apply Hunder; by apply prefix_app_r).
      rewrite Hkeep, !Hstaged in Hr.
      destruct (s2 !! (temp_dir ++ [y])); [|by destruct Hr].
      by apply Honly2 in Hr as [?|?]; [|right].
Qed.


Lemma extracted_walk_files (members : list zmember) (d : path) s k :
  extracted members d s →
  (∀ m, m ∈ members → zname m ≠ []) →
  k ∈ walk_files s d ↔ k ∈ zname <$> members.
Proof.
  intros (_ & Hfiles & Hdirs & Honly) Hne. rewrite elem_of_walk_files. split.
  - intros [Hk (c & b & Hs)].
    destruct (Honly k) as [?|(m & Hm & Hpre)]; [by rewrite Hs|done|].
    destruct (decide (k = zname m)) as [->|Hdiff]; [by apply list_elem_of_fmap_2|].
    rewrite (Hdirs m k) in Hs; done.
  - intros (m & -> & Hm)%list_elem_of_fmap. split; [by apply Hne|].
    rewrite (Hfiles m Hm). eauto.
Qed.

Section round_trip.
Context `{Codecs}.

Lemma member_of_names s (source_dir : path) (files : list path) (members : list zmember) :
  Forall2 (member_of s source_dir) files members →
  zname <$> members = files
  ∧ Forall (λ m, zvalid m = true) members
  ∧ ∀ m, m ∈ members → open_rb s (source_dir ++ zname m) = Ok (zdata m).
Proof.
  induction 1 as [|k m ks ms (Hk & Hv & Ho) _ (IH1 & IH2 & IH3)].
  - split_and!; [done|constructor|by intros m ?%elem_of_nil].
  - split_and!.
    + cbn. by f_equal.
    + by constructor.
    + intros m' [->|Hm']%elem_of_cons; [by rewrite Hk|by apply IH3].
Qed.

Lemma leaf_names_walk_files s (source_dir : path) :
  well_formed s → leaf_names (walk_files s source_dir).
Proof.
  intros Hwf. split_and!.
  - apply NoDup_walk_files.
  - by intros [? _]%elem_of_walk_files.
  - intros k k' [_ (c & b & Hk)]%elem_of_walk_files
      [_ (c' & b' & Hk')]%elem_of_walk_files Hpre.
    destruct (decide (k = k')) as [|Hne]; [done|].
    rewrite (well_formed_file_leaf s (source_dir ++ k) (source_dir ++ k') c b) in Hk';
      [done..|].
    split; [by apply prefix_app|]. intros E. by apply app_inv_head in E.
Qed.

Lemma open_rb_extracted (members : list zmember) (d : path) s (m : zmember) :
  extracted members d s → m ∈ members → open_rb s (d ++ zname m) = Ok (zdata m).
Proof.
  intros (_ & Hfiles & _) Hm. unfold open_rb. by rewrite (Hfiles m Hm).
Qed.

(** A backup followed, at some later time, by a restore of its archive. *)
Lemma backup_then_restore s (s1 : disk) (timestamp isoformat : string)
    (source_dir target_dir : path) :
  let backup_path := target_dir ++ [("BACKUP_" +:+ timestamp) +:+ ".zip"] in
  let temp_dir := target_dir ++ ["temp_restore"] in
  well_formed s →
  "."%char ∉ list_ascii_of_string timestamp →
  path_replace ".zip" "_hashes.json" target_dir = target_dir →
  s !! target_dir = Some Dir →
  s !! backup_path = None →
  s !! (target_dir ++ [("BACKUP_" +:+ timestamp) +:+ "_hashes.json"]) = None →
  ¬ source_dir `prefix_of` backup_path →
  (∀ k, k ∈ walk_files s source_dir → ∃ f, open_rb s (source_dir ++ k) = Ok f) →
  (∀ k, k ∈ walk_files s source_dir → archivable source_dir k) →
  well_formed s1 →
  s1 !! target_dir = Some Dir →
  s1 !! backup_path
    = (BackupThread_run timestamp isoformat source_dir target_dir s).2 !! backup_path →
  (∀ c b, s1 !! temp_dir ≠ Some (File c b)) →
  ¬ comparable temp_dir source_dir →
  (∀ c b, s1 !! source_dir ≠ Some (File c b)) →
  s1 !! dirname source_dir = Some Dir →
  ∃ (members : list zmember) (s2 : disk),
    zname <$> members = walk_files s source_dir
    ∧ (∀ m, m ∈ members → open_rb s (source_dir ++ zname m) = Ok (zdata m))
    ∧ RestoreThread_run backup_path source_dir s1 = (restore_completed source_dir, s2)
    ∧ (∀ q, temp_dir `prefix_of` q → s2 !! q = None)
    ∧ (∀ q, ¬ temp_dir `prefix_of` q → ¬ source_dir `prefix_of` q → s2 !! q = s1 !! q)
    ∧ (∀ x, under_one_folder (walk_files s source_dir) x →
            extracted (strip_top <$> members) source_dir s2)
    ∧ ((¬ ∃ x, under_one_folder (walk_files s source_dir) x) →
       extracted members source_dir s2).
Proof.
  intros backup_path temp_dir Hwf Hdot Htarget Hdir Hfree Hfree' Hout Hread Harch
    Hwf1 Hdir1 Harchive Htemp Hsep Hsrc Hparent.
  destruct (BackupThread_body_Ok s timestamp isoformat source_dir target_dir)
    as (members & Hbody & Hall); [done..|].
  fold backup_path in Hbody.
  destruct (member_of_names s source_dir _ members Hall) as (Hnames & Hvalid & Hdata).
  assert (Hzip : s1 !! backup_path = Some (File (Zip members) true)).
  { rewrite Harchive. unfold BackupThread_run. rewrite Hbody. cbn [snd].
    rewrite lookup_insert_ne, lookup_insert_eq; [done|].
    unfold backup_path. intros E. apply app_inv_head in E. injection E as E.
    apply String.app_inj in E. discriminate. }
  destruct (RestoreThread_body_Ok s1 target_dir (("BACKUP_" +:+ timestamp) +:+ ".zip")
              source_dir members)
    as (s2 & Hrun & Hgone & Hframe & Hflat & Hkeep); try done.
  { rewrite Hnames. by apply leaf_names_walk_files. }
  fold backup_path temp_dir in Hrun, Hgone, Hframe.
  exists members, s2. rewrite Hnames in Hflat, Hkeep. split_and!; try done.
  unfold RestoreThread_run. by rewrite Hrun.
Qed.



End round_trip.

Lemma nested_project_files k :
  k ∈ walk_files nested_project ["proj"] → k = ["src"; "a.txt"].
Proof.
  intros [_ (c & b & Hk)]%elem_of_walk_files.
  apply elem_of_list_to_map_2 in Hk.
  repeat (apply elem_of_cons in Hk as [Hk|Hk]; [by simplify_eq/=|]).
  by apply elem_of_nil in Hk.
Qed.




(** ** Comparing two archives without manifests *)

Lemma fresh_temp_dir_empty s (parent : path) (x : string) :
  s !! parent = Some Dir →
  (∀ c b, s !! (parent ++ [x]) ≠ Some (File c b)) →
  (s !! (parent ++ [x]) = None → ∀ q, (parent ++ [x]) `prefix_of` q → s !! q = None) →
  ∃ s1 : disk,
    (s0 ← get_disk;
     when (os_path_exists s0 (parent ++ [x])) (shutil_rmtree (parent ++ [x]));;
     os_makedirs (parent ++ [x]) false) s = (Ok (), s1)
    ∧ s1 !! (parent ++ [x]) = Some Dir
    ∧ (∀ q, below (parent ++ [x]) q → s1 !! q = None)
    ∧ (∀ q, ¬ (parent ++ [x]) `prefix_of` q → s1 !! q = s !! q).
Proof.
  intros Hparent Hfile Hmissing. cbv [mbind io_bind get_disk]. unfold os_path_exists.
  destruct (s !! (parent ++ [x])) as [[|c b]|] eqn:Hd; [|by destruct (Hfile c b)|].
  - cbn [when]. unfold shutil_rmtree. rewrite Hd.
    rewrite os_makedirs_leaf.
    + eexists. split; [done|]. split_and!.
      * by rewrite lookup_insert_eq.
      * intros q [Hq Hne]. rewrite lookup_insert_ne by done.
        by apply lookup_remove_tree_under.
      * intros q Hq. rewrite lookup_insert_ne by (intros <-; by apply Hq).
        by apply lookup_remove_tree_other.
    + by apply lookup_remove_tree_under.
    + rewrite dirname_snoc, lookup_remove_tree_other; [done|apply snoc_not_prefix].
  - cbn [when mret io_ret]. rewrite os_makedirs_leaf; [|done|by rewrite dirname_snoc].
    eexists. split; [done|]. split_and!.
    + by rewrite lookup_insert_eq.
    + intros q [Hq Hne]. rewrite lookup_insert_ne by done. by apply Hmissing.
    + intros q Hq. by rewrite lookup_insert_ne by (intros <-; by apply Hq).
Qed.

Lemma extracted_frame (members : list zmember) (d : path) s (s' : disk) :
  extracted members d s → (∀ r, s' !! (d ++ r) = s !! (d ++ r)) → extracted members d s'.
Proof.
  intros (Hd & Hfiles & Hdirs & Honly) Hsame. split_and!.
  - rewrite <-(app_nil_r d), Hsame. by rewrite app_nil_r.
  - intros m Hm. rewrite Hsame. by apply Hfiles.
  - intros m r Hm Hr Hr'. rewrite Hsame. by apply (Hdirs m).
  - intros r Hr. rewrite Hsame in Hr. by apply Honly.
Qed.

(** The first half of both comparisons: two fresh directories, one
    archive extracted into each. *)
Lemma extract_two s (parent : path) (x y : string) (p1 p2 : path)
    (members1 members2 : list zmember) :
  x ≠ y →
  well_formed s →
  s !! parent = Some Dir →
  (∀ c b, s !! (parent ++ [x]) ≠ Some (File c b)) →
  (∀ c b, s !! (parent ++ [y]) ≠ Some (File c b)) →
  s !! p1 = Some (File (Zip members1) true) →
  s !! p2 = Some (File (Zip members2) true) →
  ¬ (parent ++ [x]) `prefix_of` p1 → ¬ (parent ++ [y]) `prefix_of` p1 →
  ¬ (parent ++ [x]) `prefix_of` p2 → ¬ (parent ++ [y]) `prefix_of` p2 →
  Forall (λ m, zvalid m = true) members1 → leaf_names (zname <$> members1) →
  Forall (λ m, zvalid m = true) members2 → leaf_names (zname <$> members2) →
  ∃ s2 s3 s4 : disk,
    fresh_temp_dirs [parent ++ [x]; parent ++ [y]] s = (Ok (), s2)
    ∧ ZipFile_read s2 p1 = Ok members1
    ∧ extractall members1 (parent ++ [x]) s2 = (Ok (), s3)
    ∧ ZipFile_read s3 p2 = Ok members2
    ∧ extractall members2 (parent ++ [y]) s3 = (Ok (), s4)
    ∧ extracted members1 (parent ++ [x]) s4
    ∧ extracted members2 (parent ++ [y]) s4
    ∧ staged_beside s (parent ++ [x]) (parent ++ [y]) s4.
Proof.
  intros Hxy Hwf Hparent Hx Hy Hp1 Hp2 Hx1 Hy1 Hx2 Hy2 Hv1 Hl1 Hv2 Hl2.
  destruct (fresh_temp_dir_empty s parent x Hparent Hx)
    as (s1 & Hrun1 & Hd1 & He1 & Hf1).
  { intros Hnone q Hq. by eapply well_formed_missing. }
  destruct (fresh_temp_dir_empty s1 parent y) as (s2 & Hrun2 & Hd2 & He2 & Hf2).
  { rewrite Hf1; [done|apply snoc_not_prefix]. }
  { intros c b. rewrite Hf1; [done|]. by apply sibling_not_prefix. }
  { rewrite Hf1 by by apply sibling_not_prefix. intros Hnone q Hq.
    destruct (decide ((parent ++ [x]) `prefix_of` q)) as [Hqx|Hqx].
    - exfalso. destruct (prefix_weak_total (parent ++ [x]) (parent ++ [y]) q)
        as [Hp|Hp]; [done..| |]; by eapply sibling_not_prefix in Hp.
    - rewrite Hf1 by done. by eapply well_formed_missing. }
  assert (Hx2' : s2 !! (parent ++ [x]) = Some Dir).
  { rewrite Hf2; [done|]. by apply sibling_not_prefix. }
  assert (Hempty : ∀ q, below (parent ++ [x]) q → s2 !! q = None).
  { intros q Hq. destruct (decide ((parent ++ [y]) `prefix_of` q)) as [Hqy|Hqy].
    - exfalso. destruct Hq as [Hq _].
      destruct (prefix_weak_total (parent ++ [x]) (parent ++ [y]) q)
        as [Hp|Hp]; [done..| |]; by eapply sibling_not_prefix in Hp.
    - rewrite Hf2 by done. by apply He1. }
  destruct (extractall_spec (parent ++ [x]) members1 s2) as (s3 & Hrun3 & Hex3 & Hf3);
    [done| |done..|].
  { rewrite dirname_snoc, Hf2, Hf1; [by rewrite Hparent|apply snoc_not_prefix..]. }
  destruct (extractall_spec (parent ++ [y]) members2 s3) as (s4 & Hrun4 & Hex4 & Hf4);
    [| | |done..|].
  { rewrite Hf3; [done|]. by apply sibling_not_prefix. }
  { rewrite dirname_snoc, Hf3, Hf2, Hf1; [by rewrite Hparent|apply snoc_not_prefix..]. }
  { intros q Hq. rewrite Hf3; [by apply He2|]. intros Hqx. destruct Hq as [Hq _].
    destruct (prefix_weak_total (parent ++ [x]) (parent ++ [y]) q)
      as [Hp|Hp]; [done..| |]; by eapply sibling_not_prefix in Hp. }
  exists s2, s3, s4. split_and!; [|  |done| |done| |done|].
  - unfold fresh_temp_dirs. cbn [for_each].
    unfold mbind at 1, io_bind at 1. rewrite Hrun1.
    unfold mbind at 1, io_bind at 1. by rewrite Hrun2.
  - unfold ZipFile_read. by rewrite Hf2, Hf1, Hp1.
  - unfold ZipFile_read. by rewrite Hf3, Hf2, Hf1, Hp2.
  - apply (extracted_frame members1 _ s3); [done|]. intros r. apply Hf4.
    intros Hp. destruct (prefix_weak_total (parent ++ [x]) (parent ++ [y])
                           ((parent ++ [x]) ++ r)) as [Hp'|Hp'];
      [by apply prefix_app_r|done| |]; by eapply sibling_not_prefix in Hp'.
  - destruct Hex3 as (Hd3 & _). destruct Hex4 as (Hd4 & _). split_and!.
    + rewrite Hf4; [done|]. by apply sibling_not_prefix.
    + done.
    + intros q Hqx Hqy. by rewrite Hf4, Hf3, Hf2, Hf1.
Qed.

Section archives.
Context `{Codecs}.

(** The lines [readlines] delivers for a member. *)
Lemma readlines_extracted (members : list zmember) (d : path) s (m : zmember) :
  extracted members d s → m ∈ members →
  readlines s (d ++ zname m)
  = Ok (split_lines EmptyString (universal_newlines (utf8_ignore (zdata m)))).
Proof.
  intros Hex Hm. unfold readlines. by rewrite (open_rb_extracted members).
Qed.

Lemma files_differ_extracted (members1 members2 : list zmember) (d1 d2 : path) s
    (m1 m2 : zmember) :
  extracted members1 d1 s → extracted members2 d2 s →
  m1 ∈ members1 → m2 ∈ members2 → zname m1 = zname m2 →
  files_differ s (d1 ++ zname m1) (d2 ++ zname m1) = bool_decide (zdata m1 ≠ zdata m2).
Proof.
  intros Hex1 Hex2 Hm1 Hm2 Hname.
  apply files_differ_readable; [by apply (open_rb_extracted members1)|].
  rewrite Hname. by apply (open_rb_extracted members2).
Qed.

Lemma compare_backups_legacy_on_archives s (target_dir source_path compare_path : path)
    (members1 members2 : list zmember) :
  let temp_source := target_dir ++ ["temp_compare_source"] in
  let temp_compare := target_dir ++ ["temp_compare_target"] in
  well_formed s →
  s !! target_dir = Some Dir →
  (∀ c b, s !! temp_source ≠ Some (File c b)) →
  (∀ c b, s !! temp_compare ≠ Some (File c b)) →
  s !! source_path = Some (File (Zip members1) true) →
  s !! compare_path = Some (File (Zip members2) true) →
  ¬ temp_source `prefix_of` source_path → ¬ temp_compare `prefix_of` source_path →
  ¬ temp_source `prefix_of` compare_path → ¬ temp_compare `prefix_of` compare_path →
  Forall (λ m, zvalid m = true) members1 → leaf_names (zname <$> members1) →
  Forall (λ m, zvalid m = true) members2 → leaf_names (zname <$> members2) →
  ∃ d : differences,
    compare_backups_legacy target_dir source_path compare_path s
    = (Ok d, remove_tree temp_compare (remove_tree temp_source s))
    ∧ (∀ k, k ∈ added d ↔ k ∈ zname <$> members2 ∧ k ∉ zname <$> members1)
    ∧ (∀ k, k ∈ removed d ↔ k ∈ zname <$> members1 ∧ k ∉ zname <$> members2)
    ∧ (∀ k, k ∈ modified d ↔
            ∃ m1 m2, m1 ∈ members1 ∧ m2 ∈ members2
                     ∧ zname m1 = k ∧ zname m2 = k ∧ zdata m1 ≠ zdata m2)
    ∧ (∀ k, k ∈ unchanged d ↔
            ∃ m1 m2, m1 ∈ members1 ∧ m2 ∈ members2
                     ∧ zname m1 = k ∧ zname m2 = k ∧ zdata m1 = zdata m2).
Proof.
  intros temp_source temp_compare Hwf Hdir Hts Htc Hp1 Hp2 Hx1 Hy1 Hx2 Hy2
    Hv1 Hl1 Hv2 Hl2.
  assert (Hxy : "temp_compare_source" ≠ "temp_compare_target") by done.
  destruct (extract_two s target_dir _ _ source_path compare_path members1 members2 Hxy)
    as (s2 & s3 & s4 & Hfresh & Hread1 & Hrun3 & Hread2 & Hrun4 & Hex1 & Hex2 & Hst);
    [done..|].
  fold temp_source temp_compare in Hfresh, Hrun3, Hrun4, Hex1, Hex2, Hst.
  exists (get_directory_differences s4 temp_source temp_compare). split.
  - unfold compare_backups_legacy, try_except. fold temp_source temp_compare.
    unfold mbind at 1, io_bind at 1. rewrite Hfresh.
    unfold mbind at 1, io_bind at 1, lift at 1. rewrite Hread1.
    unfold mbind at 1, io_bind at 1. rewrite Hrun3.
    unfold mbind at 1, io_bind at 1, lift at 1. rewrite Hread2.
    unfold mbind at 1, io_bind at 1. rewrite Hrun4.
    unfold mbind at 1, io_bind at 1, get_disk at 1.
    pose proof (staged_beside_rmtree s target_dir _ _ s4 Hxy Hst) as Hrm.
    fold temp_source temp_compare in Hrm.
    cbv [mbind io_bind] in Hrm |- *.
    destruct (shutil_rmtree temp_source s4) as [[[]|e] s5]; [|done].
    destruct (shutil_rmtree temp_compare s5) as [[[]|e] s6]; [|done].
    by injection Hrm as ->.
  - assert (Hne1 : ∀ m, m ∈ members1 → zname m ≠ []).
    { intros m Hm E. destruct Hl1 as (_ & Hno & _). destruct Hno.
      rewrite <-E. by apply list_elem_of_fmap_2. }
    assert (Hne2 : ∀ m, m ∈ members2 → zname m ≠ []).
    { intros m Hm E. destruct Hl2 as (_ & Hno & _). destruct Hno.
      rewrite <-E. by apply list_elem_of_fmap_2. }
    assert (H1 : ∀ k, k ∈ (list_to_set (walk_files s4 temp_source) : gset path)
                      ↔ k ∈ zname <$> members1).
    { intros k. rewrite elem_of_list_to_set. by apply extracted_walk_files. }
    assert (H2 : ∀ k, k ∈ (list_to_set (walk_files s4 temp_compare) : gset path)
                      ↔ k ∈ zname <$> members2).
    { intros k. rewrite elem_of_list_to_set. by apply extracted_walk_files. }
    rewrite get_directory_differences_eq. cbn [added removed modified unchanged].
    split_and!; intros k.
    + by rewrite elem_of_elements, elem_of_difference, H1, H2.
    + by rewrite elem_of_elements, elem_of_difference, H1, H2.
    + rewrite list_elem_of_filter, elem_of_elements, elem_of_intersection, H1, H2.
      rewrite !list_elem_of_fmap. split.
      * intros (Hd & (m1 & -> & Hm1) & (m2 & Hname & Hm2)).
        rewrite (files_differ_extracted members1 members2 _ _ _ m1 m2) in Hd by done.
        apply bool_decide_eq_true in Hd. by exists m1, m2.
      * intros (m1 & m2 & Hm1 & Hm2 & <- & Hname & Hd). split_and!; [|eauto..].
        rewrite (files_differ_extracted members1 members2 _ _ _ m1 m2) by done.
        by apply bool_decide_eq_true.
    + rewrite list_elem_of_filter, elem_of_elements, elem_of_intersection, H1, H2.
      rewrite !list_elem_of_fmap. split.
      * intros (Hd & (m1 & -> & Hm1) & (m2 & Hname & Hm2)).
        rewrite (files_differ_extracted members1 members2 _ _ _ m1 m2) in Hd by done.
        apply bool_decide_eq_false in Hd. exists m1, m2. split_and!; [done..|].
        destruct (decide (zdata m1 = zdata m2)); [done|by destruct Hd].
      * intros (m1 & m2 & Hm1 & Hm2 & <- & Hname & Hd). split_and!; [|eauto..].
        rewrite (files_differ_extracted members1 members2 _ _ _ m1 m2) by done.
        apply bool_decide_eq_false. by intros ?.
Qed.


Lemma get_file_diff_on_archives s (target_dir : path)
    (source_backup compare_backup : string) (file_path : path)
    (members1 members2 : list zmember) (m1 m2 : zmember) :
  let temp_source := target_dir ++ ["temp_diff_source"] in
  let temp_compare := target_dir ++ ["temp_diff_compare"] in
  let lines (m : zmember) :=
    split_lines EmptyString (universal_newlines (utf8_ignore (zdata m))) in
  well_formed s →
  s !! target_dir = Some Dir →
  (∀ c b, s !! temp_source ≠ Some (File c b)) →
  (∀ c b, s !! temp_compare ≠ Some (File c b)) →
  s !! (target_dir ++ [source_backup]) = Some (File (Zip members1) true) →
  s !! (target_dir ++ [compare_backup]) = Some (File (Zip members2) true) →
  Forall (λ m, zvalid m = true) members1 → leaf_names (zname <$> members1) →
  Forall (λ m, zvalid m = true) members2 → leaf_names (zname <$> members2) →
  m1 ∈ members1 → zname m1 = file_path →
  m2 ∈ members2 → zname m2 = file_path →
  get_file_diff target_dir source_backup compare_backup file_path s
  = (Ok (Some (Difflib.unified_diff (lines m1) (lines m2)
                 (source_backup +:+ "/" +:+ path_str file_path)
                 (compare_backup +:+ "/" +:+ path_str file_path) "")),
     remove_tree temp_compare (remove_tree temp_source s)).
Proof.
  intros temp_source temp_compare lines Hwf Hdir Hts Htc Hp1 Hp2 Hv1 Hl1 Hv2 Hl2
    Hm1 Hname1 Hm2 Hname2.
  assert (Hxy : "temp_diff_source" ≠ "temp_diff_compare") by done.
  assert (Hout : ∀ (file x : string) (members : list zmember),
    s !! (target_dir ++ [file]) = Some (File (Zip members) true) →
    (∀ c b, s !! (target_dir ++ [x]) ≠ Some (File c b)) →
    ¬ (target_dir ++ [x]) `prefix_of` (target_dir ++ [file])).
  { intros file x members Hfile Hx. apply sibling_not_prefix. intros ->.
    by destruct (Hx (Zip members) true). }
  destruct (extract_two s target_dir _ _ (target_dir ++ [source_backup])
              (target_dir ++ [compare_backup]) members1 members2 Hxy)
    as (s2 & s3 & s4 & Hfresh & Hread1 & Hrun3 & Hread2 & Hrun4 & Hex1 & Hex2 & Hst);
    try done; eauto.
  fold temp_source temp_compare in Hfresh, Hrun3, Hrun4, Hex1, Hex2, Hst.
  assert (Hfile1 : s4 !! (temp_source ++ file_path)
                   = Some (File (Bytes (zdata m1)) true)).
  { rewrite <-Hname1. destruct Hex1 as (_ & Hfiles & _). by apply Hfiles. }
  assert (Hfile2 : s4 !! (temp_compare ++ file_path)
                   = Some (File (Bytes (zdata m2)) true)).
  { rewrite <-Hname2. destruct Hex2 as (_ & Hfiles & _). by apply Hfiles. }
  assert (Hlines1 : readlines s4 (temp_source ++ file_path) = Ok (lines m1)).
  { rewrite <-Hname1. by apply (readlines_extracted members1). }
  assert (Hlines2 : readlines s4 (temp_compare ++ file_path) = Ok (lines m2)).
  { rewrite <-Hname2. by apply (readlines_extracted members2). }
  unfold get_file_diff, try_except. fold temp_source temp_compare.
  unfold mbind at 1, io_bind at 1. rewrite Hfresh.
  unfold mbind at 1, io_bind at 1, lift at 1. rewrite Hread1.
  unfold mbind at 1, io_bind at 1. rewrite Hrun3.
  unfold mbind at 1, io_bind at 1, lift at 1. rewrite Hread2.
  unfold mbind at 1, io_bind at 1. rewrite Hrun4.
  unfold mbind at 1, io_bind at 1, get_disk at 1.
  unfold os_path_exists. rewrite Hfile1, Hfile2. cbn [negb orb].
  unfold mbind at 1, io_bind at 1, lift at 1. rewrite Hlines1.
  unfold mbind at 1, io_bind at 1, lift at 1. rewrite Hlines2.
  pose proof (staged_beside_rmtree s target_dir _ _ s4 Hxy Hst) as Hrm.
  fold temp_source temp_compare in Hrm.
  cbv [mbind io_bind] in Hrm |- *.
  destruct (shutil_rmtree temp_source s4) as [[[]|e] s5]; [|done].
  destruct (shutil_rmtree temp_compare s5) as [[[]|e] s6]; [|done].
  by injection Hrm as ->.
Qed.


End archives.

Lemma leaf_names_singleton (k : path) : k ≠ [] → leaf_names [k].
Proof.
  intros Hk. split_and!.
  - apply NoDup_singleton.
  - intros E%list_elem_of_singleton. by destruct Hk.
  - intros k1 k2 E1%list_elem_of_singleton E2%list_elem_of_singleton _. congruence.
Qed.



(** ** What a restore can change *)

Lemma touches_only_listdir (P : path → Prop) p : touches_only P (os_listdir p).
Proof. intros s q _. unfold os_listdir. by destruct (s !! p) as [[]|]. Qed.

Lemma touches_only_bind_ret {A B} (P : path → Prop) (R : A → Prop)
    (m : io A) (f : A → io B) :
  touches_only P m →
  (∀ s a (s' : disk), m s = (Ok a, s') → R a) →
  (∀ a, R a → touches_only P (f a)) →
  touches_only P (m ≫= f).
Proof.
  intros Hm HR Hf s q Hq. unfold mbind, io_bind.
  specialize (Hm s q Hq). specialize (HR s).
  destruct (m s) as [[a|e] s1]; cbn in *; [|done].
  rewrite Hf; [done|by eapply HR|done].
Qed.

Lemma touches_only_remove p : touches_only (eq p) (os_remove p).
Proof.
  intros s q Hq. unfold os_remove. destruct (s !! p) as [[]|]; cbn; [done| |done].
  by rewrite lookup_delete_ne.
Qed.

Lemma touches_only_rename src dst :
  touches_only (λ q, src `prefix_of` q ∨ dst `prefix_of` q) (os_rename src dst).
Proof.
  intros s q Hq. unfold os_rename.
  assert (Hmv : move_tree src dst s !! q = s !! q).
  { apply lookup_move_tree_other; intros ?; apply Hq; auto. }
  destruct (s !! src) as [n|]; [|done].
  destruct (negb _); [done|]. destruct (bool_decide (src = dst)); [done|].
  destruct (bool_decide (src `prefix_of` dst)); [done|].
  destruct n, (s !! dst) as [[]|]; try done.
  by destruct (bool_decide _).
Qed.

Lemma touches_only_copytree src dst :
  touches_only (comparable dst) (copytree src dst).
Proof.
  unfold copytree. apply touches_only_bind.
  { eapply touches_only_weaken; [|apply touches_only_makedirs]. by right. }
  intros _ s q Hq. cbv [mbind io_bind get_disk put_disk].
  assert (Hun : (graft dst (filter (λ kv, copyable kv.2) (subtree s src)) ∪ s) !! q
                = s !! q).
  { rewrite lookup_union, lookup_graft_None; [by destruct (s !! q)|].
    intros Hp. apply Hq. by left. }
  by destruct (bool_decide _).
Qed.

Lemma touches_only_copy2 src dst : touches_only (eq dst) (copy2 src dst).
Proof.
  unfold copy2. apply touches_only_bind; [apply touches_only_get|]. intros s.
  destruct (s !! src) as [[|c []]|];
    [apply touches_only_raise|apply touches_only_write_file|apply touches_only_raise..].
Qed.

Lemma touches_only_shutil_move src dst :
  touches_only (λ q, src `prefix_of` q ∨ comparable dst q) (shutil_move src dst).
Proof.
  unfold shutil_move. apply touches_only_bind; [apply touches_only_get|]. intros s.
  destruct (os_path_isdir s dst && bool_decide (src = dst)).
  { eapply touches_only_weaken; [|apply touches_only_rename].
    intros q [?|?]; [by left|right; by left]. }
  apply (touches_only_bind_ret _
           (λ real_dst, real_dst = dst ∨ real_dst = dst ++ [basename src])).
  - destruct (os_path_isdir s dst); [|apply touches_only_ret].
    destruct (os_path_exists s _); [apply touches_only_raise|apply touches_only_ret].
  - intros s0 real_dst s'. destruct (os_path_isdir s dst).
    + destruct (os_path_exists s _); [done|]. intros [= <- _]. by right.
    + intros [= <- _]. by left.
  - intros real_dst Hr.
    assert (Hunder : ∀ q, real_dst `prefix_of` q → comparable dst q).
    { intros q Hq. left. destruct Hr as [->| ->]; [done|].
      etrans; [|done]. by apply prefix_app_r. }
    assert (Hcomp : ∀ q, comparable real_dst q → comparable dst q).
    { intros q [Hq|Hq]; [by apply Hunder|]. destruct Hr as [->| ->]; [by right|].
      apply prefix_snoc_inv in Hq as [->|Hq]; [|by right].
      left. by apply prefix_app_r. }
    apply touches_only_try_except.
    + eapply touches_only_weaken; [|apply touches_only_rename].
      intros q [?|?]; auto.
    + intros _. destruct (os_path_isdir s src).
      * case_bool_decide; [apply touches_only_raise|].
        apply touches_only_bind.
        -- eapply touches_only_weaken; [|apply touches_only_copytree]. auto.
        -- intros _. eapply touches_only_weaken; [|apply touches_only_rmtree]. auto.
      * apply touches_only_bind.
        -- eapply touches_only_weaken; [|apply touches_only_copy2].
           intros q <-. right. apply Hunder. reflexivity.
        -- intros _. eapply touches_only_weaken; [|apply touches_only_remove].
           intros q <-. by left.
Qed.

Lemma touches_only_restore_move_extracted (temp_dir source_dir : path) :
  touches_only (λ q, temp_dir `prefix_of` q ∨ comparable source_dir q)
    (restore_move_extracted temp_dir source_dir).
Proof.
  assert (Hmove : ∀ item : string,
    touches_only (λ q, temp_dir `prefix_of` q ∨ comparable source_dir q)
      (shutil_move (temp_dir ++ [item]) source_dir)).
  { intros item. eapply touches_only_weaken; [|apply touches_only_shutil_move].
    intros q [Hq|Hq]; [left|by right]. etrans; [|done]. by apply prefix_app_r. }
  unfold restore_move_extracted.
  apply touches_only_bind; [apply touches_only_listdir|]. intros items.
  apply touches_only_bind; [apply touches_only_get|]. intros s.
  destruct (_ && _); [apply Hmove|].
  apply touches_only_bind.
  - eapply touches_only_weaken; [|apply touches_only_makedirs].
    intros q Hq. right. by right.
  - intros _. apply touches_only_for_each. intros item _. apply Hmove.
Qed.

Lemma touches_only_RestoreThread_body (backup_path source_dir : path) :
  touches_only (λ q, comparable (restore_temp_dir backup_path) q ∨ comparable source_dir q)
    (RestoreThread_body backup_path source_dir).
Proof.
  unfold RestoreThread_body. apply touches_only_bind.
  { eapply touches_only_weaken; [|apply touches_only_restore_extract]. auto. }
  intros _. apply touches_only_bind.
  { unfold restore_remove_existing.
    apply touches_only_bind; [apply touches_only_get|]. intros s.
    apply touches_only_when.
    eapply touches_only_weaken; [|apply touches_only_rmtree].
    intros q Hq. right. by left. }
  intros _. apply touches_only_bind.
  { eapply touches_only_weaken; [|apply touches_only_restore_move_extracted].
    intros q [Hq|Hq]; [left; by left|by right]. }
  intros _. eapply touches_only_weaken; [|apply touches_only_rmtree].
  intros q Hq. left. by left.
Qed.

(** X25: a restore changes nothing but the staging directory, the
    destination and the folders leading to them.  Whatever the disk and the
    archive, and whether the run completes or fails at any step, every
    path that neither lies on the branch of [temp_restore] nor on the
    branch of the destination is afterwards as it was. *)
Theorem RestoreThread_run_changes_only_its_branches s (backup_path source_dir : path)
    q :
  ¬ comparable (restore_temp_dir backup_path) q →
  ¬ comparable source_dir q →
  (RestoreThread_run backup_path source_dir s).2 !! q = s !! q.
Proof.
  intros Hq1 Hq2.
  pose proof (touches_only_RestoreThread_body backup_path source_dir s q) as Hframe.
  unfold RestoreThread_run.
  destruct (RestoreThread_body backup_path source_dir s) as [[[]|e] s'];
    apply Hframe; tauto.
Qed.

Section outputs.
Context `{Codecs}.

Lemma touches_only_BackupThread_body (timestamp isoformat : string)
    (source_dir target_dir : path) :
  let backup_path := target_dir ++ [("BACKUP_" +:+ timestamp) +:+ ".zip"] in
  touches_only (λ q, q = backup_path ∨ q = path_replace ".zip" "_hashes.json" backup_path)
    (BackupThread_body timestamp isoformat source_dir target_dir).
Proof.
  intros backup_path. unfold BackupThread_body. fold backup_path.
  apply touches_only_bind; [apply touches_only_get|]. intros s.
  apply touches_only_bind.
  { eapply touches_only_weaken; [|apply touches_only_create_zip]. by left. }
  intros _. apply touches_only_bind; [|intros _; apply touches_only_ret].
  eapply touches_only_weaken; [|apply touches_only_write_file]. by right.
Qed.

(** X26: a backup writes its two files and nothing else.  Whatever the
    disk, and whether the run completes or fails, every path other than
    the new archive and its hash file is afterwards as it was; in
    particular the tree being backed up is never changed. *)
Theorem BackupThread_run_changes_only_its_outputs s (timestamp isoformat : string)
    (source_dir target_dir : path) q :
  let backup_path := target_dir ++ [("BACKUP_" +:+ timestamp) +:+ ".zip"] in
  q ≠ backup_path →
  q ≠ path_replace ".zip" "_hashes.json" backup_path →
  (BackupThread_run timestamp isoformat source_dir target_dir s).2 !! q = s !! q.
Proof.
  intros backup_path Hq1 Hq2.
  pose proof (touches_only_BackupThread_body timestamp isoformat source_dir target_dir
                s q) as Hframe.
  unfold BackupThread_run.
  destruct (BackupThread_body timestamp isoformat source_dir target_dir s)
    as [[p|e] s']; apply Hframe; tauto.
Qed.

End outputs.

Lemma RestoreThread_run_changes_only_its_branches_witness :
  (RestoreThread_run ["store"; "BACKUP_A.zip"] ["proj"] damaged_store).2
    !! ["store"; "BACKUP_A.zip"]
  = damaged_store !! ["store"; "BACKUP_A.zip"].
Proof.
  apply (RestoreThread_run_changes_only_its_branches damaged_store
           ["store"; "BACKUP_A.zip"] ["proj"] ["store"; "BACKUP_A.zip"]).
  - intros [[k Hk]|[k Hk]]; vm_compute in Hk; discriminate.
  - intros [[k Hk]|[k Hk]]; vm_compute in Hk; discriminate.
Defined.

Lemma BackupThread_run_changes_only_its_outputs_witness :
  (BackupThread_run (H := ascii_codecs) "01_02_2024_03_04_05" "2024-01-02T03:04:05"
     ["proj"] ["store"] locked_project).2 !! ["proj"; "a.txt"]
  = locked_project !! ["proj"; "a.txt"].
Proof.
  apply (BackupThread_run_changes_only_its_outputs (H := ascii_codecs) locked_project
           "01_02_2024_03_04_05" "2024-01-02T03:04:05" ["proj"] ["store"]
           ["proj"; "a.txt"]).
  - vm_compute. discriminate.
  - vm_compute. discriminate.
Defined.

(** ** Two backups of the same tree *)

Lemma string_app_inv_tail (l1 l2 suffix : string) :
  l1 +:+ suffix = l2 +:+ suffix → l1 = l2.
Proof.
  intros E. apply (f_equal list_ascii_of_string) in E.
  rewrite !list_ascii_of_string_app in E. apply app_inv_tail in E.
  apply (f_equal string_of_list_ascii) in E.
  by rewrite !string_of_list_ascii_of_string in E.
Qed.

Lemma zip_name_ne_manifest_name (l1 l2 : string) :
  l1 +:+ ".zip" ≠ l2 +:+ "_hashes.json".
Proof.
  intros E. pose proof (endswith_app l1 ".zip") as H1.
  rewrite E, manifest_name_not_zip in H1. done.
Qed.

Lemma get_hash_based_differences_diag (A B : hash_data) :
  file_hashes A = file_hashes B →
  get_hash_based_differences A B
  = Ok (Differences [] [] [] (elements (dom (file_hashes A)))).
Proof.
  intros Heq. rewrite get_hash_based_differences_eq, <-Heq.
  rewrite difference_diag_L, elements_empty.
  replace (dom (file_hashes A) ∩ dom (file_hashes A)) with (dom (file_hashes A))
    by set_solver.
  f_equal. f_equal.
  - induction (elements (dom (file_hashes A))) as [|k l IH]; [done|].
    rewrite filter_cons, decide_False by (by intros Hn; apply Hn). done.
  - induction (elements (dom (file_hashes A))) as [|k l IH]; [done|].
    rewrite filter_cons, decide_True by done. by f_equal.
Qed.

Section twice.
Context `{Codecs}.

Lemma hash_files_insert_outside s (source_dir p : path) n :
  ¬ source_dir `prefix_of` p →
  hash_files (<[p := n]> s) source_dir = hash_files s source_dir.
Proof.
  intros Hp. apply map_eq. intros k.
  rewrite !lookup_hash_files, walk_files_insert_outside by done.
  case_decide as Hk; [|done]. unfold calculate_file_hash.
  rewrite open_rb_insert_ne; [done| |].
  - intros ->. apply Hp. by apply prefix_app_r.
  - apply elem_of_walk_files in Hk as [_ (c & b & Hk)]. by rewrite Hk.
Qed.


End twice.


(** ** Restores that fail *)





(** ** Restoring after a successful extraction *)

Lemma adds_no_locked_ret {A} (a : A) : adds_no_locked (mret a).
Proof. intros s q c Hq. eauto. Qed.

Lemma adds_no_locked_raise {A} e : adds_no_locked (raise e : io A).
Proof. intros s q c Hq. eauto. Qed.

Lemma adds_no_locked_get : adds_no_locked get_disk.
Proof. intros s q c Hq. eauto. Qed.

Lemma adds_no_locked_bind {A B} (m : io A) (f : A → io B) :
  adds_no_locked m → (∀ a, adds_no_locked (f a)) → adds_no_locked (m ≫= f).
Proof.
  intros Hm Hf s q c. unfold mbind, io_bind.
  specialize (Hm s q). destruct (m s) as [[a|e] s1]; cbn in *; [|by apply Hm].
  intros [c' Hc']%Hf. by eapply Hm.
Qed.

Lemma adds_no_locked_try_except {A} (m : io A) (h : exn → io A) :
  adds_no_locked m → (∀ e, adds_no_locked (h e)) → adds_no_locked (try_except m h).
Proof.
  intros Hm Hh s q c. unfold try_except.
  specialize (Hm s q). destruct (m s) as [[a|e] s1]; cbn in *; [by apply Hm|].
  intros [c' Hc']%Hh. by eapply Hm.
Qed.

Lemma adds_no_locked_when (b : bool) (m : io unit) :
  adds_no_locked m → adds_no_locked (when b m).
Proof. destruct b; [done|]. intros _. apply adds_no_locked_ret. Qed.

Lemma adds_no_locked_for_each {A} (l : list A) (body : A → io unit) :
  (∀ x, adds_no_locked (body x)) → adds_no_locked (for_each l body).
Proof.
  intros Hbody. induction l as [|x l IH]; cbn [for_each].
  - apply adds_no_locked_ret.
  - apply adds_no_locked_bind; [apply Hbody|]. by intros _.
Qed.

Lemma adds_no_locked_mkdir p : adds_no_locked (os_mkdir p).
Proof.
  intros s q c. unfold os_mkdir.
  destruct (s !! p) eqn:Hp; [eauto|].
  destruct (os_path_isdir s (dirname p)); cbn.
  - destruct (decide (p = q)) as [->|]; [by rewrite lookup_insert_eq|].
    rewrite lookup_insert_ne by done. eauto.
  - destruct (os_path_exists s (dirname p)); eauto.
Qed.

Lemma adds_no_locked_makedirs_rev rname exist_ok :
  adds_no_locked (makedirs_rev rname exist_ok).
Proof.
  induction rname as [|x rhead IH]; cbn [makedirs_rev].
  - apply adds_no_locked_bind; [apply adds_no_locked_ret|]. intros _.
    apply adds_no_locked_try_except; [apply adds_no_locked_mkdir|].
    intros e. apply adds_no_locked_bind; [apply adds_no_locked_get|].
    intros s. destruct (_ || _); [apply adds_no_locked_raise|apply adds_no_locked_ret].
  - apply adds_no_locked_bind.
    + apply adds_no_locked_bind; [apply adds_no_locked_get|]. intros s.
      apply adds_no_locked_when, adds_no_locked_try_except; [done|].
      intros e. case_decide; [apply adds_no_locked_ret|apply adds_no_locked_raise].
    + intros _. apply adds_no_locked_try_except; [apply adds_no_locked_mkdir|].
      intros e. apply adds_no_locked_bind; [apply adds_no_locked_get|].
      intros s. destruct (_ || _); [apply adds_no_locked_raise|apply adds_no_locked_ret].
Qed.

Lemma adds_no_locked_write_file p c : adds_no_locked (write_file p c).
Proof.
  intros s q c0. unfold write_file.
  destruct (s !! p) as [[|c1 b]|] eqn:Hp; cbn; [eauto| |].
  - destruct (decide (p = q)) as [->|].
    + rewrite lookup_insert_eq. intros [= <- <-]. eauto.
    + rewrite lookup_insert_ne by done. eauto.
  - destruct (os_path_isdir s (dirname p)); cbn; [|eauto].
    destruct (decide (p = q)) as [->|]; [by rewrite lookup_insert_eq|].
    rewrite lookup_insert_ne by done. eauto.
Qed.

Lemma adds_no_locked_extractall members targetdir :
  adds_no_locked (extractall members targetdir).
Proof.
  apply adds_no_locked_for_each. intros m. unfold extract_member.
  apply adds_no_locked_bind; [apply adds_no_locked_get|]. intros s.
  apply adds_no_locked_bind.
  { apply adds_no_locked_when, adds_no_locked_makedirs_rev. }
  intros _. apply adds_no_locked_bind; [apply adds_no_locked_write_file|].
  intros _. destruct (zvalid m); [apply adds_no_locked_ret|apply adds_no_locked_raise].
Qed.

(** When [os.makedirs] returns, the directory is there. *)
Lemma os_makedirs_Ok_isdir (name : path) (exist_ok : bool) s (s' : disk) :
  os_makedirs name exist_ok s = (Ok (), s') → s' !! name = Some Dir.
Proof.
  unfold os_makedirs. rewrite <-(reverse_involutive name) at 2.
  generalize (reverse name). intros rname.
  assert (Hleaf : ∀ (s0 : disk),
    try_except (os_mkdir (reverse rname))
      (λ e, s1 ← get_disk;
            if negb exist_ok || negb (os_path_isdir s1 (reverse rname))
            then raise e else mret ()) s0 = (Ok (), s') →
    s' !! reverse rname = Some Dir).
  { intros s0. unfold try_except, os_mkdir.
    destruct (s0 !! reverse rname) as [n|] eqn:Hn.
    - cbv [mbind io_bind get_disk]. unfold os_path_isdir. rewrite Hn.
      destruct exist_ok; cbn; [|done]. destruct n; cbn; [|done]. by intros [= <-].
    - destruct (os_path_isdir s0 (dirname (reverse rname))).
      + intros [= <-]. apply lookup_insert_eq.
      + destruct (os_path_exists s0 (dirname (reverse rname)));
          cbv [mbind io_bind get_disk]; unfold os_path_isdir; rewrite Hn;
          by destruct exist_ok. }
  destruct rname as [|x rhead]; cbn [makedirs_rev]; unfold mbind at 1, io_bind at 1.
  - apply Hleaf.
  - destruct ((s0 ← get_disk; when _ _) s) as [[[]|e] s0]; [apply Hleaf|done].
Qed.

(** What a successful extraction leaves: the staging directory, holding
    readable files only, and the rest of the disk as it was. *)
Lemma restore_extract_Ok_inv s (target_dir : path) (file : string) (s1 : disk) :
  let backup_path := target_dir ++ [file] in
  let temp_dir := target_dir ++ ["temp_restore"] in
  well_formed s →
  restore_extract backup_path s = (Ok (), s1) →
  s !! target_dir = Some Dir
  ∧ s1 !! temp_dir = Some Dir
  ∧ (∀ q, ¬ temp_dir `prefix_of` q → s1 !! q = s !! q)
  ∧ (∀ q n, temp_dir `prefix_of` q → s1 !! q = Some n → copyable n = true).
Proof.
  intros backup_path temp_dir Hwf Hrun.
  assert (Htd : restore_temp_dir backup_path = temp_dir)
    by (unfold restore_temp_dir, backup_path; by rewrite dirname_snoc).
  unfold restore_extract in Hrun. rewrite Htd in Hrun. cbv zeta in Hrun.
  pose proof (touches_only_bind (comparable temp_dir) get_disk
    (λ s0, when (os_path_exists s0 temp_dir) (shutil_rmtree temp_dir);;
           os_makedirs temp_dir false)) as Hframe.
  assert (Hstart : ∃ sa : disk,
    (s0 ← get_disk;
     when (os_path_exists s0 temp_dir) (shutil_rmtree temp_dir);;
     os_makedirs temp_dir false) s = (Ok (), sa)
    ∧ sa !! temp_dir = Some Dir
    ∧ ∃ members, ZipFile_read sa backup_path = Ok members
                 ∧ extractall members temp_dir sa = (Ok (), s1)).
  { revert Hrun. cbv [mbind io_bind get_disk lift].
    destruct (when (os_path_exists s temp_dir) (shutil_rmtree temp_dir) s)
      as [[[]|e] s0]; cbv beta iota; [|done].
    destruct (os_makedirs temp_dir false s0) as [[[]|e] sa] eqn:Hmk;
      cbv beta iota; [|done].
    destruct (ZipFile_read sa backup_path) as [members|e] eqn:Hread;
      cbv beta iota; [|done].
    intros Hrun. exists sa. split; [done|]. split; [by eapply os_makedirs_Ok_isdir|].
    eauto. }
  destruct Hstart as (sa & Hstart & Hta & members & Hread & Hrun').
  assert (Hfile : file ≠ "temp_restore").
  { intros ->. unfold ZipFile_read in Hread.
    change (sa !! backup_path) with (sa !! temp_dir) in Hread.
    by rewrite Hta in Hread. }
  assert (Hdir : s !! target_dir = Some Dir).
  { apply (well_formed_parent s target_dir file); [done|]. fold backup_path.
    assert (sa !! backup_path = s !! backup_path) as <-.
    { specialize (Hframe ltac:(apply touches_only_get)).
      assert (touches_only (comparable temp_dir)
                (s0 ← get_disk;
                 when (os_path_exists s0 temp_dir) (shutil_rmtree temp_dir);;
                 os_makedirs temp_dir false)) as Ht.
      { apply Hframe. intros s0. apply touches_only_bind.
        - apply touches_only_when.
          eapply touches_only_weaken; [|apply touches_only_rmtree]. by left.
        - intros _. eapply touches_only_weaken; [|apply touches_only_makedirs].
          by right. }
      specialize (Ht s backup_path). rewrite Hstart in Ht. apply Ht.
      intros [Hp|Hp].
      - by apply sibling_not_prefix in Hp.
      - apply prefix_snoc_inv in Hp as [E|Hp].
        + apply app_inj_tail in E as [_ E]. done.
        + by apply snoc_not_prefix in Hp. }
    unfold ZipFile_read in Hread. by destruct (sa !! backup_path). }
  assert (Htemp : ∀ c b, s !! temp_dir ≠ Some (File c b)).
  { intros c b Ht. revert Hstart. cbv [mbind io_bind get_disk].
    unfold os_path_exists. rewrite Ht. cbn [when]. unfold shutil_rmtree.
    by rewrite Ht. }
  destruct (fresh_temp_dir_empty s target_dir "temp_restore" Hdir Htemp)
    as (sa' & Hstart' & _ & Hempty & Hframe0).
  { intros Hnone q Hq. by eapply well_formed_missing. }
  fold temp_dir in Hstart', Hempty, Hframe0.
  rewrite Hstart in Hstart'. injection Hstart' as <-.
  pose proof (λ q, extractall_below temp_dir members sa q Hta) as Hbelow.
  unfold temp_dir at 1 in Hbelow. rewrite dirname_snoc in Hbelow.
  assert (Hp : is_Some (sa !! target_dir)).
  { rewrite Hframe0, Hdir; [done|apply snoc_not_prefix]. }
  specialize (λ q, Hbelow q Hp). rewrite Hrun' in Hbelow. cbn [snd] in Hbelow.
  split_and!; [done| | |].
  - rewrite Hbelow; [done|apply not_below_self].
  - intros q Hq. rewrite Hbelow; [by apply Hframe0|]. by intros [? _].
  - intros q n Hq Hn. destruct n as [|c [|]]; try done.
    pose proof (adds_no_locked_extractall members temp_dir sa q c) as Hlocked.
    rewrite Hrun' in Hlocked. destruct (Hlocked Hn) as [c' Hc'].
    destruct (decide (q = temp_dir)) as [->|Hne]; [congruence|].
    rewrite Hempty in Hc'; done.
Qed.

(** [shutil.move] of a directory to a path whose parent is missing:
    [os.rename] fails, and the tree is copied, with the folders on the
    way to it, and then removed. *)
Lemma shutil_move_copy s src dst :
  s !! src = Some Dir →
  (∀ q, dst `prefix_of` q → s !! q = None) →
  s !! dirname dst ≠ Some Dir →
  s !! [] = Some Dir →
  (∀ r0 r1, r1 `prefix_of` r0 → r0 `prefix_of` dst → is_Some (s !! r0) →
            s !! r1 = Some Dir) →
  ¬ comparable src dst →
  (∀ q n, src `prefix_of` q → s !! q = Some n → copyable n = true) →
  ∃ s' : disk,
    shutil_move src dst s = (Ok (), s')
    ∧ (∀ r, s' !! (dst ++ r) = s !! (src ++ r))
    ∧ (∀ q, ¬ src `prefix_of` q → ¬ q `prefix_of` dst → ¬ dst `prefix_of` q →
            s' !! q = s !! q).
Proof.
  intros Hsrc Hnone Hparent Hroot Hchain Hsep Hread.
  assert (Hdst : s !! dst = None) by by apply Hnone.
  destruct (os_makedirs_chain [] dst false s Hroot Hchain Hdst)
    as (sa & Hmk & Hdirs & Hframe).
  cbn [app] in Hmk, Hdirs, Hframe.
  assert (Hsub : subtree sa src = subtree s src).
  { apply map_eq. intros r. rewrite !lookup_subtree. apply Hframe.
    intros Hp. apply Hsep. left. etrans; [|done]. by apply prefix_app_r. }
  assert (Hall : map_Forall (λ _ n, copyable n) (subtree sa src)).
  { rewrite Hsub. intros r n Hr. rewrite lookup_subtree in Hr.
    apply Is_true_true. eapply Hread; [|done]. by apply prefix_app_r. }
  assert (Hfilter : filter (λ kv : path * node, copyable kv.2) (subtree sa src)
                    = subtree s src).
  { rewrite map_filter_id, Hsub; [done|]. intros r n Hr. by apply (Hall r n). }
  set (sb := graft dst (subtree s src) ∪ sa).
  assert (Hsb_src : sb !! src = Some Dir).
  { unfold sb. rewrite lookup_union_r.
    - rewrite Hframe; [done|]. intros Hp. apply Hsep. by left.
    - apply lookup_graft_None. intros Hp. apply Hsep. by right. }
  exists (remove_tree src sb). split_and!.
  - unfold shutil_move. cbv [mbind io_bind get_disk].
    assert (os_path_isdir s dst = false) as -> by (unfold os_path_isdir; by rewrite Hdst).
    cbn [andb]. cbv [mret io_ret]. unfold try_except, os_rename. rewrite Hsrc.
    assert (os_path_isdir s (dirname dst) = false) as ->.
    { unfold os_path_isdir. by destruct (s !! dirname dst) as [[]|]. }
    cbn [negb].
    assert (os_path_isdir s src = true) as -> by (unfold os_path_isdir; by rewrite Hsrc).
    rewrite bool_decide_false by (intros Hp; apply Hsep; by left).
    unfold copytree. cbv [mbind io_bind get_disk put_disk]. rewrite Hmk.
    rewrite Hfilter. fold sb. rewrite bool_decide_true by done.
    cbv [mret io_ret]. unfold shutil_rmtree. by rewrite Hsb_src.
  - intros r. rewrite lookup_remove_tree_other.
    2:{ intros Hp. apply Hsep.
        destruct (prefix_weak_total src dst (dst ++ r)); [done|by apply prefix_app_r|..].
        - by left.
        - by right. }
    unfold sb. destruct (s !! (src ++ r)) as [n|] eqn:Hn.
    + apply lookup_union_Some_l. by rewrite lookup_graft_app, lookup_subtree.
    + rewrite lookup_union_r by by rewrite lookup_graft_app, lookup_subtree.
      destruct r as [|y r _] using rev_ind.
      { rewrite app_nil_r in Hn. congruence. }
      rewrite Hframe.
      * apply Hnone. by apply prefix_app_r.
      * intros Hp%prefix_length. rewrite !length_app in Hp. cbn in Hp. lia.
  - intros q Hq1 Hq2 Hq3. rewrite lookup_remove_tree_other by done.
    unfold sb. rewrite lookup_union_r by by apply lookup_graft_None.
    by apply Hframe.
Qed.

(** The move step, from a state in which the destination is gone, the
    folders that exist on the way to it are directories, and every staged
    file can be read. *)
Lemma restore_move_extracted_spec s (temp_dir source_dir : path) :
  s !! temp_dir = Some Dir →
  (∀ q, source_dir `prefix_of` q → s !! q = None) →
  s !! [] = Some Dir →
  (∀ r0 r1, r1 `prefix_of` r0 → r0 `prefix_of` source_dir → is_Some (s !! r0) →
            s !! r1 = Some Dir) →
  ¬ comparable temp_dir source_dir →
  (∀ q n, temp_dir `prefix_of` q → s !! q = Some n → copyable n = true) →
  ∃ (items : list string) (s' : disk),
    os_listdir temp_dir s = (Ok items, s)
    ∧ restore_move_extracted temp_dir source_dir s = (Ok (), s')
    ∧ s' !! temp_dir = Some Dir
    ∧ (∀ item, items = [item] → s !! (temp_dir ++ [item]) = Some Dir →
         ∀ r, s' !! (source_dir ++ r) = s !! (temp_dir ++ item :: r))
    ∧ ((∀ item, items = [item] → s !! (temp_dir ++ [item]) ≠ Some Dir) →
         s' !! source_dir = Some Dir
         ∧ (∀ item r, item ∈ items →
              s' !! (source_dir ++ item :: r) = s !! (temp_dir ++ item :: r))
         ∧ (∀ item r, item ∉ items → s' !! (source_dir ++ item :: r) = None)).
Proof.
  intros Htemp Hnone Hroot Hchain Hsep Hread.
  assert (Hin : ¬ temp_dir `prefix_of` source_dir) by (intros ?; apply Hsep; by left).
  assert (Hunder : ¬ source_dir `prefix_of` temp_dir) by (intros ?; apply Hsep; by right).
  destruct (os_listdir_Dir s temp_dir Htemp) as (items & Hls & Hnd & Hitems).
  assert (Hsep1 : ∀ item : string, ¬ comparable (temp_dir ++ [item]) source_dir).
  { intros item [Hp|Hp].
    - apply Hin. etrans; [|done]. by apply prefix_app_r.
    - apply prefix_snoc_inv in Hp as [E|Hp]; [|done].
      apply Hin. rewrite E. by apply prefix_app_r. }
  assert (Hbranch1 : ∀ item, items = [item] → s !! (temp_dir ++ [item]) = Some Dir →
    ∃ s' : disk,
      restore_move_extracted temp_dir source_dir s = (Ok (), s')
      ∧ s' !! temp_dir = Some Dir
      ∧ ∀ r, s' !! (source_dir ++ r) = s !! (temp_dir ++ item :: r)).
  { intros item -> Hdir.
    assert (Hstep : restore_move_extracted temp_dir source_dir s
                    = shutil_move (temp_dir ++ [item]) source_dir s).
    { unfold restore_move_extracted.
      unfold mbind at 1, io_bind at 1. rewrite Hls.
      cbv [mbind io_bind get_disk]. cbn [length head default]. unfold id.
      unfold os_path_isdir at 1. rewrite Hdir. cbn [bool_decide andb].
      by rewrite bool_decide_true by done. }
    rewrite Hstep.
    assert (Hparent : s !! dirname source_dir = Some Dir
                      ∨ s !! dirname source_dir ≠ Some Dir)
      by (destruct (s !! dirname source_dir) as [[]|]; auto).
    destruct Hparent as [Hparent|Hparent].
    - eexists. split; [|split].
      + eapply shutil_move_rename; [done|by apply Hnone|done|].
        intros Hp. by apply (Hsep1 item); left.
      + rewrite lookup_move_tree_other; [done|apply snoc_not_prefix|done].
      + intros r. rewrite lookup_move_tree_into. by rewrite <-app_assoc.
    - destruct (shutil_move_copy s (temp_dir ++ [item]) source_dir)
        as (s' & Hmove & Hmoved & Hframe); try done.
      { intros q n Hq. apply Hread. etrans; [|done]. by apply prefix_app_r. }
      exists s'. split; [done|]. split.
      + rewrite Hframe; [done|apply snoc_not_prefix|done..].
      + intros r. rewrite Hmoved. by rewrite <-app_assoc. }
  assert (Hbranch2 : (∀ item, items = [item] → s !! (temp_dir ++ [item]) ≠ Some Dir) →
    ∃ sm : disk,
      restore_move_extracted temp_dir source_dir s
      = for_each items (λ item, shutil_move (temp_dir ++ [item]) source_dir) sm
      ∧ sm !! source_dir = Some Dir
      ∧ ∀ q, ¬ q `prefix_of` source_dir → sm !! q = s !! q).
  { intros Hnot.
    destruct (os_makedirs_chain [] source_dir true s Hroot Hchain) as (sm & Hmk & Hdirs & Hframe).
    { by apply Hnone. }
    cbn [app] in Hmk, Hdirs, Hframe.
    exists sm. split; [|split; [by apply Hdirs|done]].
    unfold restore_move_extracted.
    unfold mbind at 1, io_bind at 1. rewrite Hls.
    cbv [mbind io_bind get_disk].
    assert (bool_decide (length items = 1)
            && os_path_isdir s (temp_dir ++ [default "" (head items)]) = false) as ->.
    { destruct items as [|item [|]]; try done. cbn.
      unfold os_path_isdir. specialize (Hnot item eq_refl).
      by destruct (s !! (temp_dir ++ [item])) as [[]|]. }
    by rewrite Hmk. }
  assert (Hcases : (∃ item, items = [item] ∧ s !! (temp_dir ++ [item]) = Some Dir)
                   ∨ ¬ (∃ item, items = [item]
                                ∧ s !! (temp_dir ++ [item]) = Some Dir)).
  { destruct items as [|item [|]]; [right; by intros (? & ? & _)| |
                                    right; by intros (? & ? & _)].
    destruct (s !! (temp_dir ++ [item])) as [[]|] eqn:E; [left; eauto|..];
      right; intros (? & ? & ?); simplify_eq. }
  destruct Hcases as [(item & -> & Hdir)|Hnot].
  - destruct (Hbranch1 item eq_refl Hdir) as (s' & Hrun & Ht & Hmoved).
    exists [item], s'. split_and!; [done..| |].
    + by intros ? [= <-] _ r.
    + intros Hno. by destruct (Hno item).
  - assert (Hnot' : ∀ item, items = [item] → s !! (temp_dir ++ [item]) ≠ Some Dir)
      by (intros item ? ?; apply Hnot; eauto).
    destruct (Hbranch2 Hnot') as (sm & Hrun2 & Hsm & Hframe0).
    assert (Htmp : ∀ r, ¬ (temp_dir ++ r) `prefix_of` source_dir).
    { intros r Hp. apply Hin. etrans; [|done]. by apply prefix_app_r. }
    assert (Hsrc : ∀ (x : string) r, ¬ (source_dir ++ x :: r) `prefix_of` source_dir).
    { intros x r Hp%prefix_length. rewrite length_app in Hp. cbn in Hp. lia. }
    destruct (move_items_spec s temp_dir source_dir items Hsep Hnd sm)
      as (s' & Hrun & Hmoved & Hframe).
    + done.
    + intros x Hx. rewrite Hframe0 by apply Htmp. by apply Hitems.
    + intros x r Hx. by rewrite Hframe0 by apply Htmp.
    + intros x r Hx. rewrite Hframe0 by apply Hsrc.
      apply Hnone. by apply prefix_app_r.
    + exists items, s'. split; [done|]. split; [by rewrite Hrun2|]. split_and!.
      * rewrite Hframe.
        -- rewrite Hframe0; [done|]. rewrite <-(app_nil_r temp_dir). apply Htmp.
        -- intros x Hx. split; [apply snoc_not_prefix|].
           intros Hp. apply Hunder. etrans; [|done]. by apply prefix_app_r.
      * intros item E Hdir. destruct Hnot. eauto.
      * intros _. split_and!; [|done|].
        -- rewrite Hframe; [done|].
           intros x Hx. split.
           ++ intros Hp. apply Hin. etrans; [|done]. by apply prefix_app_r.
           ++ apply snoc_not_prefix.
        -- intros item r Hitem. rewrite Hframe.
           ++ rewrite Hframe0 by apply Hsrc. apply Hnone. by apply prefix_app_r.
           ++ intros x Hx. split.
              ** intros Hp.
                 eapply (incomparable_prefixes temp_dir source_dir); [done| | |done].
                 --- etrans; [|done]. by apply prefix_app_r.
                 --- by apply prefix_app_r.
              ** intros ->%snoc_prefix_cons. done.
Qed.

Lemma comparable_of_common_extension p q r :
  p `prefix_of` r → q `prefix_of` r → comparable p q.
Proof.
  intros Hp Hq. destruct (prefix_weak_total p q r); [done..|by left|by right].
Qed.



